(** * VobSub2SRT: the OCR dispatch loop, the reconciler and the SRT serializer

    A shallow embedding of [src/vobsub2srt.c++]: the time stamp formatter
    [pts2srt], the per-packet loop of [main] with its worker slots, the worker
    [do_ocr], the sort by counter and the loop that fixes [end_pts] and writes
    the records; besides these [ImageInverter], [dump_pgm] and the choice of
    the stream and of the OCR language in [main].

    Machine integers are [Z] with the wrap-around written out ([unsigned] and
    [int] are 32 bits wide).  Vectors are lists read with [!!].  The decoder
    (vobsub, spudec) and the OCR engine (tesseract) are not part of the file:
    the packets are the input, the engine is a parameter.  The two places
    where the file relies on what the C library and the allocator happen to
    do (a null [%s] argument, a read of [conv_subs[size]]) take that
    behaviour as a parameter too, and the second one is recorded in the
    state. *)

From Stdlib Require Import ZArith String Ascii List Lia Bool Sorted Permutation.
From stdpp Require Import base tactics option list relations sorting.
Import ListNotations.

Local Open Scope Z_scope.

(** ** Machine integers *)

Module Word.

Definition UINT_MAX : Z := 4294967295.

(** Arithmetic on [unsigned] is modulo 2^32. *)
Definition wrap (z : Z) : Z := z mod 4294967296.

(** An [unsigned] read as an [int] (what [%d] does with it). *)
Definition as_int (u : Z) : Z :=
  if u <? 2147483648 then u else u - 4294967296.

(** An [int] converted to [unsigned]: [(unsigned int)x], [static_cast<unsigned>(x)]. *)
Definition as_unsigned (i : Z) : Z := wrap i.

Definition is_unsigned (z : Z) : Prop := 0 <= z <= UINT_MAX.

End Word.

(** ** printf conversions *)

Module Printf.

Definition digit (d : Z) : ascii := ascii_of_nat (48 + Z.to_nat d).

(** The decimal digits of a non-negative number, most significant first;
    [fuel] bounds the number of digits after the first. *)
Fixpoint digits (fuel : nat) (n : Z) (acc : string) : string :=
  let acc' := String (digit (n mod 10)) acc in
  match fuel with
  | O => acc'
  | S fuel' => if n / 10 =? 0 then acc' else digits fuel' (n / 10) acc'
  end.

(** 20 digits cover every 64-bit value. *)
Definition decimal (n : Z) : string := digits 20 n EmptyString.

Fixpoint zeros (k : nat) : string :=
  match k with
  | O => EmptyString
  | S k' => String "0"%char (zeros k')
  end.

(** [%u]: an unsigned number in decimal. *)
Definition fmt_u (v : Z) : string := decimal v.

(** [%0<w>d]: a signed number in decimal, padded with zeros to at least
    [w] characters (the sign counts). *)
Definition fmt_d (w : nat) (v : Z) : string :=
  if v <? 0 then
    let d := decimal (- v) in
    String "-"%char (zeros (w - 1 - String.length d) ++ d)
  else
    let d := decimal v in
    (zeros (w - String.length d) ++ d)%string.

(** [snprintf(buf, size, ...)] keeps at most [size - 1] characters. *)
Definition snprintf (size : nat) (s : string) : string :=
  substring 0 (size - 1) s.

(** Reading a string of decimal digits back ([None] on any other character). *)
Definition digit_value (c : ascii) : option Z :=
  let n := Z.of_nat (nat_of_ascii c) in
  if (48 <=? n) && (n <=? 57) then Some (n - 48) else None.

Fixpoint dec_value_from (acc : Z) (s : string) : option Z :=
  match s with
  | EmptyString => Some acc
  | String c s' =>
      match digit_value c with
      | Some d => dec_value_from (10 * acc + d) s'
      | None => None
      end
  end.

Definition dec_value (s : string) : option Z :=
  match s with
  | EmptyString => None
  | _ => dec_value_from 0 s
  end.

End Printf.

(** ** The source file *)

Import Word Printf.

Module vobsub2srt.

(** [std::string pts2srt(unsigned pts)], lines 76-89.  [length] is
    [4 * sizeof(h)], that is 16. *)
Definition pts2srt_fields (pts : Z) : Z * Z * Z * Z :=
  let ms := pts / 90 in
  let h := ms / (3600 * 1000) in
  let ms := wrap (ms - wrap (wrap (h * 3600) * 1000)) in
  let m := ms / (60 * 1000) in
  let ms := wrap (ms - wrap (wrap (m * 60) * 1000)) in
  let s := ms / 1000 in
  let ms := ms mod 1000 in
  (h, m, s, ms).

Definition pts2srt (pts : Z) : string :=
  let '(h, m, s, ms) := pts2srt_fields pts in
  snprintf 16
    (fmt_d 2 (as_int h) ++ ":" ++ fmt_d 2 (as_int m) ++ ":" ++
     fmt_d 2 (as_int s) ++ "," ++ fmt_d 3 (as_int ms))%string.

(** ** Data *)

(** [struct sub_text_t], lines 62-68.  [text] is a [char const *]: [None] is
    the null pointer. *)
Record sub_text_t := mk_sub_text {
  counter : Z;
  start_pts : Z;
  end_pts : Z;
  text : option string
}.

Definition set_end_pts (e : Z) (x : sub_text_t) : sub_text_t :=
  {| counter := counter x; start_pts := start_pts x; end_pts := e; text := text x |}.

Definition set_text (s : option string) (x : sub_text_t) : sub_text_t :=
  {| counter := counter x; start_pts := start_pts x; end_pts := end_pts x; text := s |}.

(** One round of the [while] loop of [main]: the packet's [timestamp] and what
    [spudec_get_data] returns once the packet is assembled.  [image_size] is
    the length of [image]. *)
Record packet := mk_packet {
  timestamp : Z;
  image : list Z;
  width : Z;
  height : Z;
  stride : Z;
  pk_start_pts : Z;
  pk_end_pts : Z
}.

(** The command line, as far as the loop uses it (lines 185-201). *)
Record options := mk_options {
  dump_images : bool;
  verb : bool;
  dumb : bool;
  min_width : Z;
  min_height : Z;
  max_threads : Z
}.

Definition default_options : options :=
  {| dump_images := false; verb := false; dumb := false;
     min_width := 9; min_height := 1; max_threads := 0 |}.

(** What the program prints on [cerr] and [cout] and the image files it dumps. *)
Inductive event :=
  | ErrOcrFailed (counter : Z)
  | OutText (counter : Z) (text : string)
  | WarnTooSmall (counter : Z) (image_size : nat) (width height : Z)
  | WarnTimestamp (counter timestamp start_pts : Z)
  | ErrInitFailed
  | DumpPgm (counter : Z) (image : list Z).

(** The arguments of one [do_ocr] call; [j_slot] stands for [&ocr_thread->done]. *)
Record job := mk_job {
  j_api : nat;
  j_slot : nat;
  j_counter : Z;
  j_width : Z;
  j_height : Z;
  j_stride : Z;
  j_image_cpy : list Z;
  j_start_pts : Z;
  j_end_pts : Z;
  j_verb : bool
}.

(** Where a [std::thread] running [do_ocr] stands: inside [TesseractRect]
    (line 157), before [push_back] (line 172), before [done->store] (line 174),
    or returned. *)
Inductive thread :=
  | Recognizing (j : job)
  | Appending (slot : nat) (r : sub_text_t)
  | Finishing (slot : nat)
  | Returned.

(** [struct ocr_thread_t], lines 177-182.  [t] points into the table of the
    threads created so far; the engine is named by its number. *)
Record ocr_thread_t := mk_ocr_thread {
  t : option nat;
  done : bool;
  tess_base_api : nat
}.

Definition set_done (b : bool) (s : ocr_thread_t) : ocr_thread_t :=
  {| t := t s; done := b; tess_base_api := tess_base_api s |}.

Definition set_t (tid : nat) (s : ocr_thread_t) : ocr_thread_t :=
  {| t := Some tid; done := done s; tess_base_api := tess_base_api s |}.

(** The variables of [main] that the loop changes, the thread objects it has
    created, and what has been written. *)
Record state := mk_state {
  threads : list ocr_thread_t;
  spawned : list thread;
  last_start_pts : Z;
  sub_counter : Z;
  conv_subs : list sub_text_t;
  events : list event;
  srtout : list string;
  stray_reads : list nat
}.

Definition initial : state :=
  {| threads := []; spawned := []; last_start_pts := 0; sub_counter := 1;
     conv_subs := []; events := []; srtout := []; stray_reads := [] |}.

Definition with_threads (v : list ocr_thread_t) (st : state) : state :=
  {| threads := v; spawned := spawned st; last_start_pts := last_start_pts st;
     sub_counter := sub_counter st; conv_subs := conv_subs st;
     events := events st; srtout := srtout st; stray_reads := stray_reads st |}.

Definition with_spawned (v : list thread) (st : state) : state :=
  {| threads := threads st; spawned := v; last_start_pts := last_start_pts st;
     sub_counter := sub_counter st; conv_subs := conv_subs st;
     events := events st; srtout := srtout st; stray_reads := stray_reads st |}.

Definition with_last_start_pts (v : Z) (st : state) : state :=
  {| threads := threads st; spawned := spawned st; last_start_pts := v;
     sub_counter := sub_counter st; conv_subs := conv_subs st;
     events := events st; srtout := srtout st; stray_reads := stray_reads st |}.

Definition with_sub_counter (v : Z) (st : state) : state :=
  {| threads := threads st; spawned := spawned st; last_start_pts := last_start_pts st;
     sub_counter := v; conv_subs := conv_subs st;
     events := events st; srtout := srtout st; stray_reads := stray_reads st |}.

Definition with_conv_subs (v : list sub_text_t) (st : state) : state :=
  {| threads := threads st; spawned := spawned st; last_start_pts := last_start_pts st;
     sub_counter := sub_counter st; conv_subs := v;
     events := events st; srtout := srtout st; stray_reads := stray_reads st |}.

Definition log (evs : list event) (st : state) : state :=
  {| threads := threads st; spawned := spawned st; last_start_pts := last_start_pts st;
     sub_counter := sub_counter st; conv_subs := conv_subs st;
     events := events st ++ evs; srtout := srtout st; stray_reads := stray_reads st |}.

Definition with_output (out : list string) (oob : list nat) (st : state) : state :=
  {| threads := threads st; spawned := spawned st; last_start_pts := last_start_pts st;
     sub_counter := sub_counter st; conv_subs := conv_subs st;
     events := events st; srtout := out; stray_reads := oob |}.

(** ** Pieces of the loop that need no environment *)

(** [struct ImageInverter], lines 50-59. *)
Definition invert_pixel (px : Z) : Z := if 255 - px >? 128 then 255 else 0.

Definition ImageInverter (image : list Z) : list Z := map invert_pixel image.

(** [isspace] in the C locale. *)
Definition isspace (c : ascii) : bool :=
  let n := nat_of_ascii c in
  (n =? 32)%nat || ((9 <=? n)%nat && (n <=? 13)%nat).

Fixpoint drop_space (l : list ascii) : list ascii :=
  match l with
  | c :: l' => if isspace c then drop_space l' else l
  | [] => []
  end.

(** Lines 163-166: trailing white space is overwritten with NUL. *)
Definition trim (s : string) : string :=
  string_of_list_ascii (rev (drop_space (rev (list_ascii_of_string s)))).

(** The comparison object [sort_fct], lines 442-446. *)
Definition sort_fct (a b : sub_text_t) : bool := counter a <? counter b.

(** [std::sort(first, last, comp)] is the library's.  Its contract: the result
    is a rearrangement of the input in which no element is [comp]-less than
    an element before it. *)
Definition sort_post {A} (comp : A -> A -> bool) (l out : list A) : Prop :=
  Permutation l out /\
  forall i j a b, (i < j)%nat -> out !! i = Some a -> out !! j = Some b -> comp b a = false.

(** An insertion sort stands for it here; it meets the contract for every
    strict weak order (see [sort_meets_contract]). *)
Fixpoint sort_insert {A} (comp : A -> A -> bool) (x : A) (l : list A) : list A :=
  match l with
  | [] => [x]
  | y :: l' => if comp x y then x :: l else y :: sort_insert comp x l'
  end.

Fixpoint sort {A} (comp : A -> A -> bool) (l : list A) : list A :=
  match l with
  | [] => []
  | x :: l' => sort_insert comp x (sort comp l')
  end.

(** [for (unsigned i = 0; i < n; ++i) body]. *)
Definition for_loop {S} (n : nat) (body : nat -> S -> S) (s : S) : S :=
  fold_left (fun s i => body i s) (seq 0 n) s.

(** ** The program *)

Section Program.

(** The command line. *)
Variable opts : options.

(** What the program gets from outside: *)
(** [thread::hardware_concurrency()]; *)
Variable hardware_concurrency : Z.
(** whether [TessBaseAPI::Init] succeeds for the engine number [k]; *)
Variable tess_Init : nat -> bool.
(** [TesseractRect(image_cpy, 1, stride, 0, 0, width, height)] on the engine
    number [api]: the text, or [None] for a null pointer; *)
Variable TesseractRect : nat -> list Z -> Z -> Z -> Z -> option string.
(** what [fprintf] writes for a null [%s] argument (glibc: [(null)]); *)
Variable null_text : string.
(** what lies in the storage of [conv_subs] behind its last element:
    [operator[]] checks no index, and [reserve(4096)] keeps room there. *)
Variable past_end : nat -> sub_text_t.

(** Line 330. *)
Definition pool_size : Z :=
  if max_threads opts <=? 0 then as_int (wrap hardware_concurrency)
  else max_threads opts.

(** *** [do_ocr], lines 151-175 *)

(** Lines 156-170: the recognition, the trimming and the messages. *)
Definition ocr_recognize (j : job) : option string * list event :=
  match TesseractRect (j_api j) (j_image_cpy j) (j_stride j) (j_width j) (j_height j) with
  | None => (None, [ErrOcrFailed (j_counter j)])
  | Some text =>
      let text := trim text in
      (Some text, if j_verb j then [OutText (j_counter j) text] else [])
  end.

Definition ocr_result (j : job) (text : option string) : sub_text_t :=
  mk_sub_text (j_counter j) (j_start_pts j) (j_end_pts j) text.

(** Lines 171-173: [push_back] under the mutex. *)
Definition ocr_push (r : sub_text_t) (st : state) : state :=
  with_conv_subs (conv_subs st ++ [r]) st.

(** Line 174: [done->store(true)]. *)
Definition ocr_store_done (slot : nat) (st : state) : state :=
  match threads st !! slot with
  | Some s => with_threads (<[slot := set_done true s]> (threads st)) st
  | None => st
  end.

(** The whole call, as the main thread runs it when [max_threads == 1]. *)
Definition do_ocr (j : job) (st : state) : state :=
  let '(text, evs) := ocr_recognize j in
  ocr_store_done (j_slot j) (ocr_push (ocr_result j text) (log evs st)).

(** One step of the thread number [tid]. *)
Definition thread_step (tid : nat) (st : state) : option state :=
  match spawned st !! tid with
  | Some (Recognizing j) =>
      let '(text, evs) := ocr_recognize j in
      Some (with_spawned (<[tid := Appending (j_slot j) (ocr_result j text)]> (spawned st))
              (log evs st))
  | Some (Appending slot r) =>
      Some (with_spawned (<[tid := Finishing slot]> (spawned st)) (ocr_push r st))
  | Some (Finishing slot) =>
      Some (with_spawned (<[tid := Returned]> (spawned st)) (ocr_store_done slot st))
  | Some Returned | None => None
  end.

(** *** The loop body up to the slot, lines 346-388 *)

(** [None]: the packet is dropped ([continue], or no time stamp).
    [Some image]: the frame goes on with its inverted image. *)
Definition frame_gate (st : state) (p : packet) : state * option (list Z) :=
  if timestamp p >=? 0 then
    if pk_start_pts p =? last_start_pts st then (st, None)
    else
      let st := with_last_start_pts (pk_start_pts p) st in
      if (width p <? as_unsigned (min_width opts)) ||
         (height p <? as_unsigned (min_height opts))
      then (log [WarnTooSmall (sub_counter st) (length (image p)) (width p) (height p)] st, None)
      else
        let st :=
          if verb opts && negb (as_unsigned (timestamp p) =? pk_start_pts p)
          then log [WarnTimestamp (sub_counter st) (timestamp p) (pk_start_pts p)] st
          else st in
        let image := ImageInverter (image p) in
        let st := if dump_images opts then log [DumpPgm (sub_counter st) image] st else st in
        (st, Some image)
  else (st, None).

(** *** A slot for the frame, lines 390-411 *)

Inductive acquired :=
  | Slot (i : nat) (st : state)
  | Fatal (st : state)
  | Poll
  | Undefined_slot.

(** [init_tesseract], lines 114-149, for the engine number [k]. *)
Definition init_tesseract (k : nat) : option nat :=
  if tess_Init k then Some k else None.

Fixpoint first_done (i : nat) (v : list ocr_thread_t) : option nat :=
  match v with
  | [] => None
  | s :: v' => if done s then Some i else first_done (S i) v'
  end.

Definition acquire (st : state) : acquired :=
  if Z.of_nat (length (threads st)) <? as_unsigned pool_size then
    match init_tesseract (length (threads st)) with
    | None => Fatal (log [ErrInitFailed] st)
    | Some api =>
        Slot (length (threads st))
             (with_threads (threads st ++ [mk_ocr_thread None false api]) st)
    end
  else if pool_size =? 1 then
    match threads st !! 0%nat with
    | Some _ => Slot 0 st
    | None => Undefined_slot
    end
  else
    match first_done 0 (threads st) with
    | None => Poll
    | Some i =>
        match threads st !! i ≫= t with
        | None => Undefined_slot
        | Some tid =>
            match spawned st !! tid with
            | Some Returned => Slot i st
            | Some _ => Poll
            | None => Undefined_slot
            end
        end
    end.

(** *** Starting the recognition, lines 413-428 *)

Definition dispatch (i : nat) (p : packet) (image : list Z) (st : state) : option state :=
  match threads st !! i with
  | None => None
  | Some s =>
      let j := mk_job (tess_base_api s) i (sub_counter st) (width p) (height p)
                 (stride p) image (pk_start_pts p) (pk_end_pts p) (verb opts) in
      let st :=
        if pool_size =? 1 then do_ocr j st
        else
          with_spawned (spawned st ++ [Recognizing j])
            (with_threads (<[i := set_t (length (spawned st)) (set_done false s)]> (threads st)) st) in
      Some (with_sub_counter (wrap (sub_counter st + 1)) st)
  end.

(** *** After the loop: sort, fix [end_pts], write; lines 442-460 *)

Definition nl : string := String (ascii_of_nat 10) EmptyString.

(** The [fprintf] of line 454. *)
Definition srt_record (x : sub_text_t) : string :=
  (fmt_u (counter x) ++ nl ++ pts2srt (start_pts x) ++ " --> " ++ pts2srt (end_pts x) ++ nl ++
   default null_text (text x) ++ nl ++ nl)%string.

(** [conv_subs[i]]: past the end, the read is noted and yields what lies there. *)
Definition read (v : list sub_text_t) (i : nat) (oob : list nat) : sub_text_t * list nat :=
  match v !! i with
  | Some x => (x, oob)
  | None => (past_end i, oob ++ [i])
  end.

Definition write_body (i : nat) (s : list sub_text_t * list string * list nat)
  : list sub_text_t * list string * list nat :=
  let '(v, out, oob) := s in
  let '(x, oob) := read v i oob in
  let '(x, oob) :=
    if (end_pts x =? UINT_MAX) || (dumb opts && (i + 1 <? length v)%nat)
    then let '(y, oob) := read v (i + 1) oob in (set_end_pts (start_pts y) x, oob)
    else (x, oob) in
  (<[i := set_text None x]> v, out ++ [srt_record x], oob).

Definition write_srt (subs : list sub_text_t) : list sub_text_t * list string * list nat :=
  for_loop (length subs) write_body (subs, [], []).

Definition reconcile (st : state) : state :=
  let '(v, out, oob) := write_srt (sort sort_fct (conv_subs st)) in
  with_output out oob (with_conv_subs v st).

(** *** The main thread and the threads it starts *)

(** The program runs as an interleaving of steps: one step of the main thread
    ([main_step]) or one step of a thread it has started ([thread_step]).  A
    thread's steps end where it meets the others: after the recognition and
    its messages, after [push_back] under the mutex, after the store to
    [done].  [main_step] is [None] where the main thread waits: in the
    polling loop of lines 400-410 while no flag is up, and in a [join] on a
    thread that has not returned. *)

(** Where the main thread stands: at the head of the [while] loop with the
    packets still to come; at line 390 with a frame that needs a slot; in
    the joining loop of line 432; returned from [main]; or stopped by a
    null or dangling pointer. *)
Inductive control :=
  | Reading (input : list packet)
  | Acquiring (p : packet) (image : list Z) (input : list packet)
  | Joining (i : nat)
  | Exited (code : Z)
  | Undefined.

Definition main_step (c : control) (st : state) : option (control * state) :=
  match c with
  | Reading [] => Some (Joining 0, st)
  | Reading (p :: input) =>
      match frame_gate st p with
      | (st, Some image) => Some (Acquiring p image input, st)
      | (st, None) => Some (Reading input, st)
      end
  | Acquiring p image input =>
      match acquire st with
      | Slot i st =>
          match dispatch i p image st with
          | Some st => Some (Reading input, st)
          | None => Some (Undefined, st)
          end
      | Fatal st => Some (Exited (-1), st)
      | Poll => None
      | Undefined_slot => Some (Undefined, st)
      end
  | Joining i =>
      match threads st !! i with
      | Some s =>
          match t s with
          | None => Some (Joining (S i), st)
          | Some tid =>
              match spawned st !! tid with
              | Some Returned => Some (Joining (S i), st)
              | Some _ => None
              | None => Some (Undefined, st)
              end
          end
      | None => Some (Exited 0, reconcile st)
      end
  | Exited _ | Undefined => None
  end.

Definition running (c : control) : bool :=
  match c with
  | Exited _ | Undefined => false
  | _ => true
  end.

(** Any thread may move while the process lives. *)
Inductive step : control * state -> control * state -> Prop :=
  | step_main c st c' st' :
      main_step c st = Some (c', st') -> step (c, st) (c', st')
  | step_thread c st tid st' :
      running c = true -> thread_step tid st = Some st' -> step (c, st) (c, st').

(** Lines 322-328: without the output file [main] returns 1 at once. *)
Definition start (srtout_opened : bool) (input : list packet) : control * state :=
  if srtout_opened then (Reading input, initial) else (Exited 1, initial).

Definition reachable (srtout_opened : bool) (input : list packet) (cs : control * state) : Prop :=
  rtc step (start srtout_opened input) cs.

(** The threads that have not returned yet, and those inside
    [TesseractRect], by their numbers. *)
Definition alive (th : thread) : bool :=
  match th with Returned => false | _ => true end.

Definition recognizing (th : thread) : bool :=
  match th with Recognizing _ => true | _ => false end.

Definition thread_is (f : thread -> bool) (st : state) (tid : nat) : bool :=
  match spawned st !! tid with
  | Some th => f th
  | None => false
  end.

Definition alive_tids (st : state) : list nat :=
  filter (fun tid => thread_is alive st tid = true) (seq 0 (length (spawned st))).

Definition recognizing_tids (st : state) : list nat :=
  filter (fun tid => thread_is recognizing st tid = true) (seq 0 (length (spawned st))).

(** The slot a thread reports to. *)
Definition slot_of (th : thread) : option nat :=
  match th with
  | Recognizing j => Some (j_slot j)
  | Appending slot _ => Some slot
  | Finishing slot => Some slot
  | Returned => None
  end.

(** The main thread alone, as long as it can move (used to run examples). *)
Fixpoint run_main (fuel : nat) (c : control) (st : state) : control * state :=
  match fuel with
  | O => (c, st)
  | S fuel' =>
      match main_step c st with
      | Some (c', st') => run_main fuel' c' st'
      | None => (c, st)
      end
  end.

End Program.

(** *** [dump_pgm], lines 92-105 *)

Section Dump.

(** What lies in memory behind the image: [fwrite] checks no bound. *)
Variable beyond : nat -> Z.

(** The file as it is written: its name, the header and the rows. *)
Record pgm := mk_pgm {
  pgm_path : string;
  pgm_header : string;
  pgm_rows : list (list Z)
}.

(** [%0<w>u]: an unsigned number padded with zeros to at least [w] digits. *)
Definition fmt_0u (w : nat) (v : Z) : string :=
  let d := decimal v in
  (zeros (w - String.length d) ++ d)%string.

(** Line 96: [snprintf(buf, sizeof(buf), "%s-%04u.pgm", ...)]. *)
Definition pgm_filename (filename : string) (counter : Z) : string :=
  snprintf 500 (filename ++ "-" ++ fmt_0u 4 counter ++ ".pgm").

(** Line 99: the header. *)
Definition pgm_head (width height : Z) : string :=
  ("P5" ++ nl ++ fmt_u width ++ " " ++ fmt_u height ++ " " ++ fmt_u 255 ++ nl)%string.

(** [fwrite(image + i, 1, width, pgm)]. *)
Definition fwrite_row (image : list Z) (i width : Z) : list Z :=
  map (fun k => default (beyond k) (image !! k)) (seq (Z.to_nat i) (Z.to_nat width)).

(** The loop of lines 100-102: [i] is an [unsigned], [image_size] a [size_t].
    [None]: the loop is still running when [fuel] rounds are over. *)
Fixpoint dump_rows (fuel : nat) (image : list Z) (width stride i : Z)
  : option (list (list Z)) :=
  match fuel with
  | O => None
  | S fuel' =>
      if i <? Z.of_nat (length image) then
        match dump_rows fuel' image width stride (wrap (i + stride)) with
        | Some rows => Some (fwrite_row image i width :: rows)
        | None => None
        end
      else Some []
  end.

(** [Some None]: the file could not be opened and nothing is written. *)
Definition dump_pgm (fopen_ok : bool) (fuel : nat) (filename : string)
    (counter width height stride : Z) (image : list Z) : option (option pgm) :=
  if fopen_ok then
    match dump_rows fuel image width stride 0 with
    | Some rows =>
        Some (Some (mk_pgm (pgm_filename filename counter) (pgm_head width height) rows))
    | None => None
    end
  else Some None.

End Dump.

(** *** The stream and the OCR language, lines 280-320 of [main] *)

Section Language.

(** From the decoder: [vobsub_get_indexes_count(vob)], the return value of
    [vobsub_set_from_lang(vob, lang)] (which selects the stream itself),
    [vobsub_get_id(vob, i)], and the table [iso639_1_to_639_3]. *)
Variable vobsub_get_indexes_count : Z.
Variable vobsub_set_from_lang : string -> Z.
Variable vobsub_get_id : Z -> option string.
Variable iso639_1_to_639_3 : string -> option string.

(** [s.empty()] *)
Definition string_empty (s : string) : bool :=
  match s with EmptyString => true | _ => false end.

(** The messages on [cerr]. *)
Inductive language_msg :=
  | BothLangAndIndex
  | NoMatchingLanguage (lang : string)
  | IndexOutOfRange (index count : Z).

(** How [main] goes on: it returns [code], or it has [tess_lang] and the
    global [vobsub_id] ([None]: as [vobsub_set_from_lang] left it). *)
Inductive language_choice :=
  | Return (code : Z) (err : list language_msg)
  | Goes_on (tess_lang : string) (vobsub_id : option Z) (err : list language_msg).

Definition select_language (lang : string) (index : Z) (tess_lang_user : string)
    (vobsub_id : Z) : language_choice :=
  if negb (string_empty lang) && (index >=? 0) then Return 1 [BothLangAndIndex]
  else
    let tess_lang := if string_empty tess_lang_user then "eng"%string else tess_lang_user in
    if negb (string_empty lang) then
      if vobsub_set_from_lang lang <? 0 then
        Goes_on tess_lang None [NoMatchingLanguage lang]
      else if string_empty tess_lang_user then
        match iso639_1_to_639_3 lang with
        | Some lang3 => Goes_on lang3 None []
        | None => Goes_on tess_lang None []
        end
      else Goes_on tess_lang None []
    else
      if (index >=? 0) && (as_unsigned index >=? vobsub_get_indexes_count) then
        Return 1 [IndexOutOfRange index vobsub_get_indexes_count]
      else
        let vobsub_id := if index >=? 0 then index else vobsub_id in
        if vobsub_id >=? 0 then
          match vobsub_get_id vobsub_id with
          | Some lang1 =>
              if string_empty tess_lang_user then
                match iso639_1_to_639_3 lang1 with
                | Some lang3 => Goes_on lang3 (Some vobsub_id) []
                | None => Goes_on tess_lang (Some vobsub_id) []
                end
              else Goes_on tess_lang (Some vobsub_id) []
          | None => Goes_on tess_lang (Some vobsub_id) []
          end
        else Goes_on tess_lang (Some vobsub_id) [].

End Language.

End vobsub2srt.

Import vobsub2srt.

(** ** Vocabulary of the properties *)

(** Linear arithmetic with division and remainder by constants. *)
Ltac divlia := Z.to_euclidean_division_equations; lia.

(** A field below [bound] comes out as exactly [w] digits that read back as
    the field; checked by running the formatter on the whole range. *)
Definition field_ok (w : nat) (v : Z) : bool :=
  (String.length (fmt_d w v) =? w)%nat &&
  match dec_value (fmt_d w v) with Some v' => v' =? v | None => false end.

(** [a] may stand before [b] in the outcome of a sort by [comp]. *)
Definition not_after {A : Type} (comp : A -> A -> bool) (a b : A) : Prop := comp b a = false.

Definition counter_lt (a b : sub_text_t) : Prop := counter a < counter b.

(** The packets still to come. *)
Definition pending (c : control) : nat :=
  match c with
  | Reading input => length input
  | Acquiring _ _ input => length input
  | _ => 0
  end.

Section Vocabulary.

Variable opts : options.
Variable hardware_concurrency : Z.
Variable null_text : string.
Variable past_end : nat -> sub_text_t.

(** Whether line 452 runs for the element [x] at index [i] of [subs]. *)
Definition fixes_end (subs : list sub_text_t) (i : nat) (x : sub_text_t) : bool :=
  (end_pts x =? UINT_MAX) || (dumb opts && (i + 1 <? length subs)%nat).

(** What the loop makes of the element [x] at index [i]. *)
Definition fixed (subs : list sub_text_t) (i : nat) (x : sub_text_t) : sub_text_t :=
  if fixes_end subs i x
  then set_end_pts (start_pts (default (past_end (i + 1)) (subs !! (i + 1)%nat))) x
  else x.

(** The indices read past the end after [k] rounds. *)
Definition strays (subs : list sub_text_t) (k : nat) : list nat :=
  match last subs with
  | Some x =>
      if (k =? length subs)%nat && (end_pts x =? UINT_MAX) then [length subs] else []
  | None => []
  end.

Definition loop_inv (subs : list sub_text_t) (k : nat)
    (s : list sub_text_t * list string * list nat) : Prop :=
  let '(v, out, oob) := s in
  length v = length subs /\
  length out = k /\
  (forall i x, subs !! i = Some x ->
     v !! i = Some (if (i <? k)%nat then set_text None (fixed subs i x) else x)) /\
  (forall i x, (i < k)%nat -> subs !! i = Some x ->
     out !! i = Some (srt_record null_text (fixed subs i x))) /\
  oob = strays subs k.

(** The size test of lines 363-364. *)
Definition too_small (p : packet) : bool :=
  (width p <? as_unsigned (min_width opts)) || (height p <? as_unsigned (min_height opts)).

(** What holds of the slots and the threads all along: there are at most [N]
    slots; with one slot no thread is ever created; every thread that has
    not returned belongs to one slot, which points to it and has its flag
    down; and with more slots every slot points to a thread, which has
    returned once the flag is up. *)
Definition pool_inv (st : state) : Prop :=
  Z.of_nat (length (threads st)) <= pool_size opts hardware_concurrency /\
  (pool_size opts hardware_concurrency = 1 ->
     spawned st = [] /\ forall i s, threads st !! i = Some s -> t s = None) /\
  (forall tid th, spawned st !! tid = Some th -> alive th = true ->
     exists i s, slot_of th = Some i /\ threads st !! i = Some s /\
                 t s = Some tid /\ done s = false) /\
  (pool_size opts hardware_concurrency <> 1 -> forall i s, threads st !! i = Some s ->
     exists tid, t s = Some tid /\ (tid < length (spawned st))%nat /\
                 (done s = true -> spawned st !! tid = Some Returned)).

(** The [do_ocr] arguments of lines 417-425 for the slot [i]. *)
Definition new_job (s : ocr_thread_t) (i : nat) (p : packet) (image : list Z) (st : state) : job :=
  mk_job (tess_base_api s) i (sub_counter st) (width p) (height p) (stride p) image
    (pk_start_pts p) (pk_end_pts p) (verb opts).

End Vocabulary.

(** ** Vocabulary of the further properties *)

(** Reading [HH:MM:SS,mmm] back as whole milliseconds. *)
Definition srt2ms (s : string) : option Z :=
  match dec_value (substring 0 2 s), dec_value (substring 3 2 s),
        dec_value (substring 6 2 s), dec_value (substring 9 3 s) with
  | Some h, Some m, Some sec, Some ms =>
      if (String.length s =? 12)%nat && String.eqb (substring 2 1 s) ":" &&
         String.eqb (substring 5 1 s) ":" && String.eqb (substring 8 1 s) ","
      then Some (h * 3600000 + m * 60000 + sec * 1000 + ms)
      else None
  | _, _, _, _ => None
  end.

(** A string that [dec_value_from] reads as [len] digits worth [m]. *)
Definition reads_as (s : string) (len : nat) (m : Z) : Prop :=
  forall a, dec_value_from a s = Some (a * 10 ^ Z.of_nat len + m).

(** Strings of decimal digits. *)
Definition is_digit (c : ascii) : Prop := is_Some (digit_value c).

Fixpoint all_digits (s : string) : Prop :=
  match s with
  | EmptyString => True
  | String c s' => is_digit c /\ all_digits s'
  end.

(** A string as the list of its characters. *)
Definition chars (s : string) : list ascii := list_ascii_of_string s.

(** The counter a thread still holds: the one of its job, until the result is
    in [conv_subs]. *)
Definition in_flight (th : thread) : list Z :=
  match th with
  | Recognizing j => [j_counter j]
  | Appending _ r => [counter r]
  | Finishing _ | Returned => []
  end.

(** The counters given out so far: those of the results and those in flight. *)
Definition issued (st : state) : list Z :=
  map counter (conv_subs st) ++ concat (map in_flight (spawned st)).

(** The frames the main thread has still to deal with. *)
Definition todo (c : control) : nat :=
  match c with
  | Reading input => length input
  | Acquiring _ _ input => S (length input)
  | _ => 0
  end.

(** The counters 1, ..., [n]. *)
Definition first_counters (n : nat) : list Z := map Z.of_nat (seq 1 n).

(** After [n] frames handed out, [sub_counter] is [n + 1] and the counters
    given out are 1, ..., [n], each once. *)
Definition counters_inv (packets : list packet) (cs : control * state) : Prop :=
  exists n : nat,
    sub_counter cs.2 = Z.of_nat (S n) /\
    (n + todo cs.1 <= length packets)%nat /\
    issued cs.2 ≡ₚ first_counters n.

(** The slots below [i] have been joined. *)
Definition joined (i : nat) (st : state) : Prop :=
  forall k s tid, (k < i)%nat -> threads st !! k = Some s -> t s = Some tid ->
    spawned st !! tid = Some Returned.

(** The joining loop has joined the slots it has passed. *)
Definition drain_inv (cs : control * state) : Prop :=
  (forall i, cs.1 = Joining i -> joined i cs.2) /\
  (cs.1 = Exited 0 -> joined (length (threads cs.2)) cs.2).

Section Outcome.

Variable opts : options.
Variable TesseractRect : nat -> list Z -> Z -> Z -> Z -> option string.

(** The frames that pass the tests of lines 346-370, in the order of the
    packets, each with its inverted image. *)
Fixpoint frames (st : state) (input : list packet) : list (packet * list Z) :=
  match input with
  | [] => []
  | p :: input =>
      match frame_gate opts st p with
      | (st', Some image) => (p, image) :: frames st' input
      | (st', None) => frames st' input
      end
  end.

(** What [do_ocr] makes of the frame number [k] (from 0) on the first engine. *)
Definition result (k : nat) (f : packet * list Z) : sub_text_t :=
  let j := mk_job 0 0 (Z.of_nat k + 1) (width f.1) (height f.1) (stride f.1) f.2
             (pk_start_pts f.1) (pk_end_pts f.1) (verb opts) in
  ocr_result j (ocr_recognize TesseractRect j).1.

(** The results of a whole input, in the order of the packets. *)
Definition results (input : list packet) : list sub_text_t :=
  imap result (frames initial input).

(** The result a thread has still to append. *)
Definition owed (th : thread) : list sub_text_t :=
  match th with
  | Recognizing j => [ocr_result j (ocr_recognize TesseractRect j).1]
  | Appending _ r => [r]
  | Finishing _ | Returned => []
  end.

(** The results made or on their way. *)
Definition produced (st : state) : list sub_text_t :=
  conv_subs st ++ concat (map owed (spawned st)).

(** The frames the loop has still to hand out. *)
Definition rest (c : control) (st : state) : option (list (packet * list Z)) :=
  match c with
  | Reading input => Some (frames st input)
  | Acquiring p image input => Some ((p, image) :: frames st input)
  | Joining _ => Some []
  | Exited _ | Undefined => None
  end.

(** A result with its text ([keep]) or without: number and times only. *)
Definition blur (keep : bool) (x : sub_text_t) : sub_text_t :=
  if keep then x else set_text None x.

(** After [n] frames handed out, the results made or on their way are those
    of the first [n] accepted frames, and the frames still to come are the
    accepted frames from the number [n] on. *)
Definition outcome_inv (keep : bool) (packets : list packet) (cs : control * state) : Prop :=
  cs.1 <> Exited 0 ->
  exists n : nat,
    sub_counter cs.2 = Z.of_nat n + 1 /\
    (n <= length (frames initial packets))%nat /\
    map (blur keep) (produced cs.2) ≡ₚ take n (map (blur keep) (results packets)) /\
    forall r, rest cs.1 cs.2 = Some r -> drop n (frames initial packets) = r.

End Outcome.

Section Sched.

Variable opts : options.
Variable hardware_concurrency : Z.
Variable tess_Init : nat -> bool.
Variable TesseractRect : nat -> list Z -> Z -> Z -> Z -> option string.
Variable null_text : string.
Variable past_end : nat -> sub_text_t.

(** A run under a given schedule: [None] lets the main thread move, [Some tid]
    the thread [tid]; who cannot move is passed over. *)
Fixpoint run_schedule (sched : list (option nat)) (cs : control * state) : control * state :=
  match sched with
  | [] => cs
  | None :: sched' =>
      match main_step opts hardware_concurrency tess_Init TesseractRect null_text past_end
              cs.1 cs.2 with
      | Some cs' => run_schedule sched' cs'
      | None => run_schedule sched' cs
      end
  | Some tid :: sched' =>
      if running cs.1 then
        match thread_step TesseractRect tid cs.2 with
        | Some st' => run_schedule sched' (cs.1, st')
        | None => run_schedule sched' cs
        end
      else run_schedule sched' cs
  end.

End Sched.

(** The row number [r] of a picture kept with [stride] bytes a row. *)
Definition visible_row (image : list Z) (width stride : Z) (r : nat) : list Z :=
  take (Z.to_nat width) (drop (r * Z.to_nat stride) image).

(** The counters of the frames reported as failed on [cerr]. *)
Definition failures (evs : list event) : list Z :=
  omap (fun e => match e with ErrOcrFailed c => Some c | _ => None end) evs.

(** The results without a text, and their counters. *)
Definition no_text (r : sub_text_t) : bool :=
  match text r with None => true | Some _ => false end.

Definition unread (l : list sub_text_t) : list Z :=
  map counter (List.filter no_text l).

(** The result a thread has made and not yet appended. *)
Definition made (th : thread) : list sub_text_t :=
  match th with
  | Appending _ r => [r]
  | _ => []
  end.

(** The results made: appended already, or about to be. *)
Definition settled (st : state) : list sub_text_t :=
  conv_subs st ++ concat (map made (spawned st)).

(** Each failure is reported once, when the result is made. *)
Definition reports_inv (st : state) : Prop :=
  failures (events st) ≡ₚ unread (settled st).

(** ** Vocabulary of the runs *)

(** A slot whose flag is down has a thread that has not returned and that
    reports to this slot. *)
Definition flags_inv (st : state) : Prop :=
  forall i s tid, threads st !! i = Some s -> t s = Some tid -> done s = false ->
    exists th, spawned st !! tid = Some th /\ alive th = true /\ slot_of th = Some i.

(** The null result of the job [j] is in [conv_subs], or a thread is about
    to make or to append it. *)
Definition held (j : job) (st : state) : Prop :=
  ocr_result j None ∈ conv_subs st \/
  exists tid, spawned st !! tid = Some (Recognizing j) \/
              spawned st !! tid = Some (Appending (j_slot j) (ocr_result j None)).

(** The moves a thread has still to make. *)
Definition moves_left (th : thread) : nat :=
  match th with
  | Recognizing _ => 3
  | Appending _ _ => 2
  | Finishing _ => 1
  | Returned => 0
  end.

(** A bound on the moves the program can still make: six for a packet still
    to be read (two of the main thread, one for a new slot, three of a
    thread), one for each slot to join, two to get into the joining loop and
    out of it. *)
Definition fuel_left (cs : control * state) : nat :=
  let pool := (length (threads cs.2) + list_sum (map moves_left (spawned cs.2)))%nat in
  match cs.1 with
  | Reading input => 6 * length input + 2 + pool
  | Acquiring _ _ input => 6 * length input + 7 + pool
  | Joining i => S (length (threads cs.2) - i) + list_sum (map moves_left (spawned cs.2))
  | Exited _ | Undefined => 0
  end.

(** ** Inputs for concrete runs *)

Module Examples.

Definition engine_ok (k : nat) : bool := true.
Definition engine_broken (k : nat) : bool := false.

(** An engine that reads nothing from images ten pixels wide. *)
Definition ocr (api : nat) (image : list Z) (stride width height : Z) : option string :=
  if width =? 10 then None else Some "Hello  "%string.
Definition ocr_blind (api : nat) (image : list Z) (stride width height : Z) : option string :=
  None.

Definition zeroed (i : nat) : sub_text_t := mk_sub_text 0 0 0 None.

Definition one_slot : options := mk_options false false false 9 1 1.
Definition two_slots : options := mk_options false false false 9 1 2.

Definition frame (timestamp width start_pts end_pts : Z) : packet :=
  mk_packet timestamp [0; 200; 255] width 5 width start_pts end_pts.

Definition run (opts : options) (init : nat -> bool) (fuel : nat) (input : list packet)
  : control * state :=
  run_main opts 4 init ocr "(null)"%string zeroed fuel (Reading input) initial.

(** Two slots, both busy, and a third frame at line 390. *)
Definition saturated : control * state :=
  Eval vm_compute in
    run two_slots engine_ok 5
      [frame 0 20 9000 18000; frame 1 20 18000 27000; frame 2 20 27000 36000].

(** Three frames for two slots; the second one is not recognized. *)
Definition three_frames : list packet :=
  [frame 0 20 9000 18000; frame 1 10 18000 UINT_MAX; frame 2 20 27000 36000].

(** A schedule under which the thread of the second frame is through long
    before the thread of the first one. *)
Definition late_first : list (option nat) :=
  [None; None; None; None; None;
   Some 1%nat; Some 1%nat; Some 1%nat;
   None; None;
   Some 2%nat; Some 2%nat; Some 2%nat;
   Some 0%nat; Some 0%nat; Some 0%nat;
   None; None; None; None].

Definition shuffled : control * state :=
  Eval vm_compute in
    run_schedule two_slots 4 engine_ok ocr "(null)"%string zeroed late_first
      (Reading three_frames, initial).

(** The same run after 14 moves: results 2 and 3 are in, the first thread
    still holds result 1. *)
Definition overtaken : control * state :=
  Eval vm_compute in
    run_schedule two_slots 4 engine_ok ocr "(null)"%string zeroed (take 14 late_first)
      (Reading three_frames, initial).

(** One slot, after the first two frames. *)
Definition halfway : control * state :=
  Eval vm_compute in run one_slot engine_ok 4 three_frames.

(** [--max-threads 0] on a machine that does not tell its number of cores. *)
Definition no_slots : options := mk_options false false false 9 1 0.

(** The same run after 5 moves: both slots are busy, the third frame is at
    line 390, and the second thread is about to recognize the second frame. *)
Definition both_busy : control * state :=
  Eval vm_compute in
    run_schedule two_slots 4 engine_ok ocr "(null)"%string zeroed (take 5 late_first)
      (Reading three_frames, initial).

(** The job of the second frame of [three_frames] on the second slot. *)
Definition second_job : job := mk_job 1 1 2 10 5 10 [255; 0; 0] 18000 UINT_MAX false.

(** Nothing but zeros behind a picture. *)
Definition zeroed_bytes (k : nat) : Z := 0.

End Examples.

Import Examples.

(** * Properties *)

(** ** Machine integers and printf *)

Lemma wrap_small z : 0 <= z <= UINT_MAX -> wrap z = z.
Proof. unfold wrap, UINT_MAX. intros H. apply Z.mod_small. lia. Qed.

Lemma wrap_range z : is_unsigned (wrap z).
Proof.
  unfold is_unsigned, wrap, UINT_MAX.
  pose proof (Z.mod_pos_bound z 4294967296). lia.
Qed.

Lemma as_int_small z : 0 <= z < 2147483648 -> as_int z = z.
Proof. unfold as_int. intros H. destruct (Z.ltb_spec z 2147483648); lia. Qed.

Lemma string_length_app (a b : string) :
  String.length (a ++ b) = (String.length a + String.length b)%nat.
Proof. induction a as [|c a IH]; simpl; [reflexivity | now rewrite IH]. Qed.

Lemma substring_whole (n : nat) (s : string) :
  (String.length s <= n)%nat -> substring 0 n s = s.
Proof.
  revert n. induction s as [|c s IH]; intros [|n] H; simpl in *; try reflexivity; try lia.
  f_equal. apply IH. lia.
Qed.

Lemma zeros_length k : String.length (zeros k) = k.
Proof. induction k; simpl; congruence. Qed.

(** Zero padding never yields fewer than [w] characters. *)
Lemma fmt_d_min_width w v : 0 <= v -> (w <= String.length (fmt_d w v))%nat.
Proof.
  intros Hv. unfold fmt_d. destruct (Z.ltb_spec v 0); [lia|].
  rewrite string_length_app, zeros_length. lia.
Qed.

Lemma field_ok_range (w bound : nat) :
  forallb (fun n => field_ok w (Z.of_nat n)) (seq 0 bound) = true ->
  forall v, 0 <= v < Z.of_nat bound ->
    String.length (fmt_d w v) = w /\ dec_value (fmt_d w v) = Some v.
Proof.
  intros Hall v Hv. rewrite forallb_forall in Hall.
  specialize (Hall (Z.to_nat v)). rewrite Z2Nat.id in Hall by lia.
  assert (Hin : In (Z.to_nat v) (seq 0 bound)) by (apply in_seq; lia).
  apply Hall in Hin. unfold field_ok in Hin.
  apply andb_prop in Hin as [Hlen Hval]. split.
  - now apply Nat.eqb_eq.
  - destruct (dec_value (fmt_d w v)) as [v'|]; [|discriminate].
    apply Z.eqb_eq in Hval. now subst.
Qed.

Lemma two_digits v :
  0 <= v < 60 -> String.length (fmt_d 2 v) = 2%nat /\ dec_value (fmt_d 2 v) = Some v.
Proof. apply (field_ok_range 2 60). vm_compute. reflexivity. Qed.

Lemma three_digits v :
  0 <= v < 1000 -> String.length (fmt_d 3 v) = 3%nat /\ dec_value (fmt_d 3 v) = Some v.
Proof. apply (field_ok_range 3 1000). vm_compute. reflexivity. Qed.

(** ** [pts2srt] *)

Example pts2srt_max : pts2srt UINT_MAX = "13:15:21,858"%string.
Proof. reflexivity. Qed.

(** [%02d] pads, it does not cut: a longer number keeps all its digits. *)
Example fmt_d_grows :
  fmt_d 2 7 = "07"%string /\ fmt_d 2 123 = "123"%string /\ fmt_d 3 (-5) = "-05"%string.
Proof. repeat split. Qed.

(** The subtractions of lines 79 and 81 never wrap, and the fields are the
    usual ones. *)
Lemma pts2srt_fields_spec pts :
  is_unsigned pts ->
  pts2srt_fields pts =
    (pts / 90 / 3600000, pts / 90 mod 3600000 / 60000,
     pts / 90 mod 60000 / 1000, pts / 90 mod 1000).
Proof.
  unfold is_unsigned, UINT_MAX. intros Hp.
  cbv beta zeta delta [pts2srt_fields].
  change (3600 * 1000) with 3600000. change (60 * 1000) with 60000.
  assert (Hms : 0 <= pts / 90 <= 47721858) by divlia.
  set (ms := pts / 90) in *. clearbody ms.
  assert (Hh : 0 <= ms / 3600000 <= 13) by divlia.
  rewrite (wrap_small (ms / 3600000 * 3600)) by (unfold UINT_MAX; divlia).
  rewrite (wrap_small (ms / 3600000 * 3600 * 1000)) by (unfold UINT_MAX; divlia).
  replace (ms - ms / 3600000 * 3600 * 1000) with (ms mod 3600000) by divlia.
  rewrite (wrap_small (ms mod 3600000)) by (unfold UINT_MAX; divlia).
  set (r := ms mod 3600000).
  assert (Hr : 0 <= r < 3600000) by (unfold r; divlia).
  rewrite (wrap_small (r / 60000 * 60)) by (unfold UINT_MAX; divlia).
  rewrite (wrap_small (r / 60000 * 60 * 1000)) by (unfold UINT_MAX; divlia).
  replace (r - r / 60000 * 60 * 1000) with (r mod 60000) by divlia.
  rewrite (wrap_small (r mod 60000)) by (unfold UINT_MAX; divlia).
  assert (Er : r mod 60000 = ms mod 60000) by (unfold r; divlia).
  assert (Es : (r mod 60000) mod 1000 = ms mod 1000) by (unfold r; divlia).
  rewrite Es, Er. reflexivity.
Qed.

(** C2.  For every [unsigned] time stamp [pts] (in 1/90 ms), [pts2srt] splits
    the whole milliseconds [pts / 90] into hours, minutes, seconds and
    milliseconds that add up to it again, with minutes and seconds below 60
    and milliseconds below 1000, and writes them as [HH:MM:SS,mmm]: minutes
    and seconds with exactly two digits, milliseconds with exactly three,
    hours with at least two; each field reads back as its number.  The text
    for 9000 is [00:00:00,100]. *)
Theorem pts2srt_decomposes (pts : Z) :
  is_unsigned pts ->
  exists h m s ms,
    pts2srt_fields pts = (h, m, s, ms) /\
    h * 3600000 + m * 60000 + s * 1000 + ms = pts / 90 /\
    0 <= h /\ 0 <= m < 60 /\ 0 <= s < 60 /\ 0 <= ms < 1000 /\
    pts2srt pts =
      (fmt_d 2 h ++ ":" ++ fmt_d 2 m ++ ":" ++ fmt_d 2 s ++ "," ++ fmt_d 3 ms)%string /\
    (2 <= String.length (fmt_d 2 h))%nat /\
    String.length (fmt_d 2 m) = 2%nat /\
    String.length (fmt_d 2 s) = 2%nat /\
    String.length (fmt_d 3 ms) = 3%nat /\
    dec_value (fmt_d 2 h) = Some h /\ dec_value (fmt_d 2 m) = Some m /\
    dec_value (fmt_d 2 s) = Some s /\ dec_value (fmt_d 3 ms) = Some ms /\
    pts2srt 9000 = "00:00:00,100"%string.
Proof.
  intros Hp. pose proof (pts2srt_fields_spec pts Hp) as Hf.
  unfold is_unsigned, UINT_MAX in Hp.
  set (total := pts / 90) in *.
  assert (Ht : 0 <= total <= 47721858) by (unfold total; divlia).
  clearbody total.
  exists (total / 3600000), (total mod 3600000 / 60000),
         (total mod 60000 / 1000), (total mod 1000).
  assert (Hh : 0 <= total / 3600000 < 60) by divlia.
  assert (Hm : 0 <= total mod 3600000 / 60000 < 60) by divlia.
  assert (Hs : 0 <= total mod 60000 / 1000 < 60) by divlia.
  assert (Hms : 0 <= total mod 1000 < 1000) by divlia.
  destruct (two_digits _ Hh) as [Lh Vh], (two_digits _ Hm) as [Lm Vm],
    (two_digits _ Hs) as [Ls Vs], (three_digits _ Hms) as [Lms Vms].
  split; [exact Hf|]. split; [divlia|].
  split; [lia|]. split; [exact Hm|]. split; [exact Hs|]. split; [exact Hms|].
  split.
  - unfold pts2srt. rewrite Hf. unfold snprintf.
    rewrite !as_int_small by lia.
    apply substring_whole.
    rewrite !string_length_app, Lh, Lm, Ls, Lms. simpl. lia.
  - rewrite Lh. repeat split; auto.
Qed.

Lemma pts2srt_decomposes_witness :
  exists h m s ms,
    pts2srt_fields 9000 = (h, m, s, ms) /\
    h * 3600000 + m * 60000 + s * 1000 + ms = 9000 / 90 /\
    0 <= h /\ 0 <= m < 60 /\ 0 <= s < 60 /\ 0 <= ms < 1000 /\
    pts2srt 9000 =
      (fmt_d 2 h ++ ":" ++ fmt_d 2 m ++ ":" ++ fmt_d 2 s ++ "," ++ fmt_d 3 ms)%string /\
    (2 <= String.length (fmt_d 2 h))%nat /\
    String.length (fmt_d 2 m) = 2%nat /\
    String.length (fmt_d 2 s) = 2%nat /\
    String.length (fmt_d 3 ms) = 3%nat /\
    dec_value (fmt_d 2 h) = Some h /\ dec_value (fmt_d 2 m) = Some m /\
    dec_value (fmt_d 2 s) = Some s /\ dec_value (fmt_d 3 ms) = Some ms /\
    pts2srt 9000 = "00:00:00,100"%string.
Proof. apply (pts2srt_decomposes 9000). unfold is_unsigned, UINT_MAX. lia. Defined.

(** ** The sort by counter *)

Section Sorting.

Context {A : Type} (comp : A -> A -> bool).

Local Abbreviation not_after := (not_after comp).

Lemma sort_insert_perm x l : Permutation (x :: l) (sort_insert comp x l).
Proof.
  induction l as [|y l IH]; simpl; [reflexivity|].
  destruct (comp x y); [reflexivity|].
  rewrite <- IH. apply perm_swap.
Qed.

Lemma sort_perm l : Permutation l (sort comp l).
Proof.
  induction l as [|x l IH]; simpl; [reflexivity|].
  rewrite <- sort_insert_perm. now constructor.
Qed.

Hypothesis comp_asym : forall a b, comp a b = true -> comp b a = false.
Hypothesis comp_trans : forall a b c, comp a b = true -> comp b c = true -> comp a c = true.

Lemma sort_insert_sorted x l :
  StronglySorted not_after l -> StronglySorted not_after (sort_insert comp x l).
Proof.
  induction 1 as [|y l Hs IH Hy]; simpl.
  - repeat constructor.
  - destruct (comp x y) eqn:Hxy.
    + constructor; [now constructor|].
      constructor; [now apply comp_asym|].
      eapply Forall_impl; [exact Hy|]. intros z Hz. unfold not_after in *.
      destruct (comp z x) eqn:Hzx; [|reflexivity].
      rewrite (comp_trans z x y Hzx Hxy) in Hz. discriminate.
    + constructor; [exact IH|].
      rewrite <- (sort_insert_perm x l). now constructor.
Qed.

Lemma sort_sorted l : StronglySorted not_after (sort comp l).
Proof.
  induction l as [|x l IH]; simpl; [constructor|].
  now apply sort_insert_sorted.
Qed.

End Sorting.

Lemma StronglySorted_lookup {A} (R : A -> A -> Prop) (l : list A) :
  StronglySorted R l <->
  forall i j a b, (i < j)%nat -> l !! i = Some a -> l !! j = Some b -> R a b.
Proof.
  split.
  - induction 1 as [|x l Hs IH Hx]; intros i j a b Hij Hi Hj.
    + now rewrite lookup_nil in Hi.
    + destruct j as [|j]; [lia|]. destruct i as [|i]; simpl in *.
      * injection Hi as <-. rewrite Forall_forall in Hx. apply Hx.
        eapply list_elem_of_lookup_2; eauto.
      * apply (IH i j); auto. lia.
  - induction l as [|x l IH]; intros H; constructor.
    + apply IH. intros i j a b Hij Hi Hj. apply (H (S i) (S j)); auto. lia.
    + apply Forall_forall. intros y Hy.
      apply list_elem_of_lookup_1 in Hy as [j Hj].
      apply (H 0%nat (S j)); auto. lia.
Qed.

(** The insertion sort meets the contract of [std::sort]. *)
Lemma sort_meets_contract {A} (comp : A -> A -> bool) (l : list A) :
  (forall a b, comp a b = true -> comp b a = false) ->
  (forall a b c, comp a b = true -> comp b c = true -> comp a c = true) ->
  sort_post comp l (sort comp l).
Proof.
  intros Hasym Htrans. split; [apply sort_perm|].
  apply (StronglySorted_lookup (not_after comp)).
  now apply sort_sorted.
Qed.

Lemma sort_fct_asym a b : sort_fct a b = true -> sort_fct b a = false.
Proof. unfold sort_fct. intros H. apply Z.ltb_lt in H. apply Z.ltb_ge. lia. Qed.

Lemma sort_fct_trans a b c :
  sort_fct a b = true -> sort_fct b c = true -> sort_fct a c = true.
Proof. unfold sort_fct. rewrite !Z.ltb_lt. lia. Qed.

(** Whatever [std::sort] does inside: an outcome that meets its contract is
    strictly ascending when the counters differ. *)
Lemma any_sort_strict (l out : list sub_text_t) :
  NoDup (map counter l) -> sort_post sort_fct l out ->
  StronglySorted counter_lt out /\ NoDup (map counter out).
Proof.
  intros Hnd [Hperm Hord].
  assert (Hnd' : NoDup (map counter out)).
  { now rewrite <- (Permutation_map counter Hperm). }
  split; [|exact Hnd'].
  apply StronglySorted_lookup. intros i j a b Hij Hi Hj.
  specialize (Hord i j a b Hij Hi Hj). unfold sort_fct in Hord.
  apply Z.ltb_ge in Hord. unfold counter_lt.
  assert (counter a <> counter b); [|lia].
  intros Heq.
  assert (i = j); [|lia].
  apply (NoDup_lookup (map counter out) i j (counter a) Hnd').
  - change (map counter out) with (counter <$> out). now rewrite list_lookup_fmap, Hi.
  - change (map counter out) with (counter <$> out). now rewrite list_lookup_fmap, Hj, Heq.
Qed.

(** C3.  When the counters of the collected results differ pairwise, the sort
    of line 447 leaves the same results in strictly ascending order of their
    counters, and no counter occurs twice. *)
Theorem sort_by_counter_strict (subs : list sub_text_t) :
  NoDup (map counter subs) ->
  Permutation subs (sort sort_fct subs) /\
  StronglySorted counter_lt (sort sort_fct subs) /\
  NoDup (map counter (sort sort_fct subs)).
Proof.
  intros Hnd.
  pose proof (sort_meets_contract sort_fct subs sort_fct_asym sort_fct_trans) as Hpost.
  destruct (any_sort_strict subs _ Hnd Hpost) as [Hs Hn].
  split; [apply Hpost|]. now split.
Qed.

Lemma sort_by_counter_strict_witness :
  let subs := [mk_sub_text 3 18000 27000 (Some "c"%string);
               mk_sub_text 1 900 UINT_MAX (Some "a"%string);
               mk_sub_text 2 9000 UINT_MAX None] in
  Permutation subs (sort sort_fct subs) /\
  StronglySorted counter_lt (sort sort_fct subs) /\
  NoDup (map counter (sort sort_fct subs)).
Proof.
  apply (sort_by_counter_strict
           [mk_sub_text 3 18000 27000 (Some "c"%string);
            mk_sub_text 1 900 UINT_MAX (Some "a"%string);
            mk_sub_text 2 9000 UINT_MAX None]).
  apply (bool_decide_unpack _). vm_compute. reflexivity.
Defined.

(** ** The loop that fixes [end_pts] and writes *)

Lemma for_loop_S {S} (n : nat) (body : nat -> S -> S) (s : S) :
  for_loop (Datatypes.S n) body s = body n (for_loop n body s).
Proof. unfold for_loop. now rewrite seq_S, fold_left_app. Qed.

Section Reconciler.

Variable opts : options.
Variable null_text : string.
Variable past_end : nat -> sub_text_t.

Local Abbreviation write_srt := (write_srt opts null_text past_end).
Local Abbreviation write_body := (write_body opts null_text past_end).
Local Abbreviation srt_record := (srt_record null_text).
Local Abbreviation fixes_end := (fixes_end opts).
Local Abbreviation fixed := (fixed opts past_end).
Local Abbreviation loop_inv := (loop_inv opts null_text past_end).

Lemma strays_before subs k : (k < length subs)%nat -> strays subs k = [].
Proof.
  intros Hk. unfold strays. destruct (last subs); [|reflexivity].
  destruct (Nat.eqb_spec k (length subs)); [lia | reflexivity].
Qed.

Lemma write_loop_inv subs k :
  (k <= length subs)%nat -> loop_inv subs k (for_loop k write_body (subs, [], [])).
Proof.
  induction k as [|k IH]; intros Hk.
  - unfold for_loop, loop_inv. simpl seq. simpl fold_left. repeat split; auto.
    + intros i x Hi Hx. lia.
    + unfold strays. destruct (last subs) eqn:Hl; [|reflexivity].
      destruct (Nat.eqb_spec 0 (length subs)) as [E|]; [|reflexivity].
      destruct subs; [discriminate Hl | discriminate E].
  - rewrite for_loop_S. specialize (IH ltac:(lia)).
    destruct (for_loop k write_body (subs, [], [])) as [[v out] oob].
    destruct IH as (Hlen & Hout & Hv & Ho & Hoob).
    destruct (lookup_lt_is_Some_2 subs k ltac:(lia)) as [x Hx].
    pose proof (Hv k x Hx) as Hvk. rewrite Nat.ltb_irrefl in Hvk.
    rewrite (strays_before subs k) in Hoob by lia. subst oob.
    unfold vobsub2srt.write_body, read. rewrite Hvk, Hlen.
    fold (fixes_end subs k x).
    assert (Hfix :
      (if fixes_end subs k x
       then let '(y, oob) :=
              match v !! (k + 1)%nat with
              | Some x0 => (x0, [])
              | None => (past_end (k + 1), [] ++ [(k + 1)%nat])
              end in (set_end_pts (start_pts y) x, oob)
       else (x, [])) = (fixed subs k x, strays subs (S k))).
    { unfold fixed. destruct (fixes_end subs k x) eqn:Hf.
      - destruct (subs !! (k + 1)%nat) as [y|] eqn:Hy.
        + pose proof (Hv _ _ Hy) as Hvy.
          destruct (Nat.ltb_spec (k + 1) k); [lia|]. rewrite Hvy. simpl.
          rewrite strays_before; [reflexivity|].
          apply lookup_lt_Some in Hy. lia.
        + assert (Hn : v !! (k + 1)%nat = None).
          { apply lookup_ge_None. apply lookup_ge_None in Hy. lia. }
          rewrite Hn. simpl. f_equal.
          apply lookup_ge_None in Hy.
          assert (Hlast : last subs = Some x).
          { rewrite last_lookup. replace (Init.Nat.pred (length subs)) with k by lia. exact Hx. }
          unfold strays. rewrite Hlast.
          replace (S k) with (length subs) by lia. rewrite Nat.eqb_refl. simpl.
          unfold fixes_end in Hf.
          destruct (Nat.ltb_spec (k + 1) (length subs)); [lia|].
          rewrite andb_false_r, orb_false_r in Hf. rewrite Hf.
          f_equal. lia.
      - f_equal. unfold strays. destruct (last subs) as [z|] eqn:Hl; [|reflexivity].
        destruct (Nat.eqb_spec (S k) (length subs)) as [E|]; [|reflexivity].
        assert (z = x) as ->.
        { rewrite last_lookup in Hl. replace (Init.Nat.pred (length subs)) with k in Hl by lia.
          congruence. }
        unfold fixes_end in Hf. apply orb_false_elim in Hf as [Hf _]. now rewrite Hf. }
    rewrite Hfix. cbn beta iota.
    repeat split.
    + now rewrite length_insert.
    + rewrite length_app, Hout. simpl. lia.
    + intros i y Hy. destruct (decide (i = k)) as [->|Hne].
      * rewrite list_lookup_insert_eq by lia.
        destruct (Nat.ltb_spec k (S k)); [|lia]. congruence.
      * rewrite list_lookup_insert_ne by lia. rewrite (Hv _ _ Hy).
        destruct (Nat.ltb_spec i k), (Nat.ltb_spec i (S k)); auto; lia.
    + intros i y Hi Hy. destruct (decide (i = k)) as [->|Hne].
      * rewrite lookup_app_r by lia. rewrite Hout, Nat.sub_diag. simpl. congruence.
      * rewrite lookup_app_l by lia. apply Ho; auto. lia.
Qed.

(** What the loop writes, record by record, and what it reads past the end. *)
Lemma write_srt_spec subs :
  let '(v, out, oob) := write_srt subs in
  length out = length subs /\
  (forall i x, subs !! i = Some x -> out !! i = Some (srt_record (fixed subs i x))) /\
  (forall i x, subs !! i = Some x -> v !! i = Some (set_text None (fixed subs i x))) /\
  oob = strays subs (length subs).
Proof.
  pose proof (write_loop_inv subs (length subs) ltac:(lia)) as H.
  unfold vobsub2srt.write_srt.
  destruct (for_loop (length subs) write_body (subs, [], [])) as [[v out] oob].
  destruct H as (Hlen & Hout & Hv & Ho & Hoob).
  repeat split; auto.
  - intros i x Hx. apply Ho; auto. now apply lookup_lt_Some in Hx.
  - intros i x Hx. rewrite (Hv _ _ Hx).
    apply lookup_lt_Some in Hx. destruct (Nat.ltb_spec i (length subs)); [reflexivity | lia].
Qed.

(** A result that has a successor gets the successor's start as its end
    when its own end is the sentinel, or when [dumb] is set. *)
Lemma repair_takes_next_start subs i x y :
  subs !! i = Some x -> subs !! (i + 1)%nat = Some y ->
  end_pts x = UINT_MAX \/ dumb opts = true ->
  (write_srt subs).1.2 !! i = Some (srt_record (set_end_pts (start_pts y) x)) /\
  (write_srt subs).2 = strays subs (length subs).
Proof.
  intros Hx Hy Hc. pose proof (write_srt_spec subs) as H.
  destruct (write_srt subs) as [[v out] oob]. destruct H as (_ & Ho & _ & Hoob).
  split; [|exact Hoob]. simpl. rewrite (Ho _ _ Hx). unfold fixed, fixes_end.
  rewrite Hy. simpl.
  assert (Hlt : (i + 1 <? length subs)%nat = true).
  { apply Nat.ltb_lt. now apply lookup_lt_Some in Hy. }
  rewrite Hlt. destruct Hc as [-> | ->].
  - now rewrite Z.eqb_refl.
  - now rewrite orb_true_r.
Qed.

(** Otherwise an end that is not the sentinel is written as it is; this
    covers the last result in [dumb] mode. *)
Lemma known_end_kept subs i x :
  subs !! i = Some x -> end_pts x <> UINT_MAX ->
  dumb opts = false \/ (i + 1)%nat = length subs ->
  (write_srt subs).1.2 !! i = Some (srt_record x).
Proof.
  intros Hx Hne Hc. pose proof (write_srt_spec subs) as H.
  destruct (write_srt subs) as [[v out] oob]. destruct H as (_ & Ho & _ & _).
  simpl. rewrite (Ho _ _ Hx). unfold fixed, fixes_end.
  apply Z.eqb_neq in Hne. rewrite Hne. destruct Hc as [-> | Hl].
  - reflexivity.
  - destruct (Nat.ltb_spec (i + 1) (length subs)); [lia|]. now rewrite andb_false_r.
Qed.

(** The last result with the sentinel as its end: line 452 runs for it too,
    reads [conv_subs[size]] and puts what it finds there in place of the
    sentinel. *)
Lemma last_sentinel_read_past_end subs x :
  last subs = Some x -> end_pts x = UINT_MAX ->
  (write_srt subs).1.2 !! (length subs - 1)%nat =
    Some (srt_record (set_end_pts (start_pts (past_end (length subs))) x)) /\
  (write_srt subs).2 = [length subs].
Proof.
  intros Hl He. pose proof (write_srt_spec subs) as H.
  destruct (write_srt subs) as [[v out] oob]. destruct H as (_ & Ho & _ & Hoob).
  assert (Hlen : (0 < length subs)%nat).
  { destruct subs; [discriminate Hl | simpl; lia]. }
  assert (Hx : subs !! (length subs - 1)%nat = Some x).
  { rewrite last_lookup in Hl. now replace (length subs - 1)%nat with (Init.Nat.pred (length subs)) by lia. }
  split; simpl.
  - rewrite (Ho _ _ Hx). unfold fixed, fixes_end. rewrite He, Z.eqb_refl. simpl.
    replace (length subs - 1 + 1)%nat with (length subs) by lia.
    now rewrite (lookup_ge_None_2 subs (length subs)) by lia.
  - rewrite Hoob. unfold strays. now rewrite Hl, Nat.eqb_refl, He, Z.eqb_refl.
Qed.

(** The loop stays inside the collection exactly when the last result's
    end is not the sentinel. *)
Lemma write_srt_in_range_iff subs :
  (write_srt subs).2 = [] <-> (forall x, last subs = Some x -> end_pts x <> UINT_MAX).
Proof.
  pose proof (write_srt_spec subs) as H.
  destruct (write_srt subs) as [[v out] oob]. destruct H as (_ & _ & _ & ->).
  simpl. unfold strays. rewrite Nat.eqb_refl. simpl.
  destruct (last subs) as [z|]; [|split; [intros _ x Hx; discriminate | reflexivity]].
  destruct (Z.eqb_spec (end_pts z) UINT_MAX) as [E|E].
  - split; [discriminate|]. intros H. now destruct (H z eq_refl).
  - split; [|reflexivity]. intros _ x [= <-]. exact E.
Qed.

(** One record is written for each result, whatever its text. *)
Lemma write_srt_one_record_each subs i x :
  subs !! i = Some x ->
  exists e, (write_srt subs).1.2 !! i = Some (srt_record (set_end_pts e x)).
Proof.
  intros Hx. pose proof (write_srt_spec subs) as H.
  destruct (write_srt subs) as [[v out] oob]. destruct H as (_ & Ho & _ & _).
  simpl. rewrite (Ho _ _ Hx). unfold fixed.
  destruct (fixes_end subs i x); [eauto|].
  exists (end_pts x). now destruct x.
Qed.

End Reconciler.

(** The example of the specification: three results in order, the first two
    with an unknown end. *)
Example repair_three (null_text : string) (past_end : nat -> sub_text_t) :
  write_srt default_options null_text past_end
    [mk_sub_text 1 0 UINT_MAX (Some "a"%string);
     mk_sub_text 2 9000 UINT_MAX (Some "b"%string);
     mk_sub_text 3 18000 27000 (Some "c"%string)] =
  ([mk_sub_text 1 0 9000 None; mk_sub_text 2 9000 18000 None; mk_sub_text 3 18000 27000 None],
   [srt_record null_text (mk_sub_text 1 0 9000 (Some "a"%string));
    srt_record null_text (mk_sub_text 2 9000 18000 (Some "b"%string));
    srt_record null_text (mk_sub_text 3 18000 27000 (Some "c"%string))],
   []).
Proof. reflexivity. Qed.

(** C1, where the code departs from it.  The specification has the last
    result written as it is when its end is the sentinel.  The condition of
    line 451 holds for it through [end_pts == UINT_MAX], so line 452 runs: it
    reads [conv_subs[size]], one past the end, and the record is written with
    the start found there in place of the sentinel.  So it is for the single
    result with counter 1, start 0 and the sentinel as its end, [dumb] off. *)
Theorem last_sentinel_end_is_overwritten
    (opts : options) (null_text : string) (past_end : nat -> sub_text_t)
    (subs : list sub_text_t) (c s : Z) (tx : option string) :
  (write_srt opts null_text past_end (subs ++ [mk_sub_text c s UINT_MAX tx])).1.2
    !! length subs =
    Some (srt_record null_text
            (mk_sub_text c s (start_pts (past_end (S (length subs)))) tx)) /\
  write_srt default_options null_text past_end [mk_sub_text 1 0 UINT_MAX (Some "a"%string)] =
    ([mk_sub_text 1 0 (start_pts (past_end 1%nat)) None],
     [srt_record null_text (mk_sub_text 1 0 (start_pts (past_end 1%nat)) (Some "a"%string))],
     [1%nat]).
Proof.
  split; [|reflexivity].
  destruct (last_sentinel_read_past_end opts null_text past_end
              (subs ++ [mk_sub_text c s UINT_MAX tx]) (mk_sub_text c s UINT_MAX tx))
    as [H _]; [apply last_snoc | reflexivity |].
  rewrite length_app in H. simpl in H.
  replace (length subs + 1 - 1)%nat with (length subs) in H by lia.
  replace (length subs + 1)%nat with (S (length subs)) in H by lia.
  exact H.
Qed.

(** With zeroed storage behind the vector the record ends at 0, not at the
    sentinel's [13:15:21,858]. *)
Example last_sentinel_zeroed :
  (write_srt default_options "(null)" (fun _ => mk_sub_text 0 0 0 None)
     [mk_sub_text 1 9000 UINT_MAX (Some "a"%string)]).1.2 =
  [("1" ++ nl ++ "00:00:00,100 --> 00:00:00,000" ++ nl ++ "a" ++ nl ++ nl)%string].
Proof. reflexivity. Qed.

(** C9, where the code departs from it.  Whenever the last result's end is the
    sentinel, the loop reads the index [size] of the collection, which is out
    of range; the guard [i + 1 < conv_subs.size()] of line 451 covers only the
    [dumb] case. *)
Theorem sentinel_last_reads_out_of_range
    (opts : options) (null_text : string) (past_end : nat -> sub_text_t)
    (subs : list sub_text_t) (c s : Z) (tx : option string) :
  (write_srt opts null_text past_end (subs ++ [mk_sub_text c s UINT_MAX tx])).2 =
    [length (subs ++ [mk_sub_text c s UINT_MAX tx])] /\
  (subs ++ [mk_sub_text c s UINT_MAX tx]) !! length (subs ++ [mk_sub_text c s UINT_MAX tx]) = None.
Proof.
  split.
  - eapply last_sentinel_read_past_end; [apply last_snoc | reflexivity].
  - now apply lookup_ge_None_2.
Qed.

(** ** The main loop *)

Section Machine.

Variable opts : options.
Variable hardware_concurrency : Z.
Variable tess_Init : nat -> bool.
Variable TesseractRect : nat -> list Z -> Z -> Z -> Z -> option string.
Variable null_text : string.
Variable past_end : nat -> sub_text_t.

Local Abbreviation N := (pool_size opts hardware_concurrency).
Local Abbreviation frame_gate := (frame_gate opts).
Local Abbreviation acquire := (acquire opts hardware_concurrency tess_Init).
Local Abbreviation dispatch := (dispatch opts hardware_concurrency TesseractRect).
Local Abbreviation do_ocr := (do_ocr TesseractRect).
Local Abbreviation thread_step := (thread_step TesseractRect).
Local Abbreviation reconcile := (reconcile opts null_text past_end).
Local Abbreviation main_step :=
  (main_step opts hardware_concurrency tess_Init TesseractRect null_text past_end).
Local Abbreviation step :=
  (step opts hardware_concurrency tess_Init TesseractRect null_text past_end).
Local Abbreviation reachable :=
  (reachable opts hardware_concurrency tess_Init TesseractRect null_text past_end).
Local Abbreviation too_small := (too_small opts).
Local Abbreviation pool_inv := (pool_inv opts hardware_concurrency).
Local Abbreviation new_job := (new_job opts).

(** *** The gate *)

Lemma frame_gate_duplicate st p :
  pk_start_pts p = last_start_pts st -> frame_gate st p = (st, None).
Proof.
  intros H. unfold vobsub2srt.frame_gate. rewrite H, Z.eqb_refl.
  now destruct (timestamp p >=? 0).
Qed.


Lemma frame_gate_accepts st p :
  is_Some (frame_gate st p).2 <->
  timestamp p >= 0 /\ pk_start_pts p <> last_start_pts st /\ too_small p = false.
Proof.
  unfold vobsub2srt.frame_gate, too_small.
  destruct (Z.geb_spec (timestamp p) 0) as [Ht|Ht].
  2: { simpl. split; [intros [? [=]] | lia]. }
  destruct (Z.eqb_spec (pk_start_pts p) (last_start_pts st)) as [Hs|Hs].
  { simpl. split; [intros [? [=]] | tauto]. }
  cbv zeta.
  destruct ((width p <? as_unsigned (min_width opts)) ||
            (height p <? as_unsigned (min_height opts))); simpl.
  - split; [intros [? [=]] | intros (_ & _ & [=])].
  - split; [intros _; repeat split; auto; lia | eauto].
Qed.

(** After a frame with a time stamp the tracker holds its start. *)
Lemma frame_gate_tracker st p :
  timestamp p >= 0 -> last_start_pts (frame_gate st p).1 = pk_start_pts p.
Proof.
  intros Ht. unfold vobsub2srt.frame_gate.
  destruct (Z.geb_spec (timestamp p) 0); [|lia].
  destruct (Z.eqb_spec (pk_start_pts p) (last_start_pts st)) as [Hs|Hs]; [now simpl|].
  cbv zeta.
  destruct ((width p <? as_unsigned (min_width opts)) ||
            (height p <? as_unsigned (min_height opts))); [reflexivity|].
  destruct (verb opts && negb (as_unsigned (timestamp p) =? pk_start_pts p)),
    (dump_images opts); reflexivity.
Qed.

(** The gate touches the tracker and the messages only. *)
Lemma frame_gate_frame st p :
  let st' := (frame_gate st p).1 in
  threads st' = threads st /\ spawned st' = spawned st /\
  sub_counter st' = sub_counter st /\ conv_subs st' = conv_subs st /\
  srtout st' = srtout st /\ stray_reads st' = stray_reads st.
Proof.
  unfold vobsub2srt.frame_gate.
  destruct (timestamp p >=? 0); [|now simpl].
  destruct (pk_start_pts p =? last_start_pts st); [now simpl|].
  cbv zeta.
  destruct ((width p <? as_unsigned (min_width opts)) ||
            (height p <? as_unsigned (min_height opts))); [now simpl|].
  destruct (verb opts && negb (as_unsigned (timestamp p) =? pk_start_pts p)),
    (dump_images opts); now simpl.
Qed.

(** *** What the steps leave alone *)

Lemma ocr_store_done_keeps slot st :
  let st' := ocr_store_done slot st in
  spawned st' = spawned st /\ last_start_pts st' = last_start_pts st /\
  sub_counter st' = sub_counter st /\ conv_subs st' = conv_subs st /\
  events st' = events st /\ srtout st' = srtout st /\
  length (threads st') = length (threads st).
Proof.
  unfold ocr_store_done. destruct (threads st !! slot); simpl; repeat split; auto.
  now rewrite length_insert.
Qed.

Lemma do_ocr_keeps j st :
  let st' := do_ocr j st in
  spawned st' = spawned st /\ last_start_pts st' = last_start_pts st /\
  sub_counter st' = sub_counter st /\ srtout st' = srtout st /\
  length (threads st') = length (threads st).
Proof.
  unfold vobsub2srt.do_ocr. destruct (ocr_recognize TesseractRect j) as [text evs].
  match goal with |- context [ocr_store_done ?s ?x] =>
    pose proof (ocr_store_done_keeps s x) as H end.
  cbv zeta in *. destruct H as (-> & -> & -> & _ & _ & -> & ->). now simpl.
Qed.

Lemma thread_step_keeps tid st st' :
  thread_step tid st = Some st' ->
  last_start_pts st' = last_start_pts st /\ sub_counter st' = sub_counter st /\
  srtout st' = srtout st /\ length (threads st') = length (threads st) /\
  length (spawned st') = length (spawned st).
Proof.
  unfold vobsub2srt.thread_step. intros H.
  destruct (spawned st !! tid) as [[j|slot r|slot|]|]; try discriminate.
  - destruct (ocr_recognize TesseractRect j) as [text evs]. simplify_eq. simpl.
    now rewrite length_insert.
  - simplify_eq. simpl. now rewrite length_insert.
  - simplify_eq. simpl. rewrite length_insert.
    pose proof (ocr_store_done_keeps slot st) as K. cbv zeta in K.
    destruct K as (_ & -> & -> & _ & _ & -> & ->). auto.
Qed.

Lemma acquire_slot_keeps st i st' :
  acquire st = Slot i st' ->
  spawned st' = spawned st /\ last_start_pts st' = last_start_pts st /\
  sub_counter st' = sub_counter st /\ conv_subs st' = conv_subs st /\
  events st' = events st /\ srtout st' = srtout st.
Proof.
  unfold vobsub2srt.acquire, init_tesseract. intros H.
  repeat case_match; simplify_eq; now simpl.
Qed.

Lemma acquire_fatal st st' : acquire st = Fatal st' -> st' = log [ErrInitFailed] st.
Proof.
  unfold vobsub2srt.acquire, init_tesseract. intros H.
  repeat case_match; simplify_eq; now simpl.
Qed.

Lemma dispatch_keeps i p image st st' :
  dispatch i p image st = Some st' ->
  last_start_pts st' = last_start_pts st /\ srtout st' = srtout st /\
  sub_counter st' = wrap (sub_counter st + 1).
Proof.
  unfold vobsub2srt.dispatch. intros H.
  destruct (threads st !! i) as [s|]; [|discriminate].
  destruct (N =? 1); simplify_eq; simpl.
  - match goal with |- context [do_ocr ?j st] =>
      pose proof (do_ocr_keeps j st) as K end.
    cbv zeta in K. destruct K as (_ & -> & -> & -> & _). auto.
  - auto.
Qed.

Lemma reconcile_keeps st :
  last_start_pts (reconcile st) = last_start_pts st /\
  sub_counter (reconcile st) = sub_counter st /\
  threads (reconcile st) = threads st /\ spawned (reconcile st) = spawned st.
Proof.
  unfold vobsub2srt.reconcile.
  destruct (write_srt opts null_text past_end (sort sort_fct (conv_subs st))) as [[v out] oob].
  now simpl.
Qed.

(** Only the gate moves the tracker. *)
Lemma main_step_tracker c st c' st' :
  main_step c st = Some (c', st') ->
  (forall p input, c <> Reading (p :: input)) ->
  last_start_pts st' = last_start_pts st.
Proof.
  intros H Hc. destruct c as [[|p input]|p image input|i|code|]; simpl in H.
  - now simplify_eq.
  - now destruct (Hc p input).
  - destruct (acquire st) as [k st1|st1| |] eqn:Ha; simplify_eq.
    + apply acquire_slot_keeps in Ha as (_ & Ht & _).
      destruct (dispatch k p image st1) as [st2|] eqn:Hd; simplify_eq; [|exact Ht].
      apply dispatch_keeps in Hd as (-> & _). exact Ht.
    + apply acquire_fatal in Ha. now subst.
    + reflexivity.
  - repeat case_match; simplify_eq; auto. apply reconcile_keeps.
  - discriminate.
  - discriminate.
Qed.

(** Nothing is written before [main] reaches its end. *)
Lemma main_step_srtout c st c' st' :
  main_step c st = Some (c', st') -> c' = Exited 0 \/ srtout st' = srtout st.
Proof.
  intros H. destruct c as [[|p input]|p image input|i|code|]; simpl in H.
  - simplify_eq. now right.
  - pose proof (frame_gate_frame st p) as K. cbv zeta in K.
    destruct (frame_gate st p) as [st1 [img|]]; simplify_eq; right; apply K.
  - destruct (acquire st) as [k st1|st1| |] eqn:Ha; simplify_eq.
    + apply acquire_slot_keeps in Ha as (_ & _ & _ & _ & _ & Hs).
      destruct (dispatch k p image st1) as [st2|] eqn:Hd; simplify_eq; right; [|exact Hs].
      apply dispatch_keeps in Hd as (_ & -> & _). exact Hs.
    + apply acquire_fatal in Ha. subst. now right.
    + now right.
  - repeat case_match; simplify_eq; auto.
  - discriminate.
  - discriminate.
Qed.

(** *** Runs *)

Lemma exited_is_final code st cs : ~ step (Exited code, st) cs.
Proof. inversion 1; simplify_eq; discriminate. Qed.

Lemma no_thread_no_step tid st : spawned st = [] -> thread_step tid st = None.
Proof. unfold vobsub2srt.thread_step. intros ->. now rewrite lookup_nil. Qed.

Lemma nothing_written_before_end opened input c st :
  reachable opened input (c, st) -> c <> Exited 0 -> srtout st = [].
Proof.
  unfold vobsub2srt.reachable. intros H.
  refine (rtc_ind_r (fun cs => cs.1 <> Exited 0 -> srtout cs.2 = []) _ _ _ _ H).
  - unfold start. destruct opened; reflexivity.
  - intros y z _ Hs IH. inversion Hs as [c0 st0 c1 st1 Hm|c0 st0 tid st1 Hrun Ht]; subst; simpl in *.
    + intros Hc. destruct (main_step_srtout _ _ _ _ Hm) as [?| ->]; [contradiction|].
      apply IH. intros ->. discriminate Hm.
    + apply thread_step_keeps in Ht as (_ & _ & -> & _). exact IH.
Qed.

(** C10.  [last_start_pts] starts as 0, so a first frame whose start is 0
    takes the [continue] of line 359: the main thread moves on with nothing
    changed, and a run over this frame alone never holds a result nor writes
    a record. *)
Theorem first_frame_at_zero_is_dropped (p : packet) (input : list packet) :
  pk_start_pts p = 0 ->
  main_step (Reading (p :: input)) initial = Some (Reading input, initial) /\
  forall cs, reachable true [p] cs -> cs.2 = initial.
Proof.
  intros Hp.
  assert (Hg : frame_gate initial p = (initial, None)) by now apply frame_gate_duplicate.
  split; [simpl; now rewrite Hg|].
  intros cs H.
  assert (K : cs.2 = initial /\
              (cs.1 = Reading [p] \/ cs.1 = Reading [] \/ cs.1 = Joining 0 \/ cs.1 = Exited 0));
    [|apply K].
  unfold vobsub2srt.reachable in H.
  refine (rtc_ind_r (fun cs => cs.2 = initial /\
            (cs.1 = Reading [p] \/ cs.1 = Reading [] \/ cs.1 = Joining 0 \/ cs.1 = Exited 0))
            _ _ _ _ H).
  - simpl. auto.
  - intros y z _ Hs [Hst Hc].
    inversion Hs as [c0 st0 c1 st1 Hm|c0 st0 tid st1 Hrun Ht]; subst; simpl in *; subst.
    + destruct Hc as [->|[->|[->| ->]]]; simpl in Hm.
      * rewrite Hg in Hm. simplify_eq. auto.
      * simplify_eq. auto.
      * simplify_eq. auto.
      * discriminate.
    + rewrite no_thread_no_step in Ht by reflexivity. discriminate.
Qed.


Lemma main_step_pending c st c' st' :
  main_step c st = Some (c', st') -> (pending c' <= pending c)%nat.
Proof.
  intros H. destruct c as [[|p input]|p image input|i|code|]; simpl in H;
    repeat case_match; simplify_eq; simpl; lia.
Qed.

(** C4, as the code has it.  Of two consecutive frames with the same start
    the second is always dropped at line 359, before the inversion: when the
    main thread comes to it, it moves on with the state as it is, so no slot
    is taken, the counter stays and no result comes of it.  The first one is
    processed exactly when its start differs from the tracker (the start of
    the frame before it, or the initial 0) and it passes the size test; so
    the pair yields one processed frame then, and none otherwise. *)
Theorem duplicate_start_second_skipped (st : state) (p1 p2 : packet) (input : list packet) :
  timestamp p1 >= 0 -> pk_start_pts p1 = pk_start_pts p2 ->
  (is_Some (frame_gate st p1).2 <->
     pk_start_pts p1 <> last_start_pts st /\ too_small p1 = false) /\
  forall cs, rtc step (Reading (p1 :: p2 :: input), st) cs ->
    cs.1 = Reading (p2 :: input) ->
    main_step cs.1 cs.2 = Some (Reading input, cs.2).
Proof.
  intros Ht Heq. split.
  { rewrite frame_gate_accepts. tauto. }
  intros cs H.
  assert (K : cs.1 = Reading (p1 :: p2 :: input) \/
              (last_start_pts cs.2 = pk_start_pts p1 /\
               (cs.1 = Reading (p2 :: input) \/
                exists image, cs.1 = Acquiring p1 image (p2 :: input))) \/
              (pending cs.1 <= length input)%nat).
  { refine (rtc_ind_r (fun cs => cs.1 = Reading (p1 :: p2 :: input) \/
              (last_start_pts cs.2 = pk_start_pts p1 /\
               (cs.1 = Reading (p2 :: input) \/
                exists image, cs.1 = Acquiring p1 image (p2 :: input))) \/
              (pending cs.1 <= length input)%nat) _ _ _ _ H); [now left|].
    intros y z _ Hs IH.
    inversion Hs as [c0 st0 c1 st1 Hm|c0 st0 tid st1 Hrun Hth]; subst; simpl in *.
    - destruct IH as [->|[[Htr [->|[image ->]]]|Hp]].
      + right. left. simpl in Hm.
        pose proof (frame_gate_tracker st0 p1 Ht) as Hk.
        destruct (frame_gate st0 p1) as [st2 [image|]]; simplify_eq; simpl in *; eauto.
      + right. right. simpl in Hm.
        rewrite frame_gate_duplicate in Hm by congruence. simplify_eq. simpl. lia.
      + pose proof (main_step_tracker _ _ _ _ Hm) as Hk.
        rewrite Hk by (intros; discriminate).
        simpl in Hm. repeat case_match; simplify_eq; simpl; auto; right; right; lia.
      + right. right. apply main_step_pending in Hm. lia.
    - apply thread_step_keeps in Hth as (-> & _). exact IH. }
  intros Hc. destruct K as [K|[[Htr _]|K]].
  - rewrite Hc in K. injection K as _ K. apply (f_equal length) in K. simpl in K. lia.
  - rewrite Hc. simpl. rewrite frame_gate_duplicate by congruence. reflexivity.
  - rewrite Hc in K. simpl in K. lia.
Qed.

(** C7.  When the main thread needs a new engine and [init_tesseract] fails,
    [main] returns -1 in that very step; up to then no record has been
    written, and nothing moves after the return. *)
Theorem engine_failure_is_fatal
    (opened : bool) (packets : list packet) (p : packet) (image : list Z)
    (input : list packet) (st : state) :
  reachable opened packets (Acquiring p image input, st) ->
  Z.of_nat (length (threads st)) < as_unsigned N ->
  tess_Init (length (threads st)) = false ->
  exists st',
    main_step (Acquiring p image input) st = Some (Exited (-1), st') /\
    -1 <> 0 /\
    srtout st' = [] /\
    conv_subs st' = conv_subs st /\
    forall cs, ~ step (Exited (-1), st') cs.
Proof.
  intros Hr Hlt Hinit.
  exists (log [ErrInitFailed] st). split; [|split; [lia|split; [|split]]].
  - simpl. unfold vobsub2srt.acquire, init_tesseract.
    apply Z.ltb_lt in Hlt. now rewrite Hlt, Hinit.
  - simpl. eapply nothing_written_before_end; [exact Hr | discriminate].
  - reflexivity.
  - intros cs. apply exited_is_final.
Qed.

(** *** The pool *)

Lemma pool_inv_initial : 0 <= N -> pool_inv initial.
Proof.
  intros HN. unfold pool_inv. simpl. split; [exact HN|]. split; [|split].
  - intros _. split; [reflexivity|]. intros i s Hs. now rewrite lookup_nil in Hs.
  - intros tid th Hth. now rewrite lookup_nil in Hth.
  - intros _ i s Hs. now rewrite lookup_nil in Hs.
Qed.

Lemma pool_inv_ext st st' :
  threads st' = threads st -> spawned st' = spawned st -> pool_inv st -> pool_inv st'.
Proof. unfold pool_inv. now intros -> ->. Qed.

Lemma pool_inv_inline st st' :
  N = 1 -> pool_inv st -> spawned st' = spawned st ->
  Z.of_nat (length (threads st')) <= N ->
  (forall i s, threads st' !! i = Some s -> t s = None) ->
  pool_inv st'.
Proof.
  intros HN (_ & Hb & _ & _) Hsp Hlen Ht. destruct (Hb HN) as [Hnil _].
  split; [exact Hlen|]. split; [|split].
  - intros _. split; [congruence | exact Ht].
  - intros tid th Hth. rewrite Hsp, Hnil, lookup_nil in Hth. discriminate.
  - intros Hne. contradiction.
Qed.

Lemma pool_inv_spawn st st' i j api :
  N <> 1 -> pool_inv st ->
  spawned st' = spawned st ++ [Recognizing j] -> j_slot j = i ->
  threads st' !! i = Some (mk_ocr_thread (Some (length (spawned st))) false api) ->
  Z.of_nat (length (threads st')) <= N ->
  (forall k, k <> i -> threads st' !! k = threads st !! k) ->
  (forall s, threads st !! i = Some s -> done s = true) ->
  pool_inv st'.
Proof.
  intros HN (_ & _ & Hc & Hd) Hsp Hj Hi Hlen Hother Hfree.
  specialize (Hd HN). split; [exact Hlen|]. split; [|split].
  - intros E. contradiction.
  - intros tid th Hth Hal. rewrite Hsp in Hth.
    destruct (decide (tid < length (spawned st))%nat) as [Hlt|Hge].
    + rewrite lookup_app_l in Hth by exact Hlt.
      destruct (Hc _ _ Hth Hal) as (k & s & Hs1 & Hs2 & Hs3 & Hs4).
      exists k, s. split; [exact Hs1|]. split; [|split; [exact Hs3 | exact Hs4]].
      rewrite Hother; [exact Hs2|].
      intros ->. rewrite (Hfree _ Hs2) in Hs4. discriminate.
    + rewrite lookup_app_r in Hth by lia.
      destruct (tid - length (spawned st))%nat as [|n] eqn:E; simpl in Hth;
        [|now rewrite lookup_nil in Hth].
      injection Hth as <-. simpl. exists i, (mk_ocr_thread (Some (length (spawned st))) false api).
      split; [f_equal; exact Hj|]. split; [exact Hi|]. simpl. split; [f_equal; lia | reflexivity].
  - intros _ k s Hs. destruct (decide (k = i)) as [->|Hne].
    + rewrite Hi in Hs. injection Hs as <-. simpl. eexists. split; [reflexivity|].
      rewrite Hsp, length_app. simpl. split; [lia | discriminate].
    + rewrite Hother in Hs by exact Hne.
      destruct (Hd _ _ Hs) as (tid & Ht & Hlt & Hret).
      exists tid. rewrite Hsp, length_app. split; [exact Ht|]. split; [lia|].
      intros Hdone. rewrite lookup_app_l by exact Hlt. auto.
Qed.

Lemma pool_inv_advance st st' tid th th' :
  spawned st !! tid = Some th -> alive th = true ->
  slot_of th' = slot_of th -> alive th' = true ->
  spawned st' = <[tid := th']> (spawned st) -> threads st' = threads st ->
  pool_inv st -> pool_inv st'.
Proof.
  intros Hth Hal Hslot Hal' Hsp Hthr (Ha & Hb & Hc & Hd).
  assert (Hlt : (tid < length (spawned st))%nat) by (eapply lookup_lt_Some; eauto).
  unfold pool_inv. rewrite Hthr, Hsp, length_insert.
  split; [exact Ha|]. split; [|split].
  - intros E. destruct (Hb E) as [Hnil _]. rewrite Hnil in Hth. now rewrite lookup_nil in Hth.
  - intros tid' x Hx Hax. destruct (decide (tid' = tid)) as [->|Hne].
    + rewrite list_lookup_insert_eq in Hx by exact Hlt. injection Hx as <-.
      rewrite Hslot. now apply Hc.
    + rewrite list_lookup_insert_ne in Hx by auto. now apply Hc.
  - intros HN k s Hs. destruct (Hd HN _ _ Hs) as (tid' & Ht & Hl & Hret).
    exists tid'. split; [exact Ht|]. split; [exact Hl|].
    intros Hdone. specialize (Hret Hdone).
    rewrite list_lookup_insert_ne; [exact Hret|].
    intros ->. rewrite Hth in Hret. injection Hret as ->. discriminate.
Qed.

Lemma pool_inv_finish st st' tid slot :
  spawned st !! tid = Some (Finishing slot) ->
  spawned st' = <[tid := Returned]> (spawned st) ->
  threads st' = threads (ocr_store_done slot st) ->
  pool_inv st -> pool_inv st'.
Proof.
  intros Hth Hsp Hthr (Ha & Hb & Hc & Hd).
  assert (Hlt : (tid < length (spawned st))%nat) by (eapply lookup_lt_Some; eauto).
  destruct (Hc _ _ Hth eq_refl) as (i & s & Hi & Hs & Hts & Hds).
  simpl in Hi. injection Hi as ->.
  assert (Hthr' : threads st' = <[i := set_done true s]> (threads st)).
  { rewrite Hthr. unfold ocr_store_done. now rewrite Hs. }
  assert (Hil : (i < length (threads st))%nat) by (eapply lookup_lt_Some; eauto).
  unfold pool_inv. rewrite Hthr', Hsp, !length_insert.
  split; [exact Ha|]. split; [|split].
  - intros E. destruct (Hb E) as [Hnil _]. rewrite Hnil in Hth. now rewrite lookup_nil in Hth.
  - intros tid' x Hx Hax. destruct (decide (tid' = tid)) as [->|Hne].
    + rewrite list_lookup_insert_eq in Hx by exact Hlt. injection Hx as <-. discriminate.
    + rewrite list_lookup_insert_ne in Hx by auto.
      destruct (Hc _ _ Hx Hax) as (k & s' & Hk1 & Hk2 & Hk3 & Hk4).
      exists k, s'. split; [exact Hk1|]. split; [|split; [exact Hk3 | exact Hk4]].
      rewrite list_lookup_insert_ne; [exact Hk2|].
      intros ->. rewrite Hs in Hk2. injection Hk2 as <-. congruence.
  - intros HN k s' Hs'. destruct (decide (k = i)) as [->|Hne].
    + rewrite list_lookup_insert_eq in Hs' by exact Hil. injection Hs' as <-. simpl.
      exists tid. split; [exact Hts|]. split; [exact Hlt|]. intros _.
      now rewrite list_lookup_insert_eq by exact Hlt.
    + rewrite list_lookup_insert_ne in Hs' by auto.
      destruct (Hd HN _ _ Hs') as (tid' & Ht & Hl & Hret).
      exists tid'. split; [exact Ht|]. split; [exact Hl|].
      intros Hdone. specialize (Hret Hdone).
      rewrite list_lookup_insert_ne; [exact Hret|].
      intros ->. rewrite Hth in Hret. discriminate.
Qed.

Lemma thread_step_inv tid st st' :
  thread_step tid st = Some st' -> pool_inv st -> pool_inv st'.
Proof.
  unfold vobsub2srt.thread_step. intros H Hinv.
  destruct (spawned st !! tid) as [[j|slot r|slot|]|] eqn:Hth; try discriminate.
  - destruct (ocr_recognize TesseractRect j) as [text evs]. simplify_eq.
    apply (pool_inv_advance st _ tid (Recognizing j)
             (Appending (j_slot j) (ocr_result j text))); auto.
  - simplify_eq.
    apply (pool_inv_advance st _ tid (Appending slot r) (Finishing slot)); auto.
  - simplify_eq. eapply (pool_inv_finish st _ tid slot); eauto; reflexivity.
Qed.

Lemma first_done_some k v i :
  first_done k v = Some i ->
  exists s, (k <= i)%nat /\ v !! (i - k)%nat = Some s /\ done s = true.
Proof.
  revert k. induction v as [|s v IH]; intros k H; simpl in H; [discriminate|].
  destruct (done s) eqn:Hd.
  - simplify_eq. exists s. rewrite Nat.sub_diag. auto.
  - destruct (IH _ H) as (s' & Hle & Hs' & Hd'). exists s'. repeat split; auto; [lia|].
    replace (i - k)%nat with (S (i - S k)) by lia. exact Hs'.
Qed.

Lemma do_ocr_eq j st s :
  threads st !! j_slot j = Some s ->
  threads (do_ocr j st) = <[j_slot j := set_done true s]> (threads st) /\
  spawned (do_ocr j st) = spawned st /\
  conv_subs (do_ocr j st) =
    conv_subs st ++ [ocr_result j (ocr_recognize TesseractRect j).1] /\
  events (do_ocr j st) = events st ++ (ocr_recognize TesseractRect j).2 /\
  sub_counter (do_ocr j st) = sub_counter st.
Proof.
  intros Hs. unfold vobsub2srt.do_ocr.
  destruct (ocr_recognize TesseractRect j) as [text evs].
  unfold ocr_store_done. simpl. rewrite Hs. simpl. auto.
Qed.

Lemma dispatch_inline i p image st s :
  N = 1 -> threads st !! i = Some s ->
  exists st',
    dispatch i p image st = Some st' /\
    threads st' = <[i := set_done true s]> (threads st) /\
    spawned st' = spawned st /\
    conv_subs st' =
      conv_subs st ++
      [ocr_result (new_job s i p image st)
         (ocr_recognize TesseractRect (new_job s i p image st)).1] /\
    events st' = events st ++ (ocr_recognize TesseractRect (new_job s i p image st)).2 /\
    sub_counter st' = wrap (sub_counter st + 1).
Proof.
  intros HN Hs. unfold vobsub2srt.dispatch. rewrite Hs.
  apply Z.eqb_eq in HN. rewrite HN. eexists. split; [reflexivity|].
  fold (new_job s i p image st).
  destruct (do_ocr_eq (new_job s i p image st) st s Hs) as (E1 & E2 & E3 & E4 & E5).
  simpl. rewrite E5. auto.
Qed.

Lemma dispatch_spawn i p image st s :
  N <> 1 -> threads st !! i = Some s ->
  exists st',
    dispatch i p image st = Some st' /\
    threads st' =
      <[i := mk_ocr_thread (Some (length (spawned st))) false (tess_base_api s)]> (threads st) /\
    spawned st' = spawned st ++ [Recognizing (new_job s i p image st)] /\
    conv_subs st' = conv_subs st /\
    events st' = events st /\
    sub_counter st' = wrap (sub_counter st + 1).
Proof.
  intros HN Hs. unfold vobsub2srt.dispatch. rewrite Hs.
  apply Z.eqb_neq in HN. rewrite HN. eexists. split; [reflexivity|]. simpl. auto.
Qed.

Section Pool.

Hypothesis N_range : 1 <= N <= UINT_MAX.

Lemma as_unsigned_N : as_unsigned N = N.
Proof. unfold as_unsigned. apply wrap_small. lia. Qed.

(** Below capacity a slot is added and the frame goes to it. *)
Lemma acquire_new st :
  Z.of_nat (length (threads st)) < N -> tess_Init (length (threads st)) = true ->
  acquire st =
    Slot (length (threads st))
      (with_threads (threads st ++ [mk_ocr_thread None false (length (threads st))]) st).
Proof.
  intros Hlt Hinit. unfold vobsub2srt.acquire, init_tesseract.
  rewrite as_unsigned_N. apply Z.ltb_lt in Hlt. now rewrite Hlt, Hinit.
Qed.

(** With one slot, once it exists, it is taken as it is. *)
Lemma acquire_single st :
  N = 1 -> ~ Z.of_nat (length (threads st)) < N -> acquire st = Slot 0 st.
Proof.
  intros HN Hge. unfold vobsub2srt.acquire. rewrite as_unsigned_N.
  apply Z.ltb_nlt in Hge. rewrite Hge. rewrite HN. simpl.
  destruct (threads st) as [|s v] eqn:E; [|reflexivity].
  apply Z.ltb_nlt in Hge. simpl in Hge. lia.
Qed.

(** At capacity with several slots: the first slot whose flag is up is
    joined and taken; without one the main thread keeps polling. *)
Lemma acquire_saturated st :
  pool_inv st -> N <> 1 -> ~ Z.of_nat (length (threads st)) < N ->
  match first_done 0 (threads st) with
  | None => acquire st = Poll
  | Some i =>
      exists s tid, threads st !! i = Some s /\ done s = true /\ t s = Some tid /\
                    spawned st !! tid = Some Returned /\ acquire st = Slot i st
  end.
Proof.
  intros (_ & _ & _ & Hd) HN Hge. specialize (Hd HN).
  unfold vobsub2srt.acquire. rewrite as_unsigned_N.
  apply Z.ltb_nlt in Hge. rewrite Hge. apply Z.eqb_neq in HN. rewrite HN.
  destruct (first_done 0 (threads st)) as [i|] eqn:Hf; [|reflexivity].
  destruct (first_done_some _ _ _ Hf) as (s & _ & Hs & Hdone).
  rewrite Nat.sub_0_r in Hs.
  destruct (Hd _ _ Hs) as (tid & Ht & _ & Hret). specialize (Hret Hdone).
  exists s, tid. rewrite Hs. simpl. rewrite Ht, Hret. auto.
Qed.

Lemma main_step_inv c st c' st' :
  main_step c st = Some (c', st') -> pool_inv st -> pool_inv st' /\ c' <> Undefined.
Proof.
  intros H Hinv. destruct c as [[|p input]|p image input|i|code|]; simpl in H.
  - simplify_eq. split; [exact Hinv | discriminate].
  - pose proof (frame_gate_frame st p) as K. cbv zeta in K.
    destruct K as (K1 & K2 & _).
    destruct (frame_gate st p) as [st1 [img|]]; simplify_eq; simpl in *;
      (split; [now apply (pool_inv_ext st) | discriminate]).
  - destruct (decide (Z.of_nat (length (threads st)) < N)) as [Hlt|Hge].
    + destruct (tess_Init (length (threads st))) eqn:Hinit.
      * rewrite (acquire_new st Hlt Hinit) in H.
        set (s := mk_ocr_thread None false (length (threads st))) in *.
        set (st1 := with_threads (threads st ++ [s]) st) in *.
        assert (Hs : threads st1 !! length (threads st) = Some s).
        { simpl. now apply list_lookup_middle. }
        destruct (decide (N = 1)) as [HN|HN].
        -- destruct (dispatch_inline _ p image st1 s HN Hs)
             as (st2 & Hd & E1 & E2 & _). rewrite Hd in H. simplify_eq.
           split; [|discriminate].
           apply (pool_inv_inline st); auto.
           ++ rewrite E1, length_insert. simpl. rewrite length_app. simpl. lia.
           ++ intros k x Hx. rewrite E1 in Hx. simpl in Hx.
              destruct Hinv as (_ & Hb & _). destruct (Hb HN) as [_ Hnone].
              destruct (decide (k = length (threads st))) as [->|Hne].
              ** rewrite list_lookup_insert_eq in Hx
                   by (rewrite length_app; simpl; lia).
                 now simplify_eq.
              ** rewrite list_lookup_insert_ne in Hx by auto.
                 apply lookup_app_Some in Hx as [Hx|[_ Hx]]; [eauto|].
                 destruct (k - length (threads st))%nat; simpl in Hx;
                   [now simplify_eq | now rewrite lookup_nil in Hx].
        -- destruct (dispatch_spawn _ p image st1 s HN Hs)
             as (st2 & Hd & E1 & E2 & _). rewrite Hd in H. simplify_eq.
           split; [|discriminate].
           apply (pool_inv_spawn st _ (length (threads st))
                    (new_job s (length (threads st)) p image st1) (tess_base_api s)); auto.
           ++ rewrite E1. simpl. apply list_lookup_insert_eq.
              rewrite length_app. simpl. lia.
           ++ rewrite E1, length_insert. simpl. rewrite length_app. simpl. lia.
           ++ intros k Hne. rewrite E1. simpl.
              rewrite list_lookup_insert_ne by auto.
              destruct (decide (k < length (threads st))%nat).
              ** now rewrite lookup_app_l.
              ** rewrite !lookup_ge_None_2; auto; [lia|].
                 rewrite length_app. simpl. lia.
           ++ intros x Hx. apply lookup_lt_Some in Hx. lia.
      * unfold vobsub2srt.acquire, init_tesseract in H. rewrite as_unsigned_N in H.
        apply Z.ltb_lt in Hlt. rewrite Hlt, Hinit in H. simplify_eq.
        split; [now apply (pool_inv_ext st) | discriminate].
    + destruct (decide (N = 1)) as [HN|HN].
      * rewrite (acquire_single st HN Hge) in H.
        destruct (threads st !! 0%nat) as [s|] eqn:Hs.
        2:{ apply lookup_ge_None in Hs. lia. }
        destruct (dispatch_inline _ p image st s HN Hs) as (st2 & Hd & E1 & E2 & _).
        rewrite Hd in H. simplify_eq. split; [|discriminate].
        apply (pool_inv_inline st); auto.
        -- rewrite E1, length_insert. apply Hinv.
        -- intros k x Hx. rewrite E1 in Hx.
           destruct Hinv as (_ & Hb & _). destruct (Hb HN) as [_ Hnone].
           destruct (decide (k = 0%nat)) as [->|Hne].
           ++ rewrite list_lookup_insert_eq in Hx by (eapply lookup_lt_Some; eauto).
              simplify_eq. simpl. eauto.
           ++ rewrite list_lookup_insert_ne in Hx by auto. eauto.
      * pose proof (acquire_saturated st Hinv HN Hge) as Ha.
        destruct (first_done 0 (threads st)) as [k|].
        -- destruct Ha as (s & tid & Hs & Hdone & Ht & Hret & Ha). rewrite Ha in H.
           destruct (dispatch_spawn _ p image st s HN Hs) as (st2 & Hd & E1 & E2 & _).
           rewrite Hd in H. simplify_eq. split; [|discriminate].
           apply (pool_inv_spawn st _ k (new_job s k p image st) (tess_base_api s)); auto.
           ++ rewrite E1. apply list_lookup_insert_eq. eapply lookup_lt_Some; eauto.
           ++ rewrite E1, length_insert. apply Hinv.
           ++ intros k' Hne. rewrite E1. now rewrite list_lookup_insert_ne by auto.
           ++ intros x Hx. congruence.
        -- rewrite Ha in H. discriminate.
  - destruct (threads st !! i) as [s|] eqn:Hs.
    + destruct (t s) as [tid|] eqn:Ht.
      * destruct (spawned st !! tid) as [th|] eqn:Hth.
        -- destruct th; simplify_eq. split; [exact Hinv | discriminate].
        -- exfalso. destruct Hinv as (_ & Hb & _ & Hd).
           destruct (decide (N = 1)) as [HN|HN].
           ++ destruct (Hb HN) as [_ Hnone]. rewrite (Hnone _ _ Hs) in Ht. discriminate.
           ++ destruct (Hd HN _ _ Hs) as (tid' & Ht' & Hl & _).
              rewrite Ht in Ht'. simplify_eq. apply lookup_ge_None in Hth. lia.
      * simplify_eq. split; [exact Hinv | discriminate].
    + simplify_eq. split; [|discriminate].
      apply (pool_inv_ext st); auto; apply reconcile_keeps.
  - discriminate.
  - discriminate.
Qed.

Lemma omap_length_le {A B} (f : A -> option B) (l : list A) :
  (length (omap f l) <= length l)%nat.
Proof.
  induction l as [|a l IH]; [reflexivity|].
  change (omap f (a :: l)) with (match f a with Some y => y :: omap f l | None => omap f l end).
  destruct (f a); simpl length; lia.
Qed.

(** Each thread that has not returned has a slot of its own. *)
Lemma alive_le_slots st :
  pool_inv st -> (length (alive_tids st) <= length (threads st))%nat.
Proof.
  intros (_ & _ & Hc & _).
  etransitivity; [|apply (omap_length_le t)].
  apply submseteq_length, NoDup_submseteq.
  - apply NoDup_filter, NoDup_seq.
  - intros tid Hin. apply list_elem_of_filter in Hin as [Hal _].
    unfold thread_is in Hal. destruct (spawned st !! tid) as [th|] eqn:Hth; [|discriminate].
    destruct (Hc _ _ Hth Hal) as (i & s & _ & Hs & Ht & _).
    apply list_elem_of_omap. exists s. split; [|exact Ht].
    eapply list_elem_of_lookup_2; eauto.
Qed.

Lemma recognizing_le_alive st :
  (length (recognizing_tids st) <= length (alive_tids st))%nat.
Proof.
  apply submseteq_length, NoDup_submseteq.
  - apply NoDup_filter, NoDup_seq.
  - intros tid Hin. apply list_elem_of_filter in Hin as [Hr Hs].
    apply list_elem_of_filter. split; [|exact Hs].
    unfold thread_is in *. destruct (spawned st !! tid) as [[]|]; auto; discriminate.
Qed.

Lemma reachable_inv opened packets cs :
  reachable opened packets cs -> pool_inv cs.2 /\ cs.1 <> Undefined.
Proof.
  unfold vobsub2srt.reachable. intros H.
  refine (rtc_ind_r (fun cs => pool_inv cs.2 /\ cs.1 <> Undefined) _ _ _ _ H).
  - unfold start. destruct opened; simpl; (split; [apply pool_inv_initial; lia | discriminate]).
  - intros y z _ Hs [Hinv Hc].
    inversion Hs as [c0 st0 c1 st1 Hm|c0 st0 tid st1 Hrun Ht]; subst; simpl in *.
    + eapply main_step_inv; eauto.
    + split; [eapply thread_step_inv; eauto | exact Hc].
Qed.

(** A slot is added only by the main thread, for a frame at line 390,
    while there are fewer than [N]. *)
Lemma slots_grow_lazily c st cs' :
  pool_inv st -> step (c, st) cs' ->
  length (threads cs'.2) = length (threads st) \/
  (length (threads cs'.2) = S (length (threads st)) /\
   Z.of_nat (length (threads st)) < N /\
   exists p image input, c = Acquiring p image input).
Proof.
  intros Hinv Hs.
  inversion Hs as [c0 st0 c1 st1 Hm|c0 st0 tid st1 Hrun Ht]; subst; simpl in *.
  2:{ left. now apply thread_step_keeps in Ht. }
  destruct c as [[|p input]|p image input|i|code|]; simpl in Hm.
  - simplify_eq. now left.
  - pose proof (frame_gate_frame st p) as K. cbv zeta in K. destruct K as (K & _).
    destruct (frame_gate st p) as [st2 [img|]]; simpl in K; simplify_eq; left;
      now rewrite K.
  - destruct (decide (Z.of_nat (length (threads st)) < N)) as [Hlt|Hge].
    + destruct (acquire st) as [k st2|st2| |] eqn:Ha; simplify_eq.
      * right. split; [|split; [exact Hlt | eauto]].
        unfold vobsub2srt.acquire, init_tesseract in Ha. rewrite as_unsigned_N in Ha.
        apply Z.ltb_lt in Hlt. rewrite Hlt in Ha.
        destruct (tess_Init (length (threads st))); simplify_eq.
        destruct (dispatch _ p image _) as [st3|] eqn:Hd; simplify_eq.
        -- unfold vobsub2srt.dispatch in Hd. simpl in Hd.
           rewrite list_lookup_middle in Hd by reflexivity.
           destruct (N =? 1); simplify_eq; simpl.
           ++ match goal with |- context [do_ocr ?j ?x] =>
                pose proof (do_ocr_keeps j x) as K end.
              cbv zeta in K. destruct K as (_ & _ & _ & _ & ->). simpl.
              rewrite length_app. simpl. lia.
           ++ rewrite length_insert, length_app. simpl. lia.
        -- simpl. rewrite length_app. simpl. lia.
      * apply acquire_fatal in Ha. subst. now left.
      * now left.
    + left. destruct (decide (N = 1)) as [HN|HN].
      * rewrite (acquire_single st HN Hge) in Hm.
        destruct (dispatch 0 p image st) as [st3|] eqn:Hd; simplify_eq; [|reflexivity].
        unfold vobsub2srt.dispatch in Hd. destruct (threads st !! 0%nat); [|discriminate].
        apply Z.eqb_eq in HN. rewrite HN in Hd. simplify_eq. simpl.
        match goal with |- context [do_ocr ?j ?x] =>
          pose proof (do_ocr_keeps j x) as K end.
        cbv zeta in K. now destruct K as (_ & _ & _ & _ & ->).
      * pose proof (acquire_saturated st Hinv HN Hge) as Ha.
        destruct (first_done 0 (threads st)) as [k|].
        -- destruct Ha as (s & tid & Hs' & _ & _ & _ & Ha). rewrite Ha in Hm.
           destruct (dispatch_spawn k p image st s HN Hs') as (st3 & Hd & E1 & _).
           rewrite Hd in Hm. simplify_eq. now rewrite E1, length_insert.
        -- rewrite Ha in Hm. discriminate.
  - repeat case_match; simplify_eq; auto. left. now rewrite (proj1 (proj2 (proj2 (reconcile_keeps st)))).
  - discriminate.
  - discriminate.
Qed.

End Pool.

(** The main thread's own moves are moves of the program. *)
Lemma run_main_steps fuel c st :
  rtc step (c, st)
    (run_main opts hardware_concurrency tess_Init TesseractRect null_text past_end fuel c st).
Proof.
  revert c st. induction fuel as [|fuel IH]; intros c st; simpl; [apply rtc_refl|].
  destruct (main_step c st) as [[c' st']|] eqn:Hm; [|apply rtc_refl].
  eapply rtc_l; [apply step_main; exact Hm | apply IH].
Qed.

End Machine.

(** ** Concrete runs *)

(** A run with one slot: the frame at 0 is dropped (C10), the second frame
    at 9000 is a duplicate, the frame ten pixels wide is not recognized, the
    frame five pixels wide is too small. *)
Example run_one_slot :
  let cs := run one_slot engine_ok 20
              [frame 0 20 0 9000; frame 1 20 9000 UINT_MAX; frame 2 20 9000 18000;
               frame 3 10 18000 UINT_MAX; frame 4 5 20000 21000; frame 5 20 30000 40000] in
  cs.1 = Exited 0 /\
  events cs.2 = [ErrOcrFailed 2; WarnTooSmall 3 3 5 5] /\
  srtout cs.2 =
    [("1" ++ nl ++ "00:00:00,100 --> 00:00:00,200" ++ nl ++ "Hello" ++ nl ++ nl)%string;
     ("2" ++ nl ++ "00:00:00,200 --> 00:00:00,333" ++ nl ++ "(null)" ++ nl ++ nl)%string;
     ("3" ++ nl ++ "00:00:00,333 --> 00:00:00,444" ++ nl ++ "Hello" ++ nl ++ nl)%string] /\
  stray_reads cs.2 = [].
Proof. vm_compute. repeat split. Qed.

Lemma first_frame_at_zero_is_dropped_witness :
  main_step one_slot 4 engine_ok ocr "(null)"%string zeroed
    (Reading [frame 0 20 0 9000]) initial = Some (Reading [], initial) /\
  forall cs,
    reachable one_slot 4 engine_ok ocr "(null)"%string zeroed true [frame 0 20 0 9000] cs ->
    cs.2 = initial.
Proof.
  apply (first_frame_at_zero_is_dropped one_slot 4 engine_ok ocr "(null)"%string zeroed
           (frame 0 20 0 9000) []).
  reflexivity.
Defined.

(** A frame dropped as a duplicate (lines 358-360) does not come to the size
    test: the second frame here has the start of the first one. *)
Example duplicate_frame_is_not_measured :
  let cs := run one_slot engine_ok 20 [frame 0 20 9000 18000; frame 1 5 9000 18000] in
  cs.1 = Exited 0 /\
  events cs.2 = [] /\
  srtout cs.2 = [("1" ++ nl ++ "00:00:00,100 --> 00:00:00,200" ++ nl ++ "Hello" ++ nl ++ nl)%string].
Proof. vm_compute. repeat split. Qed.


(** C4 as stated fails: two consecutive frames with the same start, both
    too small, and neither is processed: the counter is still 1 at the end and
    nothing is written.  The same with two frames that start at 0 at the head
    of the stream (see C10). *)
Lemma duplicate_pair_may_yield_none :
  let small := frame 0 5 9000 18000 in
  let cs := run one_slot engine_ok 20 [small; small] in
  let zero := frame 0 20 0 9000 in
  let cs0 := run one_slot engine_ok 20 [zero; zero] in
  timestamp small >= 0 /\ timestamp zero >= 0 /\
  cs.1 = Exited 0 /\
  sub_counter cs.2 = 1 /\ threads cs.2 = [] /\ conv_subs cs.2 = [] /\ srtout cs.2 = [] /\
  cs0.1 = Exited 0 /\
  sub_counter cs0.2 = 1 /\ threads cs0.2 = [] /\ conv_subs cs0.2 = [] /\ srtout cs0.2 = [] /\
  length (conv_subs cs.2) <> 1%nat /\ length (conv_subs cs0.2) <> 1%nat.
Proof. vm_compute. repeat split; discriminate. Qed.

Lemma duplicate_start_second_skipped_witness :
  let p1 := frame 0 20 9000 UINT_MAX in
  let p2 := frame 1 20 9000 18000 in
  (is_Some (frame_gate one_slot initial p1).2 <->
     pk_start_pts p1 <> last_start_pts initial /\ too_small one_slot p1 = false) /\
  forall cs,
    rtc (step one_slot 4 engine_ok ocr "(null)"%string zeroed)
      (Reading [p1; p2], initial) cs ->
    cs.1 = Reading [p2] ->
    main_step one_slot 4 engine_ok ocr "(null)"%string zeroed cs.1 cs.2 =
      Some (Reading [], cs.2).
Proof.
  apply (duplicate_start_second_skipped one_slot 4 engine_ok ocr "(null)"%string zeroed
           initial (frame 0 20 9000 UINT_MAX) (frame 1 20 9000 18000) []).
  - vm_compute. discriminate.
  - reflexivity.
Defined.

Lemma engine_failure_is_fatal_witness :
  let p := frame 0 20 9000 18000 in
  let st := with_last_start_pts 9000 initial in
  exists st',
    main_step one_slot 4 engine_broken ocr "(null)"%string zeroed
      (Acquiring p [255; 0; 0] []) st = Some (Exited (-1), st') /\
    -1 <> 0 /\
    srtout st' = [] /\
    conv_subs st' = conv_subs st /\
    forall cs, ~ step one_slot 4 engine_broken ocr "(null)"%string zeroed (Exited (-1), st') cs.
Proof.
  apply (engine_failure_is_fatal one_slot 4 engine_broken ocr "(null)"%string zeroed
           true [frame 0 20 9000 18000] (frame 0 20 9000 18000) [255; 0; 0] []
           (with_last_start_pts 9000 initial)).
  - eapply rtc_l; [|apply rtc_refl]. apply step_main. reflexivity.
  - vm_compute. reflexivity.
  - reflexivity.
Defined.

(** In that state both threads are inside [TesseractRect] and no flag is up:
    the main thread cannot take a slot. *)
Example saturated_polls :
  saturated.1 = Acquiring (frame 2 20 27000 36000) [255; 0; 0] [] /\
  alive_tids saturated.2 = [0; 1]%nat /\ recognizing_tids saturated.2 = [0; 1]%nat /\
  main_step two_slots 4 engine_ok ocr "(null)"%string zeroed saturated.1 saturated.2 = None.
Proof. vm_compute. repeat split. Qed.

(** * Further properties

    What the code shows beyond the points above: the formatter and the record
    read back, the trimming, the inverter, the counters, the join before the
    sort, the run with one thread and with none, the outcome under any
    schedule, [dump_pgm], the choice of the languages, and that every run
    comes to an end. *)

(** ** [pts2srt] and the record read back *)

Lemma digit_value_digit d : 0 <= d <= 9 -> digit_value (digit d) = Some d.
Proof.
  intros Hd. unfold digit_value, digit.
  rewrite nat_ascii_embedding by lia.
  replace (Z.of_nat (48 + Z.to_nat d)) with (48 + d) by lia.
  destruct (Z.leb_spec 48 (48 + d)); [|lia].
  destruct (Z.leb_spec (48 + d) 57); [|lia]. simpl. f_equal. lia.
Qed.

Lemma reads_as_cons d s len m :
  0 <= d <= 9 -> reads_as s len m ->
  reads_as (String (digit d) s) (S len) (d * 10 ^ Z.of_nat len + m).
Proof.
  intros Hd Hs a. cbn [dec_value_from]. rewrite digit_value_digit by exact Hd. rewrite Hs.
  f_equal. rewrite Nat2Z.inj_succ, Z.pow_succ_r by lia. ring.
Qed.

Lemma digits_reads_as fuel : forall n acc len m,
  0 <= n < 10 ^ Z.of_nat (S fuel) -> reads_as acc len m ->
  exists len', (len < len')%nat /\ reads_as (digits fuel n acc) len' (n * 10 ^ Z.of_nat len + m).
Proof.
  induction fuel as [|fuel IH]; intros n acc len m Hn Hacc.
  - cbn [digits]. exists (S len). split; [lia|].
    change (10 ^ Z.of_nat 1) with 10 in Hn.
    replace (n mod 10) with n by divlia.
    apply reads_as_cons; [lia | exact Hacc].
  - cbn [digits]. destruct (Z.eqb_spec (n / 10) 0) as [E|E].
    + exists (S len). split; [lia|].
      assert (0 <= n < 10).
      { rewrite Nat2Z.inj_succ, Z.pow_succ_r in Hn by lia. divlia. }
      replace (n mod 10) with n by divlia.
      apply reads_as_cons; [lia | exact Hacc].
    + assert (Hq : 0 <= n / 10 < 10 ^ Z.of_nat (S fuel)).
      { rewrite (Nat2Z.inj_succ (S fuel)), Z.pow_succ_r in Hn by lia.
        set (P := 10 ^ Z.of_nat (S fuel)) in *. clearbody P. divlia. }
      assert (Hd : 0 <= n mod 10 <= 9) by divlia.
      destruct (IH (n / 10) _ (S len) _ Hq (reads_as_cons _ _ _ _ Hd Hacc))
        as (len' & Hl & Hr).
      exists len'. split; [lia|].
      intros a. rewrite Hr. f_equal.
      rewrite Nat2Z.inj_succ, Z.pow_succ_r by lia.
      set (P := 10 ^ Z.of_nat len). clearbody P.
      assert (n = 10 * (n / 10) + n mod 10) by (apply Z.div_mod; lia).
      set (q := n / 10) in *. set (r := n mod 10) in *. clearbody q r. subst n. ring.
Qed.

Lemma digits_nonempty fuel n acc : digits fuel n acc <> EmptyString.
Proof.
  revert n acc. induction fuel as [|fuel IH]; intros n acc; cbn [digits]; [discriminate|].
  destruct (n / 10 =? 0); [discriminate | apply IH].
Qed.

Lemma dec_value_decimal n :
  0 <= n < 10 ^ 21 -> dec_value (decimal n) = Some n.
Proof.
  intros Hn. unfold decimal.
  destruct (digits_reads_as 20 n EmptyString 0 0) as (len & _ & Hr).
  - change (Z.of_nat 21) with 21. exact Hn.
  - intros a. cbn [dec_value_from]. f_equal. change (10 ^ Z.of_nat 0) with 1. lia.
  - unfold dec_value. pose proof (digits_nonempty 20 n EmptyString) as Hne.
    destruct (digits 20 n EmptyString) eqn:E; [contradiction|].
    rewrite Hr. f_equal. lia.
Qed.

Lemma pts2srt_shape pts :
  is_unsigned pts ->
  pts2srt pts =
    (fmt_d 2 (pts / 90 / 3600000) ++ ":" ++ fmt_d 2 (pts / 90 mod 3600000 / 60000) ++ ":" ++
     fmt_d 2 (pts / 90 mod 60000 / 1000) ++ "," ++ fmt_d 3 (pts / 90 mod 1000))%string /\
  0 <= pts / 90 / 3600000 < 60 /\ 0 <= pts / 90 mod 3600000 / 60000 < 60 /\
  0 <= pts / 90 mod 60000 / 1000 < 60 /\ 0 <= pts / 90 mod 1000 < 1000.
Proof.
  intros Hp. pose proof (pts2srt_fields_spec pts Hp) as Hf.
  unfold is_unsigned, UINT_MAX in Hp.
  assert (Ht : 0 <= pts / 90 <= 47721858) by divlia.
  set (total := pts / 90) in *. clearbody total.
  assert (Hh : 0 <= total / 3600000 < 60) by divlia.
  assert (Hm : 0 <= total mod 3600000 / 60000 < 60) by divlia.
  assert (Hs : 0 <= total mod 60000 / 1000 < 60) by divlia.
  assert (Hms : 0 <= total mod 1000 < 1000) by divlia.
  split; [|auto].
  destruct (two_digits _ Hh) as [Lh _], (two_digits _ Hm) as [Lm _],
    (two_digits _ Hs) as [Ls _], (three_digits _ Hms) as [Lms _].
  unfold pts2srt. rewrite Hf. unfold snprintf. rewrite !as_int_small by lia.
  apply substring_whole.
  rewrite !string_length_app, Lh, Lm, Ls, Lms. simpl. lia.
Qed.

Lemma string_length_2 (s : string) :
  String.length s = 2%nat -> exists x y, s = String x (String y EmptyString).
Proof. destruct s as [|x [|y [|z s]]]; try discriminate. eauto. Qed.

Lemma string_length_3 (s : string) :
  String.length s = 3%nat -> exists x y z, s = String x (String y (String z EmptyString)).
Proof. destruct s as [|x [|y [|z [|w s]]]]; try discriminate. eauto. Qed.

Lemma srt2ms_fields (a b c d : string) (h m s ms : Z) :
  String.length a = 2%nat -> String.length b = 2%nat ->
  String.length c = 2%nat -> String.length d = 3%nat ->
  dec_value a = Some h -> dec_value b = Some m ->
  dec_value c = Some s -> dec_value d = Some ms ->
  srt2ms (a ++ ":" ++ b ++ ":" ++ c ++ "," ++ d)%string =
    Some (h * 3600000 + m * 60000 + s * 1000 + ms) /\
  String.length (a ++ ":" ++ b ++ ":" ++ c ++ "," ++ d)%string = 12%nat.
Proof.
  intros La Lb Lc Ld Va Vb Vc Vd.
  destruct (string_length_2 a La) as (a1 & a2 & ->).
  destruct (string_length_2 b Lb) as (b1 & b2 & ->).
  destruct (string_length_2 c Lc) as (c1 & c2 & ->).
  destruct (string_length_3 d Ld) as (d1 & d2 & d3 & ->).
  split; [|reflexivity].
  unfold srt2ms.
  cbn [append substring String.length].
  rewrite Va, Vb, Vc, Vd. reflexivity.
Qed.

Lemma srt2ms_pts2srt (pts : Z) :
  is_unsigned pts ->
  srt2ms (pts2srt pts) = Some (pts / 90) /\ String.length (pts2srt pts) = 12%nat.
Proof.
  intros Hp. destruct (pts2srt_shape pts Hp) as (E & Hh & Hm & Hs & Hms).
  destruct (two_digits _ Hh) as [Lh Vh], (two_digits _ Hm) as [Lm Vm],
    (two_digits _ Hs) as [Ls Vs], (three_digits _ Hms) as [Lms Vms].
  rewrite E.
  destruct (srt2ms_fields _ _ _ _ _ _ _ _ Lh Lm Ls Lms Vh Vm Vs Vms) as [R L].
  split; [|exact L]. rewrite R. f_equal. divlia.
Qed.

(** X1.  [pts2srt] loses nothing but the fraction of a millisecond: for every
    [unsigned] time stamp the text has 12 characters, and read back as
    [HH:MM:SS,mmm] it gives [pts / 90] milliseconds. *)
Theorem pts2srt_reads_back (pts : Z) :
  is_unsigned pts ->
  srt2ms (pts2srt pts) = Some (pts / 90) /\ String.length (pts2srt pts) = 12%nat.
Proof. apply srt2ms_pts2srt. Qed.

Lemma pts2srt_reads_back_witness :
  srt2ms (pts2srt 123456789) = Some (123456789 / 90) /\
  String.length (pts2srt 123456789) = 12%nat.
Proof. apply (pts2srt_reads_back 123456789). unfold is_unsigned, UINT_MAX. lia. Defined.

(** X2.  Two time stamps are printed alike exactly when they fall into the
    same millisecond. *)
Theorem pts2srt_same_text_iff (a b : Z) :
  is_unsigned a -> is_unsigned b ->
  (pts2srt a = pts2srt b <-> a / 90 = b / 90).
Proof.
  intros Ha Hb. split.
  - intros E. destruct (srt2ms_pts2srt a Ha) as [Ra _].
    destruct (srt2ms_pts2srt b Hb) as [Rb _]. rewrite E in Ra. congruence.
  - intros E. unfold pts2srt, pts2srt_fields. now rewrite E.
Qed.

Lemma pts2srt_same_text_iff_witness :
  pts2srt 9000 = pts2srt 9089 <-> 9000 / 90 = 9089 / 90.
Proof. apply (pts2srt_same_text_iff 9000 9089); unfold is_unsigned, UINT_MAX; lia. Defined.

Lemma digits_all_digits fuel : forall n acc,
  0 <= n -> all_digits acc -> all_digits (digits fuel n acc).
Proof.
  induction fuel as [|fuel IH]; intros n acc Hn Hacc; cbn [digits].
  - split; [|exact Hacc]. unfold is_digit. rewrite digit_value_digit by divlia. eauto.
  - assert (Hd : all_digits (String (digit (n mod 10)) acc)).
    { split; [|exact Hacc]. unfold is_digit. rewrite digit_value_digit by divlia. eauto. }
    destruct (n / 10 =? 0); [exact Hd|]. apply IH; [divlia | exact Hd].
Qed.

Lemma nl_not_digit : ~ is_digit (ascii_of_nat 10).
Proof. intros [d Hd]. discriminate Hd. Qed.

Lemma digits_then_nl (a b r r' : string) :
  all_digits a -> all_digits b ->
  (a ++ String (ascii_of_nat 10) r)%string = (b ++ String (ascii_of_nat 10) r')%string ->
  a = b.
Proof.
  revert b. induction a as [|c a IH]; intros [|c' b] Ha Hb E; simpl in *.
  - reflexivity.
  - injection E as E _. subst c'. destruct Hb as [Hb _]. now destruct nl_not_digit.
  - injection E as E _. subst c. destruct Ha as [Ha _]. now destruct nl_not_digit.
  - injection E as -> E. f_equal. apply (IH b); tauto.
Qed.

Lemma fmt_u_reads_back v : is_unsigned v -> dec_value (fmt_u v) = Some v.
Proof.
  unfold is_unsigned, UINT_MAX. intros Hv. apply dec_value_decimal.
  split; [lia|]. change (10 ^ 21) with 1000000000000000000000. lia.
Qed.

(** X3.  A record of the output begins with its counter in decimal and a
    line feed, the counter reads back from these digits, and two records with
    the same text have the same counter. *)
Theorem record_index_reads_back (null_text : string) (x : sub_text_t) :
  is_unsigned (counter x) ->
  dec_value (fmt_u (counter x)) = Some (counter x) /\
  (exists rest, srt_record null_text x = (fmt_u (counter x) ++ nl ++ rest)%string) /\
  forall y, is_unsigned (counter y) ->
    srt_record null_text y = srt_record null_text x -> counter y = counter x.
Proof.
  intros Hx. split; [now apply fmt_u_reads_back|]. split; [unfold srt_record; eauto|].
  intros y Hy E. unfold srt_record, nl in E. cbn [append] in E.
  apply digits_then_nl in E.
  - pose proof (fmt_u_reads_back _ Hx) as Vx. pose proof (fmt_u_reads_back _ Hy) as Vy.
    rewrite E in Vy. congruence.
  - apply digits_all_digits; [apply Hy | exact I].
  - apply digits_all_digits; [apply Hx | exact I].
Qed.

Lemma record_index_reads_back_witness :
  dec_value (fmt_u 4096) = Some 4096 /\
  (exists rest, srt_record "(null)" (mk_sub_text 4096 0 90 None) =
                  (fmt_u 4096 ++ nl ++ rest)%string) /\
  forall y, is_unsigned (counter y) ->
    srt_record "(null)" y = srt_record "(null)" (mk_sub_text 4096 0 90 None) ->
    counter y = 4096.
Proof.
  apply (record_index_reads_back "(null)" (mk_sub_text 4096 0 90 None)).
  unfold is_unsigned, UINT_MAX. simpl. lia.
Defined.

(** ** The trimming in [do_ocr] *)

Lemma drop_space_split (r : list ascii) :
  exists w, r = w ++ drop_space r /\ Forall (fun c => isspace c = true) w /\
            (forall c, head (drop_space r) = Some c -> isspace c = false).
Proof.
  induction r as [|c r (w & E & Hw & Hh)]; simpl.
  - exists []. repeat split; auto. intros c [=].
  - destruct (isspace c) eqn:Hc.
    + exists (c :: w). split; [simpl; now f_equal|]. split; [now constructor | exact Hh].
    + exists []. split; [reflexivity|]. split; [constructor|]. intros c' [= <-]. exact Hc.
Qed.

Lemma string_of_list_ascii_app (a b : list ascii) :
  string_of_list_ascii (a ++ b) = (string_of_list_ascii a ++ string_of_list_ascii b)%string.
Proof. induction a as [|c a IH]; simpl; [reflexivity | now rewrite IH]. Qed.

Lemma trim_spec (s : string) :
  exists w, s = (trim s ++ w)%string /\
            Forall (fun c => isspace c = true) (chars w) /\
            (forall c, last (chars (trim s)) = Some c -> isspace c = false).
Proof.
  unfold trim, chars.
  destruct (drop_space_split (rev (list_ascii_of_string s))) as (w & E & Hw & Hh).
  exists (string_of_list_ascii (rev w)). split; [|split].
  - rewrite <- string_of_list_ascii_app, <- rev_app_distr, <- E, rev_involutive.
    now rewrite string_of_list_ascii_of_string.
  - rewrite list_ascii_of_string_of_list_ascii. now apply Forall_rev.
  - intros c. rewrite list_ascii_of_string_of_list_ascii, rev_alt.
    change (rev_append ?l []) with (reverse l). rewrite last_reverse. apply Hh.
Qed.

(** X4.  The text that [do_ocr] keeps is the engine's text without the white
    space at its end: the part cut off is white space only, what is kept does
    not end in white space, and trimming it again changes nothing.  A null
    result of the engine stays null. *)
Theorem recognized_text_is_trimmed
    (TesseractRect : nat -> list Z -> Z -> Z -> Z -> option string) (j : job) :
  match TesseractRect (j_api j) (j_image_cpy j) (j_stride j) (j_width j) (j_height j) with
  | Some raw =>
      exists txt w,
        (ocr_recognize TesseractRect j).1 = Some txt /\
        raw = (txt ++ w)%string /\
        Forall (fun c => isspace c = true) (chars w) /\
        (forall c, last (chars txt) = Some c -> isspace c = false) /\
        trim txt = txt
  | None => (ocr_recognize TesseractRect j).1 = None
  end.
Proof.
  unfold ocr_recognize.
  destruct (TesseractRect _ _ _ _ _) as [raw|]; [|reflexivity].
  destruct (trim_spec raw) as (w & E & Hw & Hl).
  exists (trim raw), w. simpl. repeat split; auto.
  (* trimming again changes nothing *)
  unfold trim at 1.
  destruct (drop_space_split (rev (list_ascii_of_string (trim raw)))) as (w' & E' & Hw' & _).
  destruct w' as [|c w'].
  - simpl in E'. rewrite <- E', rev_involutive. apply string_of_list_ascii_of_string.
  - exfalso. assert (Hc : isspace c = true) by (now inversion Hw').
    assert (Hlast : last (chars (trim raw)) = Some c).
    { unfold chars. rewrite <- (rev_involutive (list_ascii_of_string (trim raw))), E'.
      rewrite rev_alt. change (rev_append ?l []) with (reverse l).
      now rewrite last_reverse. }
    rewrite (Hl _ Hlast) in Hc. discriminate.
Qed.

(** ** [ImageInverter] *)

(** X5.  [ImageInverter] keeps the size and makes a black and white picture:
    a byte below 127 comes out as 255, every other byte as 0.  On a picture
    of bytes 0 and 255 inverting twice gives the picture back. *)
Theorem ImageInverter_black_and_white (image : list Z) :
  length (ImageInverter image) = length image /\
  (forall i px, image !! i = Some px ->
     ImageInverter image !! i = Some (if px <? 127 then 255 else 0)) /\
  Forall (fun q => q = 0 \/ q = 255) (ImageInverter image) /\
  (Forall (fun q => q = 0 \/ q = 255) image -> ImageInverter (ImageInverter image) = image).
Proof.
  unfold ImageInverter. split; [apply length_map|]. split; [|split].
  - intros i px Hpx. change (map invert_pixel image) with (invert_pixel <$> image).
    rewrite list_lookup_fmap, Hpx. simpl. f_equal. unfold invert_pixel.
    destruct (Z.gtb_spec (255 - px) 128), (Z.ltb_spec px 127); auto; lia.
  - induction image as [|px image IH]; simpl; constructor; auto.
    unfold invert_pixel. destruct (255 - px >? 128); auto.
  - induction 1 as [|px image Hpx _ IH]; simpl; [reflexivity|].
    rewrite IH. f_equal. destruct Hpx as [-> | ->]; reflexivity.
Qed.

(** ** The sort and the order of arrival *)

(** X6.  With counters that differ, the sorted vector does not depend on
    the order in which the threads appended their results: any two sorts that
    keep the library's contract, run on two arrangements of the same results,
    end with the same vector. *)
Theorem sort_outcome_independent_of_arrival (l1 l2 out1 out2 : list sub_text_t) :
  NoDup (map counter l1) -> Permutation l1 l2 ->
  sort_post sort_fct l1 out1 -> sort_post sort_fct l2 out2 ->
  out1 = out2 /\ sort sort_fct l1 = sort sort_fct l2.
Proof.
  intros Hnd Hp.
  assert (Hnd2 : NoDup (map counter l2)) by now rewrite <- (Permutation_map counter Hp).
  assert (K : forall o1 o2, sort_post sort_fct l1 o1 -> sort_post sort_fct l2 o2 -> o1 = o2).
  { intros o1 o2 H1 H2.
    destruct (any_sort_strict _ _ Hnd H1) as [S1 _].
    destruct (any_sort_strict _ _ Hnd2 H2) as [S2 _].
    apply (StronglySorted_unique_strong counter_lt); auto.
    - intros x1 x2 _ _ A B. unfold counter_lt in *. lia.
    - destruct H1 as [P1 _], H2 as [P2 _]. now rewrite <- P1, Hp. }
  intros H1 H2. split; [now apply K|].
  apply K; apply sort_meets_contract; (apply sort_fct_asym || apply sort_fct_trans).
Qed.

Lemma sort_outcome_independent_of_arrival_witness :
  let a := mk_sub_text 1 0 9000 (Some "a"%string) in
  let b := mk_sub_text 2 9000 UINT_MAX None in
  let c := mk_sub_text 3 18000 27000 (Some "c"%string) in
  sort sort_fct [c; a; b] = sort sort_fct [b; c; a] /\
  sort sort_fct [c; a; b] = sort sort_fct [b; c; a].
Proof.
  intros a b c.
  apply (sort_outcome_independent_of_arrival [c; a; b] [b; c; a]).
  - apply (bool_decide_unpack _). vm_compute. reflexivity.
  - change [c; a; b] with ([c; a] ++ [b]). change [b; c; a] with ([b] ++ [c; a]).
    apply Permutation_app_comm.
  - apply sort_meets_contract; [apply sort_fct_asym | apply sort_fct_trans].
  - apply sort_meets_contract; [apply sort_fct_asym | apply sort_fct_trans].
Defined.

(** ** The counters, the join and the runs with one thread and with none *)

Lemma first_counters_S n : first_counters (S n) = first_counters n ++ [Z.of_nat (S n)].
Proof. unfold first_counters. now rewrite seq_S, map_app. Qed.

Lemma first_counters_lookup n i :
  (i < n)%nat -> first_counters n !! i = Some (Z.of_nat i + 1).
Proof.
  intros Hi. unfold first_counters.
  change (map Z.of_nat (seq 1 n)) with (Z.of_nat <$> seq 1 n).
  rewrite list_lookup_fmap, lookup_seq_lt by exact Hi. simpl. f_equal. lia.
Qed.

Lemma first_counters_sorted n : StronglySorted Z.lt (first_counters n).
Proof.
  apply StronglySorted_lookup. intros i j a b Hij Ha Hb.
  assert (Hj : (j < n)%nat).
  { apply lookup_lt_Some in Hb. unfold first_counters in Hb.
    now rewrite length_map, length_seq in Hb. }
  rewrite first_counters_lookup in Ha by lia. rewrite first_counters_lookup in Hb by lia.
  simplify_eq. lia.
Qed.

Lemma first_counters_NoDup n : NoDup (first_counters n).
Proof.
  unfold first_counters. change (map Z.of_nat (seq 1 n)) with (Z.of_nat <$> seq 1 n).
  apply NoDup_fmap_2; [intros a b; lia | apply NoDup_seq].
Qed.

Lemma first_counters_range n c : c ∈ first_counters n -> 1 <= c <= Z.of_nat n.
Proof.
  intros Hc. apply list_elem_of_lookup_1 in Hc as [i Hi].
  assert (Hl : (i < n)%nat).
  { apply lookup_lt_Some in Hi. unfold first_counters in Hi.
    now rewrite length_map, length_seq in Hi. }
  rewrite first_counters_lookup in Hi by exact Hl. simplify_eq. lia.
Qed.

Lemma concat_map_insert_same {A B} (f : A -> list B) (l : list A) i x y :
  l !! i = Some x -> f y = f x -> concat (map f (<[i := y]> l)) = concat (map f l).
Proof.
  revert i. induction l as [|a l IH]; intros [|i] Hx Hf; simpl in *; try discriminate.
  - simplify_eq. now rewrite Hf.
  - f_equal. now apply IH.
Qed.

Lemma concat_map_insert_nil {A B} (f : A -> list B) (l : list A) i x y :
  l !! i = Some x -> f y = [] -> concat (map f l) ≡ₚ f x ++ concat (map f (<[i := y]> l)).
Proof.
  revert i. induction l as [|a l IH]; intros [|i] Hx Hf; simpl in *; try discriminate.
  - simplify_eq. now rewrite Hf.
  - rewrite (IH i Hx Hf). rewrite !app_assoc. apply Permutation_app_tail, Permutation_app_comm.
Qed.

Lemma all_returned_hold_nothing {B} (f : thread -> list B) (l : list thread) :
  f Returned = [] ->
  (forall tid th, l !! tid = Some th -> th = Returned) ->
  concat (map f l) = [].
Proof.
  intros Hf. induction l as [|th l IH]; intros H; [reflexivity|]. simpl.
  rewrite (H 0%nat th eq_refl), Hf. simpl. apply IH.
  intros tid th' Hth. apply (H (S tid)). exact Hth.
Qed.

Section Counters.

Variable opts : options.
Variable hardware_concurrency : Z.
Variable tess_Init : nat -> bool.
Variable TesseractRect : nat -> list Z -> Z -> Z -> Z -> option string.
Variable null_text : string.
Variable past_end : nat -> sub_text_t.

Local Abbreviation N := (pool_size opts hardware_concurrency).
Local Abbreviation main_step :=
  (main_step opts hardware_concurrency tess_Init TesseractRect null_text past_end).
Local Abbreviation step :=
  (step opts hardware_concurrency tess_Init TesseractRect null_text past_end).
Local Abbreviation reachable :=
  (reachable opts hardware_concurrency tess_Init TesseractRect null_text past_end).
Local Abbreviation thread_step := (thread_step TesseractRect).
Local Abbreviation dispatch := (dispatch opts hardware_concurrency TesseractRect).
Local Abbreviation acquire := (acquire opts hardware_concurrency tess_Init).
Local Abbreviation reconcile := (reconcile opts null_text past_end).
Local Abbreviation write_srt := (write_srt opts null_text past_end).
Local Abbreviation pool_inv := (pool_inv opts hardware_concurrency).

Lemma thread_step_issued tid st st' :
  thread_step tid st = Some st' -> issued st' ≡ₚ issued st.
Proof.
  unfold vobsub2srt.thread_step, issued. intros H.
  destruct (spawned st !! tid) as [[j|slot r|slot|]|] eqn:Hth; try discriminate.
  - destruct (ocr_recognize TesseractRect j) as [text evs]. simplify_eq. simpl.
    now rewrite (concat_map_insert_same in_flight _ _ _ _ Hth).
  - simplify_eq. simpl. rewrite map_app. simpl.
    rewrite (concat_map_insert_nil in_flight _ _ _ (Finishing slot) Hth eq_refl).
    simpl. now rewrite <- app_assoc.
  - simplify_eq. simpl.
    rewrite (concat_map_insert_same in_flight _ _ _ _ Hth) by reflexivity.
    unfold ocr_store_done. now destruct (threads st !! slot).
Qed.

Lemma dispatch_issued i p image st st' :
  dispatch i p image st = Some st' ->
  issued st' ≡ₚ issued st ++ [sub_counter st] /\
  sub_counter st' = wrap (sub_counter st + 1).
Proof.
  intros H. destruct (threads st !! i) as [s|] eqn:Hs.
  2:{ unfold vobsub2srt.dispatch in H. rewrite Hs in H. discriminate. }
  destruct (decide (N = 1)) as [HN|HN].
  - destruct (dispatch_inline opts hardware_concurrency TesseractRect i p image st s HN Hs)
      as (st2 & Hd & _ & E2 & E3 & _ & E5).
    rewrite Hd in H. simplify_eq. split; [|exact E5].
    unfold issued. rewrite E2, E3, map_app. simpl.
    rewrite <- !app_assoc. apply Permutation_app_head, Permutation_app_comm.
  - destruct (dispatch_spawn opts hardware_concurrency TesseractRect i p image st s HN Hs)
      as (st2 & Hd & _ & E2 & E3 & _ & E5).
    rewrite Hd in H. simplify_eq. split; [|exact E5].
    unfold issued. rewrite E2, E3, map_app, concat_app. simpl.
    now rewrite app_assoc.
Qed.

Lemma write_srt_counters subs :
  map counter (write_srt subs).1.1 = map counter subs.
Proof.
  pose proof (write_loop_inv opts null_text past_end subs (length subs) ltac:(lia)) as H.
  unfold vobsub2srt.write_srt.
  destruct (for_loop (length subs) (write_body opts null_text past_end) (subs, [], []))
    as [[v out] oob].
  destruct H as (Hlen & _ & Hv & _). simpl.
  apply list_eq. intros i.
  change (map counter v) with (counter <$> v). change (map counter subs) with (counter <$> subs).
  rewrite !list_lookup_fmap.
  destruct (subs !! i) as [x|] eqn:Hx.
  - rewrite (Hv _ _ Hx). apply lookup_lt_Some in Hx.
    destruct (Nat.ltb_spec i (length subs)); [|lia]. simpl. f_equal.
    unfold fixed. destruct (fixes_end opts subs i x); reflexivity.
  - apply lookup_ge_None in Hx. rewrite lookup_ge_None_2 by lia. reflexivity.
Qed.

Lemma reconcile_issued st : issued (reconcile st) ≡ₚ issued st.
Proof.
  unfold issued, vobsub2srt.reconcile.
  pose proof (write_srt_counters (sort sort_fct (conv_subs st))) as H.
  destruct (write_srt (sort sort_fct (conv_subs st))) as [[v out] oob]. simpl in *.
  rewrite H. apply Permutation_app_tail, Permutation_map. symmetry. apply sort_perm.
Qed.

(** *** The counters *)

Section Bounded.

Variable packets : list packet.
Hypothesis few_packets : Z.of_nat (length packets) < UINT_MAX.

Lemma main_step_counters c st c' st' :
  main_step c st = Some (c', st') ->
  counters_inv packets (c, st) -> counters_inv packets (c', st').
Proof.
  intros H (n & Hsc & Hn & Hiss). simpl in *.
  destruct c as [[|p input]|p image input|i|code|]; simpl in H, Hn.
  - simplify_eq. exists n. simpl. repeat split; auto; lia.
  - pose proof (frame_gate_frame opts st p) as K. cbv zeta in K.
    destruct K as (_ & K2 & K3 & K4 & _).
    destruct (frame_gate opts st p) as [st1 [img|]]; simpl in *; simplify_eq;
      exists n; unfold issued; simpl; rewrite K2, K3, K4; repeat split; auto; lia.
  - destruct (acquire st) as [k st1|st1| |] eqn:Ha; simplify_eq.
    + apply acquire_slot_keeps in Ha as (A1 & _ & A3 & A4 & _).
      assert (Hiss1 : issued st1 = issued st) by (unfold issued; now rewrite A1, A4).
      destruct (dispatch k p image st1) as [st2|] eqn:Hd; simplify_eq.
      * apply dispatch_issued in Hd as [D1 D2].
        exists (S n). simpl. split; [|split].
        -- rewrite D2, A3, Hsc. unfold wrap. unfold UINT_MAX in few_packets.
           rewrite Z.mod_small by lia. lia.
        -- lia.
        -- rewrite D1, Hiss1, Hiss, A3, Hsc. now rewrite first_counters_S.
      * exists n. simpl. rewrite Hiss1, A3. repeat split; auto; lia.
    + apply acquire_fatal in Ha. subst. exists n. simpl. repeat split; auto; lia.
    + exists n. simpl. repeat split; auto; lia.
  - destruct (reconcile_keeps opts null_text past_end st) as (_ & R2 & _).
    repeat case_match; simplify_eq; exists n; simpl; repeat split; auto; try lia.
    now rewrite reconcile_issued.
  - discriminate.
  - discriminate.
Qed.

Lemma reachable_counters opened cs :
  reachable opened packets cs -> counters_inv packets cs.
Proof.
  unfold vobsub2srt.reachable. intros H.
  refine (rtc_ind_r (counters_inv packets) _ _ _ _ H).
  - exists 0%nat. unfold start. destruct opened; simpl; repeat split; auto; lia.
  - intros y z _ Hs IH.
    inversion Hs as [c0 st0 c1 st1 Hm|c0 st0 tid st1 Hrun Ht]; subst.
    + eapply main_step_counters; eauto.
    + destruct IH as (n & Hsc & Hn & Hiss). exists n. simpl in *.
      rewrite (thread_step_issued _ _ _ Ht).
      apply thread_step_keeps in Ht as (_ & -> & _). auto.
Qed.

(** X7.  No counter is given out twice: at every point of every run the
    results in [conv_subs] have counters that differ, all of them at least 1
    and below [sub_counter] (for fewer than [UINT_MAX] packets, so that
    [sub_counter] does not wrap). *)
Theorem counters_never_repeat (opened : bool) (cs : control * state) :
  reachable opened packets cs ->
  NoDup (map counter (conv_subs cs.2)) /\
  forall r, r ∈ conv_subs cs.2 -> 1 <= counter r < sub_counter cs.2.
Proof.
  intros H. destruct (reachable_counters _ _ H) as (n & Hsc & _ & Hiss).
  assert (Hnd : NoDup (issued cs.2)) by (rewrite Hiss; apply first_counters_NoDup).
  unfold issued in *. split.
  - now apply NoDup_app in Hnd as (Hnd & _).
  - intros r Hr.
    assert (Hin : counter r ∈ first_counters n).
    { rewrite <- Hiss. apply elem_of_app. left.
      change (map counter (conv_subs cs.2)) with (counter <$> conv_subs cs.2).
      now apply list_elem_of_fmap_2. }
    apply first_counters_range in Hin. lia.
Qed.

End Bounded.

(** *** The join before the sort *)

Lemma thread_step_returned tid st st' tid0 :
  thread_step tid st = Some st' ->
  spawned st !! tid0 = Some Returned -> spawned st' !! tid0 = Some Returned.
Proof.
  unfold vobsub2srt.thread_step. intros H H0.
  destruct (spawned st !! tid) as [[j|slot r|slot|]|] eqn:Hth; try discriminate.
  - destruct (ocr_recognize TesseractRect j) as [text evs]. simplify_eq. simpl.
    rewrite list_lookup_insert_ne; [exact H0 | congruence].
  - simplify_eq. simpl. rewrite list_lookup_insert_ne; [exact H0 | congruence].
  - simplify_eq. simpl. rewrite list_lookup_insert_ne; [|congruence].
    unfold ocr_store_done. now destruct (threads st !! slot).
Qed.

Lemma thread_step_slot tid st st' k s' :
  thread_step tid st = Some st' -> threads st' !! k = Some s' ->
  exists s, threads st !! k = Some s /\ t s' = t s.
Proof.
  unfold vobsub2srt.thread_step. intros H Hk.
  destruct (spawned st !! tid) as [[j|slot r|slot|]|] eqn:Hth; try discriminate.
  - destruct (ocr_recognize TesseractRect j) as [text evs]. simplify_eq. simpl in Hk. eauto.
  - simplify_eq. simpl in Hk. eauto.
  - simplify_eq. simpl in Hk. unfold ocr_store_done in Hk.
    destruct (threads st !! slot) as [s0|] eqn:Hs0; simpl in Hk; [|eauto].
    destruct (decide (k = slot)) as [->|Hne].
    + rewrite list_lookup_insert_eq in Hk by (eapply lookup_lt_Some; eauto).
      simplify_eq. eauto.
    + rewrite list_lookup_insert_ne in Hk by auto. eauto.
Qed.

Lemma thread_step_joined tid st st' i :
  thread_step tid st = Some st' -> joined i st -> joined i st'.
Proof.
  intros H J k s' tid0 Hk Hs' Ht.
  destruct (thread_step_slot _ _ _ _ _ H Hs') as (s & Hs & E).
  eapply thread_step_returned; [exact H|].
  apply (J k s tid0 Hk Hs). congruence.
Qed.

Lemma main_step_drain c st c' st' :
  main_step c st = Some (c', st') -> drain_inv (c, st) -> drain_inv (c', st').
Proof.
  intros H [J1 J2]. simpl in *.
  destruct c as [[|p input]|p image input|i|code|]; simpl in H.
  - simplify_eq. split; simpl; [|discriminate]. intros i [= <-] k s tid Hk. lia.
  - destruct (frame_gate opts st p) as [st1 [img|]]; simplify_eq; split; simpl; discriminate.
  - destruct (acquire st) as [k st1|st1| |]; simplify_eq.
    + destruct (dispatch k p image st1); simplify_eq; split; simpl; discriminate.
    + split; simpl; discriminate.
    + split; simpl; discriminate.
  - specialize (J1 i eq_refl).
    destruct (threads st !! i) as [s|] eqn:Hs.
    + assert (K : forall tid, t s = Some tid -> spawned st !! tid = Some Returned ->
                  joined (S i) st).
      { intros tid Ht Hr k s0 tid0 Hk Hs0 Ht0.
        destruct (decide (k = i)) as [->|Hne]; [congruence|].
        apply (J1 k s0 tid0); auto. lia. }
      destruct (t s) as [tid|] eqn:Ht.
      * destruct (spawned st !! tid) as [[]|] eqn:Hth; simplify_eq;
          split; simpl; try discriminate.
        intros i' [= <-]. now apply (K tid).
      * simplify_eq. split; simpl; [|discriminate].
        intros i' [= <-] k s0 tid0 Hk Hs0 Ht0.
        destruct (decide (k = i)) as [->|Hne]; [congruence|].
        apply (J1 k s0 tid0); auto. lia.
    + simplify_eq. split; simpl; [discriminate|]. intros _.
      destruct (reconcile_keeps opts null_text past_end st) as (_ & _ & R3 & R4).
      rewrite R3. intros k s tid Hk Hs' Ht. rewrite R3 in Hs'. rewrite R4.
      apply (J1 k s tid); auto. apply lookup_ge_None in Hs. lia.
  - discriminate.
  - discriminate.
Qed.

Lemma reachable_drain opened packets cs : reachable opened packets cs -> drain_inv cs.
Proof.
  unfold vobsub2srt.reachable. intros H.
  refine (rtc_ind_r drain_inv _ _ _ _ H).
  - unfold start. destruct opened; split; simpl; discriminate.
  - intros y z _ Hs IH.
    inversion Hs as [c0 st0 c1 st1 Hm|c0 st0 tid st1 Hrun Ht]; subst.
    + eapply main_step_drain; eauto.
    + destruct IH as [J1 J2]. simpl in *. split; simpl.
      * intros i Hi. eapply thread_step_joined; eauto.
      * intros ->. discriminate Hrun.
Qed.

(** Where [main] returns 0 it has come through the joining loop. *)
Lemma exit0_after_join opened packets st :
  reachable opened packets (Exited 0, st) ->
  exists i st0, reachable opened packets (Joining i, st0) /\
                threads st0 !! i = None /\ st = reconcile st0.
Proof.
  unfold vobsub2srt.reachable. intros H.
  apply rtc_inv_r in H as [E|((c0 & st0) & Hr & Hs)].
  - unfold start in E. destruct opened; discriminate.
  - inversion Hs as [c1 st1 c2 st2 Hm|c1 st1 tid st2 Hrun Ht]; subst.
    + destruct c0 as [[|p input]|p image input|i|code|]; simpl in Hm.
      * discriminate.
      * destruct (frame_gate opts st0 p) as [st1 [img|]]; discriminate.
      * destruct (acquire st0) as [k st1|st1| |]; try discriminate.
        destruct (dispatch k p image st1); discriminate.
      * destruct (threads st0 !! i) as [s|] eqn:Hs0.
        -- repeat case_match; discriminate.
        -- simplify_eq. eauto.
      * discriminate.
      * discriminate.
    + discriminate Hrun.
Qed.

Section Finished.

Hypothesis N_range : 1 <= N <= UINT_MAX.

(** Past the joining loop nothing is in flight. *)
Lemma joined_all_returned st :
  pool_inv st -> joined (length (threads st)) st ->
  forall tid th, spawned st !! tid = Some th -> th = Returned.
Proof.
  intros (_ & _ & Hc & _) J tid th Hth.
  destruct (alive th) eqn:Hal; [|destruct th; try discriminate; reflexivity].
  destruct (Hc _ _ Hth Hal) as (i & s & _ & Hs & Ht & _).
  assert (Hr : spawned st !! tid = Some Returned).
  { apply (J i s tid); auto. eapply lookup_lt_Some; eauto. }
  congruence.
Qed.

(** X8.  The sort of line 447 starts only after every thread has returned:
    where [main] has returned 0 no thread is alive, and the state goes back,
    through the sort and the writing loop, to a state of the joining loop in
    which every thread had returned. *)
Theorem sort_waits_for_every_thread (opened : bool) (packets : list packet) (st : state) :
  reachable opened packets (Exited 0, st) ->
  (forall tid th, spawned st !! tid = Some th -> th = Returned) /\
  alive_tids st = [] /\
  exists st0 i,
    reachable opened packets (Joining i, st0) /\ st = reconcile st0 /\
    (forall tid th, spawned st0 !! tid = Some th -> th = Returned).
Proof.
  intros H.
  destruct (exit0_after_join _ _ _ H) as (i & st0 & Hr & Hi & ->).
  destruct (reachable_inv opts hardware_concurrency tess_Init TesseractRect null_text past_end
              N_range _ _ _ Hr) as [Hinv _].
  destruct (reachable_drain _ _ _ Hr) as [J _]. simpl in *.
  specialize (J i eq_refl).
  assert (Jall : joined (length (threads st0)) st0).
  { intros k s tid Hk. apply J. apply lookup_ge_None in Hi. lia. }
  pose proof (joined_all_returned st0 Hinv Jall) as Hall.
  destruct (reconcile_keeps opts null_text past_end st0) as (_ & _ & _ & R4).
  split; [rewrite R4; exact Hall|]. split; [|eauto].
  unfold alive_tids. rewrite R4.
  induction (seq 0 (length (spawned st0))) as [|tid l IH]; [reflexivity|].
  rewrite filter_cons. destruct (decide _) as [Hd|_]; [|exact IH].
  unfold thread_is in Hd. rewrite R4 in Hd.
  destruct (spawned st0 !! tid) as [th|] eqn:Hth; [|discriminate].
  rewrite (Hall _ _ Hth) in Hd. discriminate.
Qed.

Lemma sorted_counters (l : list sub_text_t) n :
  map counter l ≡ₚ first_counters n -> map counter (sort sort_fct l) = first_counters n.
Proof.
  intros Hp.
  apply (StronglySorted_unique_strong Z.le).
  - intros; lia.
  - apply (StronglySorted_fmap counter (not_after sort_fct) Z.le).
    + intros x y. unfold not_after, sort_fct. intros Hxy. apply Z.ltb_ge in Hxy. exact Hxy.
    + apply sort_sorted; [apply sort_fct_asym | apply sort_fct_trans].
  - pose proof (first_counters_sorted n) as S.
    apply (StronglySorted_fmap id Z.lt Z.le) in S; [|simpl; intros; lia].
    now rewrite list_fmap_id in S.
  - rewrite <- Hp. apply Permutation_map. symmetry. apply sort_perm.
Qed.

Lemma fixed_counter subs i x : counter (fixed opts past_end subs i x) = counter x.
Proof. unfold fixed. now destruct (fixes_end opts subs i x). Qed.

Lemma drained_at_join opened packets i st0 :
  reachable opened packets (Joining i, st0) -> threads st0 !! i = None ->
  forall tid th, spawned st0 !! tid = Some th -> th = Returned.
Proof.
  intros Hr Hi.
  destruct (reachable_inv opts hardware_concurrency tess_Init TesseractRect null_text past_end
              N_range _ _ _ Hr) as [Hinv _].
  destruct (reachable_drain _ _ _ Hr) as [J _]. simpl in *.
  specialize (J i eq_refl).
  apply (joined_all_returned st0 Hinv).
  intros k s tid Hk. apply J. apply lookup_ge_None in Hi. lia.
Qed.

(** X9.  The records of the output are numbered 1, 2, ..., [n] without a gap
    and in this order, whatever the order in which the threads finished;
    [n] is the number of frames that were handed out, and [sub_counter] ends
    as [n + 1]. *)
Theorem records_are_numbered_from_one (opened : bool) (packets : list packet) (st : state) :
  Z.of_nat (length packets) < UINT_MAX ->
  reachable opened packets (Exited 0, st) ->
  exists n,
    (n <= length packets)%nat /\
    sub_counter st = Z.of_nat n + 1 /\
    map counter (conv_subs st) = first_counters n /\
    length (srtout st) = n /\
    forall i, (i < n)%nat ->
      exists x, srtout st !! i = Some (srt_record null_text x) /\ counter x = Z.of_nat i + 1.
Proof.
  intros Hfew H.
  destruct (exit0_after_join _ _ _ H) as (i & st0 & Hr & Hi & ->).
  destruct (reachable_counters packets Hfew _ _ Hr) as (n & Hsc & Hn & Hiss). simpl in *.
  pose proof (drained_at_join _ _ _ _ Hr Hi) as Hall.
  unfold issued in Hiss. rewrite (all_returned_hold_nothing in_flight _ eq_refl Hall), app_nil_r in Hiss.
  pose proof (sorted_counters _ _ Hiss) as Hsorted.
  set (subs := sort sort_fct (conv_subs st0)) in *.
  assert (Hlen : length subs = n).
  { rewrite <- (length_map counter subs), Hsorted. unfold first_counters.
    now rewrite length_map, length_seq. }
  assert (Hc : forall k x, subs !! k = Some x -> counter x = Z.of_nat k + 1).
  { intros k x Hx.
    assert (Hk : (k < n)%nat) by (rewrite <- Hlen; eapply lookup_lt_Some; eauto).
    pose proof (first_counters_lookup n k Hk) as E. rewrite <- Hsorted in E.
    change (map counter subs) with (counter <$> subs) in E.
    rewrite list_lookup_fmap, Hx in E. simpl in E. congruence. }
  pose proof (write_srt_spec opts null_text past_end subs) as W.
  pose proof (write_loop_inv opts null_text past_end subs (length subs) ltac:(lia)) as L.
  unfold vobsub2srt.reconcile. fold subs.
  unfold vobsub2srt.write_srt in *.
  destruct (for_loop (length subs) (write_body opts null_text past_end) (subs, [], []))
    as [[v out] oob].
  destruct W as (Wlen & Wout & Wv & _). destruct L as (Lv & _). simpl.
  exists n. split; [lia|]. split; [lia|]. split; [|split; [congruence|]].
  - apply list_eq. intros k.
    change (map counter v) with (counter <$> v). rewrite list_lookup_fmap.
    destruct (subs !! k) as [x|] eqn:Hx.
    + rewrite (Wv _ _ Hx). simpl. rewrite fixed_counter, (Hc _ _ Hx).
      symmetry. apply first_counters_lookup. rewrite <- Hlen. eapply lookup_lt_Some; eauto.
    + apply lookup_ge_None in Hx.
      assert (Hv : v !! k = None).
      { apply lookup_ge_None. lia. }
      rewrite Hv. simpl. symmetry. apply lookup_ge_None.
      unfold first_counters. rewrite length_map, length_seq. lia.
  - intros k Hk.
    destruct (lookup_lt_is_Some_2 subs k ltac:(lia)) as [x Hx].
    exists (fixed opts past_end subs k x). split; [now apply Wout|].
    rewrite fixed_counter. now apply Hc.
Qed.

End Finished.

(** *** One thread *)

Lemma run_main_snoc fuel c st c1 st1 cs2 :
  vobsub2srt.run_main opts hardware_concurrency tess_Init TesseractRect null_text past_end
    fuel c st = (c1, st1) ->
  main_step c1 st1 = Some cs2 ->
  vobsub2srt.run_main opts hardware_concurrency tess_Init TesseractRect null_text past_end
    (S fuel) c st = cs2.
Proof.
  revert c st. induction fuel as [|fuel IH]; intros c st H Hm.
  - simpl in H. simplify_eq. simpl. rewrite Hm. now destruct cs2.
  - change (match main_step c st with
            | Some (c', st') =>
                vobsub2srt.run_main opts hardware_concurrency tess_Init TesseractRect
                  null_text past_end (S fuel) c' st'
            | None => (c, st)
            end = cs2).
    simpl in H. destruct (main_step c st) as [[c' st']|] eqn:E.
    + now apply IH.
    + simplify_eq.
Qed.

Lemma sort_of_increasing (l : list sub_text_t) :
  StronglySorted counter_lt l -> sort sort_fct l = l.
Proof.
  induction 1 as [|x l Hs IH Hx]; [reflexivity|]. simpl. rewrite IH.
  destruct l as [|y l]; [reflexivity|]. simpl.
  apply Forall_cons in Hx as [Hxy _]. unfold counter_lt in Hxy. unfold sort_fct.
  apply Z.ltb_lt in Hxy. now rewrite Hxy.
Qed.

Section Single.

Hypothesis one : N = 1.

Lemma one_range : 1 <= N <= UINT_MAX.
Proof. rewrite one. unfold UINT_MAX. lia. Qed.

Lemma single_main_moves c st :
  pool_inv st -> running c = true ->
  exists c' st', main_step c st = Some (c', st') /\
    (c' = Exited (-1) -> tess_Init 0 = false).
Proof.
  intros Hinv Hrun. pose proof Hinv as (Hle & H1 & _). destruct (H1 one) as [Hsp Ht].
  destruct c as [[|p input]|p image input|i|code|]; simpl in Hrun; try discriminate; simpl.
  - eexists _, _. split; [reflexivity | discriminate].
  - destruct (frame_gate opts st p) as [st1 [img|]];
      (eexists _, _; split; [reflexivity | discriminate]).
  - destruct (decide (Z.of_nat (length (threads st)) < N)) as [Hlt|Hge].
    + assert (Hl : length (threads st) = 0%nat) by lia.
      unfold vobsub2srt.acquire, init_tesseract.
      rewrite (as_unsigned_N opts hardware_concurrency one_range).
      apply Z.ltb_lt in Hlt. rewrite Hlt, Hl.
      destruct (tess_Init 0) eqn:Hinit.
      * unfold vobsub2srt.dispatch.
        destruct (threads st) as [|? ?]; [|discriminate]. simpl.
        eexists _, _. split; [reflexivity | discriminate].
      * eexists _, _. split; [reflexivity | reflexivity].
    + rewrite (acquire_single opts hardware_concurrency tess_Init one_range st one Hge).
      unfold vobsub2srt.dispatch.
      destruct (threads st !! 0%nat) as [s|] eqn:Hs.
      * eexists _, _. split; [reflexivity | discriminate].
      * apply lookup_ge_None in Hs. lia.
  - destruct (threads st !! i) as [s|] eqn:Hs.
    + rewrite (Ht _ _ Hs). eexists _, _. split; [reflexivity | discriminate].
    + eexists _, _. split; [reflexivity | discriminate].
Qed.

(** X10.  With [max_threads == 1] no thread is ever started: every move of
    the program is a move of the main thread, so every state of a run is a
    state of the one sequential run, and the main thread never waits. *)
Theorem one_thread_runs_in_program_order (opened : bool) (packets : list packet)
    (cs : control * state) :
  reachable opened packets cs ->
  spawned cs.2 = [] /\
  (exists k, cs = vobsub2srt.run_main opts hardware_concurrency tess_Init TesseractRect
                    null_text past_end k (start opened packets).1 (start opened packets).2) /\
  (forall cs', step cs cs' -> main_step cs.1 cs.2 = Some cs') /\
  (running cs.1 = true -> is_Some (main_step cs.1 cs.2)).
Proof.
  intros H.
  assert (Hsp : forall cs, reachable opened packets cs -> spawned cs.2 = []).
  { intros cs0 H0.
    destruct (reachable_inv opts hardware_concurrency tess_Init TesseractRect null_text
                past_end one_range _ _ _ H0) as [(_ & H1 & _) _].
    now destruct (H1 one). }
  assert (Hst : forall cs cs', reachable opened packets cs -> step cs cs' ->
                  main_step cs.1 cs.2 = Some cs').
  { intros cs0 cs1 H0 Hs.
    inversion Hs as [c0 st0 c1 st1 Hm|c0 st0 tid st1 Hrun Ht]; subst; simpl; [exact Hm|].
    rewrite (no_thread_no_step TesseractRect tid st0 (Hsp _ H0)) in Ht. discriminate. }
  split; [now apply Hsp|]. split; [|split; [intros cs' Hs; exact (Hst _ _ H Hs)|]].
  - revert H. unfold vobsub2srt.reachable. intros H.
    refine (rtc_ind_r (fun cs => exists k, cs = vobsub2srt.run_main opts hardware_concurrency
              tess_Init TesseractRect null_text past_end k (start opened packets).1
              (start opened packets).2) _ _ _ _ H).
    + exists 0%nat. simpl. now destruct (start opened packets).
    + intros y z Hy Hs [k Hk]. exists (S k).
      pose proof (Hst _ _ Hy Hs) as Hm. destruct y as [c1 st1]. simpl in Hm.
      symmetry. eapply run_main_snoc; eauto.
  - intros Hrun.
    destruct (reachable_inv opts hardware_concurrency tess_Init TesseractRect null_text
                past_end one_range _ _ _ H) as [Hinv _].
    destruct (single_main_moves _ _ Hinv Hrun) as (c' & st' & Hm & _). eauto.
Qed.


Lemma reconcile_counters st :
  map counter (conv_subs (reconcile st)) = map counter (sort sort_fct (conv_subs st)).
Proof.
  pose proof (write_srt_counters (sort sort_fct (conv_subs st))) as H.
  unfold vobsub2srt.reconcile.
  now destruct (write_srt (sort sort_fct (conv_subs st))) as [[v out] oob].
Qed.

Lemma increasing_counters (l : list sub_text_t) n :
  map counter l = first_counters n -> StronglySorted counter_lt l.
Proof.
  intros H. apply StronglySorted_lookup. intros i j a b Hij Ha Hb. unfold counter_lt.
  assert (Hl : length l = n).
  { rewrite <- (length_map counter l), H. unfold first_counters.
    now rewrite length_map, length_seq. }
  assert (K : forall k x, l !! k = Some x -> counter x = Z.of_nat k + 1).
  { intros k x Hx.
    assert (Hk : (k < n)%nat) by (rewrite <- Hl; eapply lookup_lt_Some; eauto).
    pose proof (first_counters_lookup n k Hk) as E. rewrite <- H in E.
    change (map counter l) with (counter <$> l) in E.
    rewrite list_lookup_fmap, Hx in E. simpl in E. congruence. }
  rewrite (K _ _ Ha), (K _ _ Hb). lia.
Qed.

(** X11.  With [max_threads == 1] the results arrive in the order of their
    counters: [conv_subs] holds the counters 1, ..., [n] in this order at every
    point, and the sort of line 447 leaves it as it is. *)
Theorem one_thread_results_arrive_sorted (opened : bool) (packets : list packet)
    (cs : control * state) :
  Z.of_nat (length packets) < UINT_MAX ->
  reachable opened packets cs ->
  (exists n, sub_counter cs.2 = Z.of_nat n + 1 /\
             map counter (conv_subs cs.2) = first_counters n) /\
  sort sort_fct (conv_subs cs.2) = conv_subs cs.2.
Proof.
  intros Hfew H.
  assert (K : exists n, sub_counter cs.2 = Z.of_nat n + 1 /\
                        map counter (conv_subs cs.2) = first_counters n).
  { revert H. unfold vobsub2srt.reachable. intros H.
    refine (rtc_ind_r (fun cs => exists n, sub_counter cs.2 = Z.of_nat n + 1 /\
              map counter (conv_subs cs.2) = first_counters n) _ _ _ _ H).
    - exists 0%nat. unfold start. destruct opened; simpl; auto.
    - intros y z Hy Hs (n & Hsc & Hc).
      destruct (reachable_counters packets Hfew opened y Hy) as (n' & Hsc' & Hn' & _).
      destruct (reachable_inv opts hardware_concurrency tess_Init TesseractRect null_text
                  past_end one_range _ _ _ Hy) as [Hinv _].
      inversion Hs as [c0 st0 c1 st1 Hm|c0 st0 tid st1 Hrun Ht]; subst; simpl in *.
      + destruct c0 as [[|p input]|p image input|i|code|]; simpl in Hm.
        * simplify_eq. eauto.
        * pose proof (frame_gate_frame opts st0 p) as F. cbv zeta in F.
          destruct F as (_ & _ & F3 & F4 & _).
          destruct (frame_gate opts st0 p) as [st2 [img|]]; simplify_eq; simpl in *;
            exists n; rewrite F3, F4; auto.
        * destruct (acquire st0) as [k st2|st2| |] eqn:Ha; simplify_eq.
          -- destruct (acquire_slot_keeps opts hardware_concurrency tess_Init _ _ _ Ha)
               as (_ & _ & A3 & A4 & _).
             destruct (threads st2 !! k) as [s|] eqn:Hk.
             ++ destruct (dispatch_inline opts hardware_concurrency TesseractRect k p image
                            st2 s one Hk) as (st3 & Hd & _ & _ & D3 & _ & D5).
                rewrite Hd in Hm. simplify_eq. exists (S n).
                rewrite D5, D3, A3, A4, Hsc, map_app, Hc, first_counters_S. simpl.
                rewrite A3, Hsc. split; [|f_equal; f_equal; lia].
                simpl in Hn'. rewrite wrap_small; unfold UINT_MAX in *; lia.
             ++ unfold vobsub2srt.dispatch in Hm. rewrite Hk in Hm. simplify_eq.
                exists n. rewrite A3, A4. auto.
          -- rewrite (acquire_fatal opts hardware_concurrency tess_Init _ _ Ha). simpl. eauto.
          -- eauto.
        * destruct (threads st0 !! i) as [s|] eqn:Hs0.
          -- repeat case_match; simplify_eq; eauto.
          -- simplify_eq. exists n.
             destruct (reconcile_keeps opts null_text past_end st0) as (_ & R2 & _).
             rewrite R2, reconcile_counters.
             split; [exact Hsc|]. apply sorted_counters. now rewrite Hc.
        * discriminate.
        * discriminate.
      + destruct Hinv as (_ & H1 & _). destruct (H1 one) as [Hsp _].
        rewrite (no_thread_no_step TesseractRect tid st0 Hsp) in Ht. discriminate. }
  split; [exact K|]. destruct K as (n & _ & Hc).
  apply sort_of_increasing. eapply increasing_counters; eauto.
Qed.

End Single.

(** *** No thread at all *)

Section Zero.

Hypothesis zero : N = 0.

Lemma zero_acquire st : threads st = [] -> acquire st = Poll.
Proof.
  intros Ht. unfold vobsub2srt.acquire. rewrite zero, Ht. reflexivity.
Qed.

Lemma zero_reachable opened packets cs :
  reachable opened packets cs ->
  threads cs.2 = [] /\ spawned cs.2 = [] /\ conv_subs cs.2 = [] /\ sub_counter cs.2 = 1.
Proof.
  unfold vobsub2srt.reachable. intros H.
  refine (rtc_ind_r (fun cs => threads cs.2 = [] /\ spawned cs.2 = [] /\
                               conv_subs cs.2 = [] /\ sub_counter cs.2 = 1) _ _ _ _ H).
  - unfold start. destruct opened; simpl; auto.
  - intros y z _ Hs (I1 & I2 & I3 & I4).
    inversion Hs as [c0 st0 c1 st1 Hm|c0 st0 tid st1 Hrun Ht]; subst; simpl in *.
    + destruct c0 as [[|p input]|p image input|i|code|]; simpl in Hm.
      * simplify_eq. auto.
      * pose proof (frame_gate_frame opts st0 p) as F. cbv zeta in F.
        destruct F as (F1 & F2 & F3 & F4 & _).
        destruct (frame_gate opts st0 p) as [st2 [img|]]; simplify_eq; simpl in *;
          rewrite F1, F2, F3, F4; auto.
      * rewrite (zero_acquire st0 I1) in Hm. discriminate.
      * rewrite I1, lookup_nil in Hm. simplify_eq.
        destruct (reconcile_keeps opts null_text past_end st0) as (_ & R2 & R3 & R4).
        rewrite R2, R3, R4. repeat split; auto.
        unfold vobsub2srt.reconcile. rewrite I3. reflexivity.
      * discriminate.
      * discriminate.
    + rewrite (no_thread_no_step TesseractRect tid st0 I2) in Ht. discriminate.
Qed.

(** X13.  With a pool of size 0 ([--max-threads 0], the default, where
    [hardware_concurrency()] returns 0) the first frame that needs a slot
    stops the program for good: there is no slot to add, none to reuse and no
    thread to wait for, and the loop of lines 400-410 polls forever. *)
Theorem zero_threads_first_frame_waits_forever (opened : bool) (packets : list packet)
    (p : packet) (image : list Z) (input : list packet) (st : state) :
  reachable opened packets (Acquiring p image input, st) ->
  threads st = [] /\ spawned st = [] /\ sub_counter st = 1 /\
  acquire st = Poll /\
  forall cs, ~ step (Acquiring p image input, st) cs.
Proof.
  intros H. destruct (zero_reachable _ _ _ H) as (I1 & I2 & _ & I4). simpl in *.
  split; [exact I1|]. split; [exact I2|]. split; [exact I4|].
  split; [now apply zero_acquire|].
  intros cs Hs.
  inversion Hs as [c0 st0 c1 st1 Hm|c0 st0 tid st1 Hrun Ht]; subst; simpl in *.
  - rewrite (zero_acquire st I1) in Hm. discriminate.
  - rewrite (no_thread_no_step TesseractRect tid st I2) in Ht. discriminate.
Qed.

End Zero.

End Counters.

(** ** The outcome under any schedule *)

(** Whether a frame is accepted depends on the state through
    [last_start_pts] only. *)
Lemma frame_gate_ext opts st st' p :
  last_start_pts st = last_start_pts st' ->
  (frame_gate opts st p).2 = (frame_gate opts st' p).2 /\
  last_start_pts (frame_gate opts st p).1 = last_start_pts (frame_gate opts st' p).1.
Proof.
  intros E. unfold vobsub2srt.frame_gate. rewrite E.
  destruct (timestamp p >=? 0); [|now simpl].
  destruct (pk_start_pts p =? last_start_pts st'); [now simpl|].
  cbv zeta.
  destruct ((width p <? as_unsigned (min_width opts)) ||
            (height p <? as_unsigned (min_height opts))); [now simpl|].
  destruct (verb opts && negb (as_unsigned (timestamp p) =? pk_start_pts p)),
    (dump_images opts); now simpl.
Qed.

Lemma frames_ext opts input : forall st st',
  last_start_pts st = last_start_pts st' -> frames opts st input = frames opts st' input.
Proof.
  induction input as [|p input IH]; intros st st' E; [reflexivity|]. simpl.
  destruct (frame_gate_ext opts st st' p E) as [E1 E2].
  destruct (frame_gate opts st p) as [st1 r1], (frame_gate opts st' p) as [st1' r1'].
  simpl in *. subst r1'. rewrite (IH st1 st1' E2). reflexivity.
Qed.

Lemma frames_length opts input : forall st,
  (length (frames opts st input) <= length input)%nat.
Proof.
  induction input as [|p input IH]; intros st; simpl; [lia|].
  destruct (frame_gate opts st p) as [st1 [img|]]; simpl; specialize (IH st1); lia.
Qed.

Lemma results_counters opts TesseractRect input :
  map counter (results opts TesseractRect input) =
  first_counters (length (frames opts initial input)).
Proof.
  unfold results. apply list_eq. intros k.
  change (map counter ?l) with (counter <$> l).
  rewrite list_lookup_fmap, list_lookup_imap.
  destruct (frames opts initial input !! k) as [f|] eqn:Hf; simpl.
  - symmetry. rewrite first_counters_lookup; [reflexivity|]. eapply lookup_lt_Some; eauto.
  - symmetry. apply lookup_ge_None. apply lookup_ge_None in Hf.
    unfold first_counters. now rewrite length_map, length_seq.
Qed.

Lemma take_drop_next {A} (l : list A) n x r :
  drop n l = x :: r -> take (S n) l = take n l ++ [x] /\ drop (S n) l = r /\ (n < length l)%nat.
Proof.
  intros H.
  assert (Hx : l !! n = Some x).
  { rewrite <- (Nat.add_0_r n), <- lookup_drop, H. reflexivity. }
  split; [now apply take_S_r|]. split.
  - replace (S n) with (n + 1)%nat by lia. rewrite <- drop_drop, H. reflexivity.
  - eapply lookup_lt_Some; eauto.
Qed.

Section Schedule.

Variable opts : options.
Variable hardware_concurrency : Z.
Variable tess_Init : nat -> bool.
Variable TesseractRect : nat -> list Z -> Z -> Z -> Z -> option string.
Variable null_text : string.
Variable past_end : nat -> sub_text_t.

Local Abbreviation N := (pool_size opts hardware_concurrency).
Local Abbreviation main_step :=
  (main_step opts hardware_concurrency tess_Init TesseractRect null_text past_end).
Local Abbreviation step :=
  (step opts hardware_concurrency tess_Init TesseractRect null_text past_end).
Local Abbreviation reachable :=
  (reachable opts hardware_concurrency tess_Init TesseractRect null_text past_end).
Local Abbreviation thread_step := (thread_step TesseractRect).
Local Abbreviation dispatch := (dispatch opts hardware_concurrency TesseractRect).
Local Abbreviation acquire := (acquire opts hardware_concurrency tess_Init).
Local Abbreviation reconcile := (reconcile opts null_text past_end).
Local Abbreviation write_srt := (write_srt opts null_text past_end).
Local Abbreviation pool_inv := (pool_inv opts hardware_concurrency).
Local Abbreviation frames := (frames opts).
Local Abbreviation result := (result opts TesseractRect).
Local Abbreviation results := (results opts TesseractRect).
Local Abbreviation owed := (owed TesseractRect).
Local Abbreviation produced := (produced TesseractRect).
Local Abbreviation rest := (rest opts).
Local Abbreviation outcome_inv := (outcome_inv opts TesseractRect).

Lemma thread_step_produced tid st st' :
  thread_step tid st = Some st' -> produced st' ≡ₚ produced st.
Proof.
  unfold vobsub2srt.thread_step, produced. intros H.
  destruct (spawned st !! tid) as [[j|slot r|slot|]|] eqn:Hth; try discriminate.
  - destruct (ocr_recognize TesseractRect j) as [text evs] eqn:Ho. simplify_eq. simpl.
    rewrite (concat_map_insert_same owed _ _ _ _ Hth); [reflexivity|].
    simpl. now rewrite Ho.
  - simplify_eq. simpl.
    rewrite (concat_map_insert_nil owed _ _ _ (Finishing slot) Hth eq_refl).
    simpl. now rewrite <- app_assoc.
  - simplify_eq. simpl.
    rewrite (concat_map_insert_same owed _ _ _ _ Hth) by reflexivity.
    unfold ocr_store_done. now destruct (threads st !! slot).
Qed.

Lemma dispatch_produced i p image st st' s :
  threads st !! i = Some s ->
  dispatch i p image st = Some st' ->
  produced st' ≡ₚ
    produced st ++ [ocr_result (new_job opts s i p image st)
                      (ocr_recognize TesseractRect (new_job opts s i p image st)).1] /\
  sub_counter st' = wrap (sub_counter st + 1) /\
  last_start_pts st' = last_start_pts st.
Proof.
  intros Hs H.
  destruct (dispatch_keeps opts hardware_concurrency TesseractRect _ _ _ _ _ H) as (K1 & _ & K3).
  destruct (decide (N = 1)) as [HN|HN].
  - destruct (dispatch_inline opts hardware_concurrency TesseractRect i p image st s HN Hs)
      as (st2 & Hd & _ & E2 & E3 & _ & E5).
    rewrite Hd in H. simplify_eq. split; [|auto].
    unfold produced. rewrite E2, E3.
    rewrite <- !app_assoc. apply Permutation_app_head, Permutation_app_comm.
  - destruct (dispatch_spawn opts hardware_concurrency TesseractRect i p image st s HN Hs)
      as (st2 & Hd & _ & E2 & E3 & _ & E5).
    rewrite Hd in H. simplify_eq. split; [|auto].
    unfold produced. rewrite E2, E3, map_app, concat_app. simpl.
    now rewrite app_assoc.
Qed.

Section Engines.

(** With [keep] the texts are compared too, and then the engines must read
    alike (lines 395-396 set each of them up with the same arguments). *)
Variable keep : bool.
Hypothesis same_engine : keep = true -> forall a b image stride width height,
  TesseractRect a image stride width height = TesseractRect b image stride width height.

Variable packets : list packet.
Hypothesis few_packets : Z.of_nat (length packets) < UINT_MAX.

Lemma result_of_job s i p image st n :
  sub_counter st = Z.of_nat n + 1 ->
  blur keep (ocr_result (new_job opts s i p image st)
               (ocr_recognize TesseractRect (new_job opts s i p image st)).1) =
  blur keep (result n (p, image)).
Proof.
  intros Hsc. unfold blur, result, new_job, ocr_recognize, ocr_result. simpl. rewrite Hsc.
  destruct keep.
  - rewrite (same_engine eq_refl (tess_base_api s) 0).
    now destruct (TesseractRect 0 image (stride p) (width p) (height p)).
  - reflexivity.
Qed.

Lemma main_step_outcome c st c' st' :
  main_step c st = Some (c', st') ->
  outcome_inv keep packets (c, st) -> outcome_inv keep packets (c', st').
Proof.
  intros H Hinv Hc'. simpl in *.
  assert (Hc : c <> Exited 0) by (intros ->; discriminate).
  destruct (Hinv Hc) as (n & Hsc & Hn & Hp & Hr). simpl in *. clear Hinv.
  destruct c as [[|p input]|p image input|i|code|]; simpl in H.
  - simplify_eq. exists n. simpl in *.
    split; [auto|]. split; [auto|]. split; [auto|]. intros r [= <-]. now apply Hr.
  - pose proof (frame_gate_frame opts st p) as K. cbv zeta in K.
    destruct K as (_ & K2 & K3 & K4 & _).
    specialize (Hr _ eq_refl). simpl in Hr.
    destruct (frame_gate opts st p) as [st1 [img|]]; simpl in *; simplify_eq;
      exists n; unfold produced; simpl; rewrite K2, K3, K4;
      (split; [auto|]; split; [auto|]; split; [auto|]); intros r [= <-]; exact Hr.
  - destruct (acquire st) as [k st1|st1| |] eqn:Ha; simplify_eq.
    + apply acquire_slot_keeps in Ha as (A1 & A2 & A3 & A4 & _).
      assert (Hp1 : produced st1 = produced st)
        by (unfold produced; now rewrite A1, A4).
      destruct (threads st1 !! k) as [s|] eqn:Hk.
      2:{ unfold vobsub2srt.dispatch in H. rewrite Hk in H. simplify_eq.
          exists n. simpl. rewrite Hp1, A3. repeat split; auto. intros r [=]. }
      destruct (dispatch k p image st1) as [st2|] eqn:Hd; simplify_eq.
      2:{ unfold vobsub2srt.dispatch in Hd. rewrite Hk in Hd. discriminate. }
      destruct (dispatch_produced _ _ _ _ _ _ Hk Hd) as (D1 & D2 & D3).
      rewrite A3 in D2.
      destruct (take_drop_next _ _ _ _ (Hr _ eq_refl)) as (T1 & T2 & T3).
      pose proof (frames_length opts packets initial) as Hfl.
      exists (S n). simpl. split; [|split; [lia|split]].
      * rewrite D2, Hsc. unfold UINT_MAX in few_packets. rewrite wrap_small; unfold UINT_MAX; lia.
      * rewrite D1, Hp1, map_app, Hp. simpl.
        rewrite (result_of_job s k p image st1 n) by congruence.
        unfold results.
        assert (Hx : frames initial packets !! n = Some (p, image)).
        { rewrite <- (Nat.add_0_r n), <- lookup_drop, (Hr _ eq_refl). reflexivity. }
        rewrite (take_S_r (map (blur keep) (imap result (frames initial packets))) n
                   (blur keep (result n (p, image)))); [reflexivity|].
        change (map (blur keep) ?l) with (blur keep <$> l).
        rewrite list_lookup_fmap, list_lookup_imap, Hx. reflexivity.
      * intros r [= <-]. rewrite T2. apply frames_ext. congruence.
    + exists n. apply acquire_fatal in Ha. subst. simpl. repeat split; auto. intros r [=].
    + exists n. simpl. repeat split; auto. intros r [=].
  - specialize (Hr _ eq_refl).
    repeat case_match; simplify_eq; try (now destruct Hc');
      exists n; simpl; repeat split; auto; intros r [=]; subst; auto.
  - discriminate.
  - discriminate.
Qed.

Lemma reachable_outcome opened cs :
  reachable opened packets cs -> outcome_inv keep packets cs.
Proof.
  unfold vobsub2srt.reachable. intros H.
  refine (rtc_ind_r (outcome_inv keep packets) _ _ _ _ H).
  - intros _. exists 0%nat. unfold start.
    destruct opened; simpl; (split; [reflexivity|]; split; [lia|]; split; [reflexivity|]).
    + intros r [= <-]. reflexivity.
    + intros r [=].
  - intros y z _ Hs IH.
    inversion Hs as [c0 st0 c1 st1 Hm|c0 st0 tid st1 Hrun Ht]; subst.
    + eapply main_step_outcome; eauto.
    + intros Hc. destruct (IH Hc) as (n & Hsc & Hn & Hp & Hr). exists n. simpl in *.
      rewrite (thread_step_produced _ _ _ Ht).
      destruct (thread_step_keeps TesseractRect _ _ _ Ht) as (K1 & K2 & _).
      rewrite K2. repeat split; auto.
      intros r Hrest. apply Hr. rewrite <- Hrest.
      destruct c0 as [input|p image input|i|code|]; simpl; try reflexivity;
        rewrite (frames_ext opts input st0 st1) by congruence; reflexivity.
Qed.

Hypothesis N_range : 1 <= N <= UINT_MAX.

Lemma blur_counter x : counter (blur keep x) = counter x.
Proof. unfold blur. now destruct keep. Qed.

Lemma map_counter_blur (l : list sub_text_t) : map counter (map (blur keep) l) = map counter l.
Proof. rewrite map_map. apply map_ext. intros x. apply blur_counter. Qed.

(** Once the threads are joined, the sorted vector is the list of results. *)
Lemma joined_results opened i st0 :
  reachable opened packets (Joining i, st0) -> threads st0 !! i = None ->
  map (blur keep) (sort sort_fct (conv_subs st0)) = map (blur keep) (results packets).
Proof.
  intros Hr Hi.
  destruct (reachable_outcome _ _ Hr ltac:(discriminate)) as (n & _ & Hn & Hp & Hrest).
  simpl in *. specialize (Hrest _ eq_refl).
  pose proof (drained_at_join opts hardware_concurrency tess_Init TesseractRect null_text
                past_end N_range _ _ _ _ Hr Hi) as Hall.
  unfold produced in Hp. rewrite (all_returned_hold_nothing owed _ eq_refl Hall), app_nil_r in Hp.
  assert (Hlen : length (results packets) = length (frames initial packets))
    by (unfold results; apply length_imap).
  assert (Hge : (length (frames initial packets) <= n)%nat).
  { apply (f_equal length) in Hrest. rewrite length_drop in Hrest. simpl in Hrest. lia. }
  rewrite take_ge in Hp by (rewrite length_map; lia).
  pose proof (results_counters opts TesseractRect packets) as Hrc.
  assert (Hnd : NoDup (map counter (conv_subs st0))).
  { rewrite <- map_counter_blur, (Permutation_map counter Hp), map_counter_blur, Hrc.
    apply first_counters_NoDup. }
  destruct (any_sort_strict (conv_subs st0) (sort sort_fct (conv_subs st0)) Hnd) as [S1 _].
  { apply sort_meets_contract; [apply sort_fct_asym | apply sort_fct_trans]. }
  assert (Hmono : forall x y, counter_lt x y -> counter_lt (blur keep x) (blur keep y)).
  { intros x y. unfold counter_lt. now rewrite !blur_counter. }
  apply (StronglySorted_unique_strong counter_lt).
  - intros x1 x2 _ _ A B. unfold counter_lt in *. lia.
  - apply (StronglySorted_fmap (blur keep) counter_lt counter_lt _ Hmono S1).
  - apply (StronglySorted_fmap (blur keep) counter_lt counter_lt _ Hmono).
    eapply increasing_counters. exact Hrc.
  - rewrite <- Hp. apply Permutation_map. symmetry. apply sort_perm.
Qed.

End Engines.

(** X14.  The output is a function of the input: if the engines read alike,
    every run that returns 0 has written what the writing loop makes of the
    results of the accepted frames in the order of the packets, whatever the
    number of slots and the order in which the threads moved. *)
Theorem output_does_not_depend_on_schedule (opened : bool) (packets : list packet)
    (st : state) :
  (forall a b image stride width height,
     TesseractRect a image stride width height = TesseractRect b image stride width height) ->
  Z.of_nat (length packets) < UINT_MAX ->
  1 <= N <= UINT_MAX ->
  reachable opened packets (Exited 0, st) ->
  write_srt (results packets) = (conv_subs st, srtout st, stray_reads st).
Proof.
  intros Hsame Hfew HN H.
  destruct (exit0_after_join opts hardware_concurrency tess_Init TesseractRect null_text
              past_end _ _ _ H) as (i & st0 & Hr & Hi & ->).
  pose proof (joined_results true (fun _ => Hsame) packets Hfew HN _ _ _ Hr Hi) as E.
  unfold blur in E. rewrite !map_id in E.
  unfold vobsub2srt.reconcile. rewrite E.
  now destruct (write_srt (results packets)) as [[v out] oob].
Qed.

Lemma blurred_lookup (subs subs' : list sub_text_t) i :
  map (set_text None) subs = map (set_text None) subs' ->
  match subs !! i, subs' !! i with
  | Some x, Some x' =>
      counter x = counter x' /\ start_pts x = start_pts x' /\ end_pts x = end_pts x'
  | None, None => True
  | _, _ => False
  end.
Proof.
  intros E. apply (f_equal (fun l => l !! i)) in E.
  change (map (set_text None) ?l) with (set_text None <$> l) in E.
  rewrite !list_lookup_fmap in E.
  destruct (subs !! i) as [x|], (subs' !! i) as [x'|]; simpl in E; try discriminate; [|exact I].
  injection E as E1 E2 E3. auto.
Qed.

(** The loop of lines 450-460 looks at the numbers and times only, apart
    from the text it prints. *)
Lemma write_srt_timing (subs subs' : list sub_text_t) :
  map (set_text None) subs = map (set_text None) subs' ->
  (write_srt subs).1.1 = (write_srt subs').1.1 /\
  (write_srt subs).2 = (write_srt subs').2 /\
  length (write_srt subs).1.2 = length (write_srt subs').1.2.
Proof.
  intros E.
  assert (Hlen : length subs = length subs').
  { apply (f_equal length) in E. now rewrite !length_map in E. }
  pose proof (write_srt_spec opts null_text past_end subs) as W.
  pose proof (write_srt_spec opts null_text past_end subs') as W'.
  pose proof (write_loop_inv opts null_text past_end subs (length subs) ltac:(lia)) as L.
  pose proof (write_loop_inv opts null_text past_end subs' (length subs') ltac:(lia)) as L'.
  unfold vobsub2srt.write_srt in *.
  destruct (for_loop (length subs) (write_body opts null_text past_end) (subs, [], []))
    as [[v out] oob].
  destruct (for_loop (length subs') (write_body opts null_text past_end) (subs', [], []))
    as [[v' out'] oob'].
  destruct W as (Wlen & _ & Wv & Woob), W' as (Wlen' & _ & Wv' & Woob').
  destruct L as (Lv & _), L' as (Lv' & _). simpl.
  split; [|split; [|lia]].
  - apply list_eq. intros i.
    pose proof (blurred_lookup subs subs' i E) as Hi.
    pose proof (blurred_lookup subs subs' (i + 1) E) as Hn.
    destruct (subs !! i) as [x|] eqn:Hx, (subs' !! i) as [x'|] eqn:Hx'; try contradiction.
    + rewrite (Wv _ _ Hx), (Wv' _ _ Hx'). f_equal.
      destruct Hi as (H1 & H2 & H3).
      unfold fixed, fixes_end. rewrite <- Hlen, H3.
      assert (Hs : start_pts (default (past_end (i + 1)) (subs !! (i + 1)%nat)) =
                   start_pts (default (past_end (i + 1)) (subs' !! (i + 1)%nat))).
      { destruct (subs !! (i + 1)%nat), (subs' !! (i + 1)%nat); try contradiction;
          simpl; [tauto | reflexivity]. }
      rewrite Hs.
      destruct ((end_pts x' =? UINT_MAX) || (dumb opts && (i + 1 <? length subs)%nat));
        unfold set_text, set_end_pts; simpl; congruence.
    + apply lookup_ge_None in Hx, Hx'.
      rewrite (lookup_ge_None_2 v), (lookup_ge_None_2 v') by lia. reflexivity.
  - subst oob oob'. unfold strays. rewrite <- Hlen, !last_lookup, <- Hlen.
    pose proof (blurred_lookup subs subs' (pred (length subs)) E) as Hl.
    destruct (subs !! pred (length subs)), (subs' !! pred (length subs)); try contradiction;
      [|reflexivity].
    destruct Hl as (_ & _ & ->). reflexivity.
Qed.

(** The last result is the one of the last accepted frame. *)
Lemma results_in_range (packets : list packet) :
  (write_srt (results packets)).2 = [] <->
  forall f, last (frames initial packets) = Some f -> pk_end_pts f.1 <> UINT_MAX.
Proof.
  rewrite (write_srt_in_range_iff opts null_text past_end (results packets)).
  unfold results. rewrite !last_lookup, length_imap.
  split.
  - intros K f Hf. specialize (K (result (pred (length (frames initial packets))) f)).
    rewrite list_lookup_imap, Hf in K. apply (K eq_refl).
  - intros K x Hx. rewrite list_lookup_imap in Hx.
    destruct (frames initial packets !! pred (length (frames initial packets))) as [f|] eqn:Hf;
      simpl in Hx; [|discriminate].
    injection Hx as <-. apply (K f eq_refl).
Qed.

(** After a return of 0 the numbers, the times and the reads past the end are
    those of the accepted frames. *)
Lemma returned_timing (opened : bool) (packets : list packet) (st : state) :
  Z.of_nat (length packets) < UINT_MAX ->
  1 <= N <= UINT_MAX ->
  reachable opened packets (Exited 0, st) ->
  conv_subs st = (write_srt (results packets)).1.1 /\
  stray_reads st = (write_srt (results packets)).2 /\
  length (srtout st) = length (frames initial packets).
Proof.
  intros Hfew HN H.
  destruct (exit0_after_join opts hardware_concurrency tess_Init TesseractRect null_text
              past_end _ _ _ H) as (i & st0 & Hr & Hi & ->).
  pose proof (joined_results false ltac:(discriminate) packets Hfew HN _ _ _ Hr Hi) as E.
  unfold blur in E.
  destruct (write_srt_timing _ _ E) as (T1 & T2 & T3).
  assert (Hlen : length (results packets) = length (frames initial packets))
    by (unfold results; apply length_imap).
  rewrite <- T1, <- T2, <- Hlen.
  pose proof (write_srt_spec opts null_text past_end (results packets)) as W.
  destruct (write_srt (results packets)) as [[v' out'] oob'].
  destruct W as (W1 & _). simpl in T3. rewrite <- W1, <- T3.
  unfold vobsub2srt.reconcile.
  now destruct (write_srt (sort sort_fct (conv_subs st0))) as [[v out] oob].
Qed.

(** X15.  Numbers and times of the records do not depend on the engines at
    all: after a return of 0 [conv_subs] and the reads past its end are what
    the writing loop makes of the accepted frames, there is one record for
    each accepted frame, and [conv_subs] is read past its end exactly when the
    last accepted frame has the end [UINT_MAX]. *)
Theorem numbers_and_times_do_not_depend_on_engines (opened : bool) (packets : list packet)
    (st : state) :
  Z.of_nat (length packets) < UINT_MAX ->
  1 <= N <= UINT_MAX ->
  reachable opened packets (Exited 0, st) ->
  conv_subs st = (write_srt (results packets)).1.1 /\
  stray_reads st = (write_srt (results packets)).2 /\
  length (srtout st) = length (frames initial packets) /\
  (stray_reads st = [] <->
   forall f, last (frames initial packets) = Some f -> pk_end_pts f.1 <> UINT_MAX).
Proof.
  intros Hfew HN H.
  destruct (returned_timing opened packets st Hfew HN H) as (R1 & R2 & R3).
  split; [exact R1|]. split; [exact R2|]. split; [exact R3|].
  rewrite R2. apply results_in_range.
Qed.

End Schedule.

(** ** Runs under a schedule *)

Lemma run_schedule_steps opts hardware_concurrency tess_Init TesseractRect null_text past_end
    sched : forall cs,
  rtc (step opts hardware_concurrency tess_Init TesseractRect null_text past_end)
    cs (run_schedule opts hardware_concurrency tess_Init TesseractRect null_text past_end sched cs).
Proof.
  induction sched as [|[tid|] sched IH]; intros [c st]; simpl; [apply rtc_refl| |].
  - destruct (running c) eqn:Hrun; [|apply IH].
    destruct (thread_step TesseractRect tid st) as [st'|] eqn:Ht; [|apply IH].
    eapply rtc_l; [|apply IH]. now apply step_thread with (tid := tid).
  - destruct (main_step opts hardware_concurrency tess_Init TesseractRect null_text past_end c st)
      as [[c' st']|] eqn:Hm; [|apply IH].
    eapply rtc_l; [|apply IH]. now apply step_main.
Qed.

(** ** [dump_pgm] *)

Lemma fwrite_row_inside beyond image i width :
  0 <= i -> 0 <= width -> i + width <= Z.of_nat (length image) ->
  fwrite_row beyond image i width = take (Z.to_nat width) (drop (Z.to_nat i) image).
Proof.
  intros Hi Hw Hin. unfold fwrite_row.
  apply list_eq. intros k.
  change (map ?f ?l) with (f <$> l). rewrite list_lookup_fmap.
  destruct (decide (k < Z.to_nat width)%nat) as [Hk|Hk].
  - rewrite lookup_seq_lt by exact Hk. simpl.
    rewrite lookup_take_lt by exact Hk. rewrite lookup_drop.
    destruct (lookup_lt_is_Some_2 image (Z.to_nat i + k)%nat ltac:(lia)) as [x Hx].
    now rewrite Hx.
  - rewrite lookup_seq_ge by lia. simpl. symmetry.
    apply lookup_ge_None. rewrite length_take. lia.
Qed.

Lemma dump_rows_from beyond image width stride (k : nat) : forall (r : nat) fuel,
  0 < stride -> 0 <= width <= stride ->
  Z.of_nat (length image) = stride * Z.of_nat (r + k) ->
  Z.of_nat (length image) <= UINT_MAX ->
  (k < fuel)%nat ->
  dump_rows beyond fuel image width stride (Z.of_nat r * stride) =
    Some (map (visible_row image width stride) (seq r k)).
Proof.
  induction k as [|k IH]; intros r fuel Hs Hw Hlen Hmax Hfuel.
  - destruct fuel as [|fuel]; [lia|]. simpl.
    destruct (Z.ltb_spec (Z.of_nat r * stride) (Z.of_nat (length image))) as [Hlt|_];
      [|reflexivity].
    rewrite Hlen in Hlt. replace (r + 0)%nat with r in Hlt by lia. lia.
  - destruct fuel as [|fuel]; [lia|]. cbn [dump_rows].
    destruct (Z.ltb_spec (Z.of_nat r * stride) (Z.of_nat (length image))) as [_|Hge].
    2:{ rewrite Hlen in Hge. nia. }
    assert (Hnext : wrap (Z.of_nat r * stride + stride) = Z.of_nat (S r) * stride).
    { rewrite wrap_small; [lia|]. split; [nia|]. rewrite <- Hmax, Hlen. nia. }
    rewrite Hnext, (IH (S r) fuel Hs Hw) by (auto; try lia; rewrite Hlen; f_equal; lia).
    simpl. f_equal. f_equal.
    rewrite fwrite_row_inside by (try nia; rewrite Hlen; nia).
    unfold visible_row. f_equal. f_equal. nia.
Qed.

(** X17.  For a picture of [height] rows of [stride] bytes, [dump_pgm] writes
    the header and [height] rows of [width] bytes, the row [r] being the first
    [width] bytes of the row [r] of the picture: the file holds as many bytes
    as its header says, and no byte from behind the picture. *)
Theorem dump_pgm_writes_the_picture_without_padding (beyond : nat -> Z) (fuel : nat)
    (filename : string) (counter width height stride : Z) (image : list Z) :
  0 < stride -> 0 <= width <= stride -> 0 <= height ->
  Z.of_nat (length image) = stride * height ->
  Z.of_nat (length image) <= UINT_MAX ->
  (Z.to_nat height < fuel)%nat ->
  exists f,
    dump_pgm beyond true fuel filename counter width height stride image = Some (Some f) /\
    pgm_header f = pgm_head width height /\
    pgm_rows f = map (visible_row image width stride) (seq 0 (Z.to_nat height)) /\
    length (pgm_rows f) = Z.to_nat height /\
    Forall (fun row => length row = Z.to_nat width) (pgm_rows f).
Proof.
  intros Hs Hw Hh Hlen Hmax Hfuel. unfold dump_pgm.
  pose proof (dump_rows_from beyond image width stride (Z.to_nat height) 0 fuel Hs Hw) as R.
  change (Z.of_nat 0 * stride) with 0 in R.
  rewrite R by (auto; rewrite Hlen; f_equal; lia).
  eexists. split; [reflexivity|]. simpl. split; [reflexivity|]. split; [reflexivity|].
  split; [now rewrite length_map, length_seq|].
  apply Forall_forall. intros row Hrow.
  change (map ?f ?l) with (f <$> l) in Hrow.
  apply list_elem_of_fmap in Hrow as (r & -> & Hr). apply elem_of_seq in Hr.
  unfold visible_row. rewrite length_take, length_drop.
  assert (Z.of_nat (length image) - Z.of_nat (r * Z.to_nat stride) >= width); [|lia].
  rewrite Hlen. nia.
Qed.

Lemma dump_rows_stuck beyond image width fuel :
  image <> [] -> dump_rows beyond fuel image width 0 0 = None.
Proof.
  intros Hne. induction fuel as [|fuel IH]; [reflexivity|]. cbn [dump_rows].
  destruct (Z.ltb_spec 0 (Z.of_nat (length image))) as [_|Hge].
  - change (wrap (0 + 0)) with 0. now rewrite IH.
  - destruct image; [contradiction | simpl in Hge; lia].
Qed.

(** X18.  With [stride == 0] and a picture that is not empty the loop of
    [dump_pgm] never ends ([i] stays 0), unless the file could not be opened. *)
Theorem dump_pgm_with_stride_zero_never_returns (beyond : nat -> Z) (fuel : nat)
    (filename : string) (counter width height : Z) (image : list Z) :
  image <> [] ->
  dump_pgm beyond true fuel filename counter width height 0 image = None /\
  dump_pgm beyond false fuel filename counter width height 0 image = Some None.
Proof.
  intros Hne. unfold dump_pgm. now rewrite dump_rows_stuck.
Qed.

Lemma digits_then_stop (stop : ascii) (a b r r' : string) :
  ~ is_digit stop -> all_digits a -> all_digits b ->
  (a ++ String stop r)%string = (b ++ String stop r')%string -> a = b.
Proof.
  intros Hstop. revert b. induction a as [|c a IH]; intros [|c' b] Ha Hb E; simpl in *.
  - reflexivity.
  - injection E as E _. subst c'. destruct Hb as [Hb _]. now destruct Hstop.
  - injection E as E _. subst c. destruct Ha as [Ha _]. now destruct Hstop.
  - injection E as -> E. f_equal. apply IH; tauto.
Qed.

Lemma string_app_inv_head (a b c : string) : (a ++ b)%string = (a ++ c)%string -> b = c.
Proof. induction a as [|x a IH]; simpl; [auto|]. intros [= E]. auto. Qed.

Lemma substring_prefix (n : nat) (a b : string) :
  (n <= String.length a)%nat -> substring 0 n (a ++ b) = substring 0 n a.
Proof.
  revert n. induction a as [|x a IH]; intros [|n] H; simpl in *; try reflexivity; try lia.
  - now destruct b.
  - f_equal. apply IH. lia.
Qed.

Lemma digits_length fuel : forall n acc (k : nat),
  (1 <= k)%nat -> 0 <= n < 10 ^ Z.of_nat k ->
  (String.length (digits fuel n acc) <= k + String.length acc)%nat.
Proof.
  induction fuel as [|fuel IH]; intros n acc k Hk Hn; cbn [digits]; [simpl; lia|].
  destruct (Z.eqb_spec (n / 10) 0) as [E|E]; [simpl; lia|].
  destruct k as [|[|k]]; [lia| |].
  - change (10 ^ Z.of_nat 1) with 10 in Hn. exfalso. apply E. divlia.
  - assert (Hq : 0 <= n / 10 < 10 ^ Z.of_nat (S k)).
    { rewrite (Nat2Z.inj_succ (S k)), Z.pow_succ_r in Hn by lia.
      set (P := 10 ^ Z.of_nat (S k)) in *. clearbody P. divlia. }
    specialize (IH (n / 10) (String (digit (n mod 10)) acc) (S k) ltac:(lia) Hq).
    simpl in IH. lia.
Qed.

Lemma zeros_all_digits k : all_digits (zeros k).
Proof. induction k; simpl; [exact I|]. split; [|assumption]. unfold is_digit. eauto. Qed.

Lemma all_digits_app (a b : string) : all_digits a -> all_digits b -> all_digits (a ++ b).
Proof. induction a as [|c a IH]; simpl; [auto|]. intros [? ?] ?. auto. Qed.

Lemma dec_value_from_zeros k s : dec_value_from 0 (zeros k ++ s) = dec_value_from 0 s.
Proof. induction k as [|k IH]; [reflexivity|]. cbn. exact IH. Qed.

Lemma fmt_0u_reads_back w v :
  is_unsigned v ->
  dec_value_from 0 (fmt_0u w v) = Some v /\ all_digits (fmt_0u w v) /\
  (String.length (fmt_0u w v) <= Nat.max w 10)%nat.
Proof.
  intros Hv. pose proof (fmt_u_reads_back v Hv) as Hr. unfold fmt_u in Hr.
  unfold fmt_0u. cbv zeta. split; [|split].
  - rewrite dec_value_from_zeros. unfold dec_value in Hr.
    destruct (decimal v); [discriminate | exact Hr].
  - apply all_digits_app; [apply zeros_all_digits|].
    unfold decimal. apply digits_all_digits; [apply Hv | exact I].
  - rewrite string_length_app, zeros_length.
    assert (String.length (decimal v) <= 10)%nat; [|lia].
    unfold decimal. 
    pose proof (digits_length 20 v EmptyString 10 ltac:(lia)) as L. simpl String.length in L.
    rewrite Nat.add_0_r in L. apply L.
    unfold is_unsigned, UINT_MAX in Hv. change (10 ^ Z.of_nat 10) with 10000000000. lia.
Qed.

(** X19.  The dumps of different frames go to different files as long as
    the name fits the buffer of 500 bytes (a subtitle name of at most 484
    characters); with a name of 499 characters or more every frame is dumped
    to the same file, the name cut off. *)
Theorem dump_file_names (filename : string) :
  ((String.length filename <= 484)%nat ->
   forall c1 c2, is_unsigned c1 -> is_unsigned c2 ->
     pgm_filename filename c1 = pgm_filename filename c2 -> c1 = c2) /\
  ((499 <= String.length filename)%nat ->
   forall c, pgm_filename filename c = substring 0 499 filename).
Proof.
  split.
  - intros Hlen c1 c2 H1 H2 E.
    destruct (fmt_0u_reads_back 4 c1 H1) as (R1 & D1 & L1).
    destruct (fmt_0u_reads_back 4 c2 H2) as (R2 & D2 & L2).
    unfold pgm_filename, snprintf in E.
    rewrite !substring_whole in E
      by (rewrite !string_length_app; simpl String.length; lia).
    apply string_app_inv_head in E. injection E as E.
    apply (digits_then_stop "."%char) in E; auto.
    + rewrite E in R1. congruence.
    + intros [d Hd]. discriminate Hd.
  - intros Hlen c. unfold pgm_filename, snprintf.
    apply substring_prefix. simpl. lia.
Qed.

(** ** The stream and the OCR language *)

(** X20.  Where [main] goes on after the choice of the languages: a language
    given with [--tesseract-lang] is the one used; without it the language is
    [eng] or comes from the table for the stream's language; [--lang] and
    [--index] were not both given; and an index given is the stream used and
    lies below the number of streams. *)
Theorem language_choice_respects_the_user
    (count : Z) (set_from_lang : string -> Z) (get_id : Z -> option string)
    (iso : string -> option string)
    (lang : string) (index : Z) (tess_lang_user : string) (vobsub_id0 : Z)
    (tess_lang : string) (vobsub_id : option Z) (err : list language_msg) :
  select_language count set_from_lang get_id iso lang index tess_lang_user vobsub_id0 =
    Goes_on tess_lang vobsub_id err ->
  (tess_lang_user <> EmptyString -> tess_lang = tess_lang_user) /\
  (tess_lang_user = EmptyString ->
     tess_lang = "eng"%string \/ iso lang = Some tess_lang \/
     exists lang1, get_id (default vobsub_id0 vobsub_id) = Some lang1 /\
                   iso lang1 = Some tess_lang) /\
  (lang = EmptyString \/ index < 0) /\
  (0 <= index -> is_unsigned index ->
     vobsub_id = Some index /\ index < count) /\
  (index < 0 -> lang = EmptyString -> vobsub_id = Some vobsub_id0).
Proof.
  unfold select_language. intros H.
  assert (K : is_unsigned index -> as_unsigned index = index)
    by (intros Hu; apply wrap_small; exact Hu).
  destruct (Z.geb_spec index 0), (Z.geb_spec (as_unsigned index) count),
    (Z.geb_spec vobsub_id0 0), lang, tess_lang_user; simpl in H;
    repeat case_match; simplify_eq; simpl.
  all: (split; [intros ?; congruence|]).
  all: (split; [intros ?; simplify_eq;
             first [left; reflexivity | right; left; congruence
                   | right; right; eexists; split; [eassumption | congruence]]|]).
  all: (split; [first [left; reflexivity | right; lia]|]).
  all: split.
  all: try (intros ? Hu; try lia; specialize (K Hu); split; [reflexivity | lia]).
  all: try (intros ? ?; first [reflexivity | lia | discriminate]).
Qed.

(** ** The failures reported and the records written *)

Lemma failures_app a b : failures (a ++ b) = failures a ++ failures b.
Proof. unfold failures. apply omap_app. Qed.

Lemma unread_app a b : unread (a ++ b) = unread a ++ unread b.
Proof. unfold unread. now rewrite List.filter_app, map_app. Qed.

Lemma unread_perm a b : a ≡ₚ b -> unread a ≡ₚ unread b.
Proof.
  intros H. unfold unread. apply Permutation_map.
  induction H; simpl; repeat case_match; eauto using Permutation.
Qed.

Lemma concat_map_insert_new {A B} (f : A -> list B) (l : list A) i x y :
  l !! i = Some x -> f x = [] -> concat (map f (<[i := y]> l)) ≡ₚ f y ++ concat (map f l).
Proof.
  revert i. induction l as [|a l IH]; intros [|i] Hx Hf; simpl in *; try discriminate.
  - simplify_eq. now rewrite Hf.
  - rewrite (IH i Hx Hf). rewrite !app_assoc. apply Permutation_app_tail, Permutation_app_comm.
Qed.

Section Reports.

Variable opts : options.
Variable hardware_concurrency : Z.
Variable tess_Init : nat -> bool.
Variable TesseractRect : nat -> list Z -> Z -> Z -> Z -> option string.
Variable null_text : string.
Variable past_end : nat -> sub_text_t.

Local Abbreviation N := (pool_size opts hardware_concurrency).
Local Abbreviation main_step :=
  (main_step opts hardware_concurrency tess_Init TesseractRect null_text past_end).
Local Abbreviation step :=
  (step opts hardware_concurrency tess_Init TesseractRect null_text past_end).
Local Abbreviation reachable :=
  (reachable opts hardware_concurrency tess_Init TesseractRect null_text past_end).
Local Abbreviation thread_step := (thread_step TesseractRect).
Local Abbreviation dispatch := (dispatch opts hardware_concurrency TesseractRect).
Local Abbreviation acquire := (acquire opts hardware_concurrency tess_Init).
Local Abbreviation reconcile := (reconcile opts null_text past_end).
Local Abbreviation write_srt := (write_srt opts null_text past_end).

Lemma ocr_recognize_report j :
  failures (ocr_recognize TesseractRect j).2 =
  unread [ocr_result j (ocr_recognize TesseractRect j).1].
Proof.
  unfold ocr_recognize.
  destruct (TesseractRect (j_api j) (j_image_cpy j) (j_stride j) (j_width j) (j_height j));
    simpl; [now destruct (j_verb j) | reflexivity].
Qed.

Lemma thread_step_reports tid st st' :
  thread_step tid st = Some st' -> reports_inv st -> reports_inv st'.
Proof.
  unfold vobsub2srt.thread_step, reports_inv, settled. intros H Hinv.
  destruct (spawned st !! tid) as [[j|slot r|slot|]|] eqn:Hth; try discriminate.
  - pose proof (ocr_recognize_report j) as R.
    destruct (ocr_recognize TesseractRect j) as [text evs]. simplify_eq. simpl in *.
    rewrite failures_app, Hinv, R.
    rewrite (unread_perm _ _
      (Permutation_app_head (conv_subs st)
         (concat_map_insert_new made (spawned st) tid (Recognizing j)
            (Appending (j_slot j) (ocr_result j text)) Hth eq_refl))).
    rewrite !unread_app, <- app_assoc.
    apply Permutation_app_head, Permutation_app_comm.
  - simplify_eq. simpl. rewrite Hinv.
    apply unread_perm.
    rewrite (concat_map_insert_nil made _ _ _ (Finishing slot) Hth eq_refl).
    simpl. rewrite <- app_assoc. reflexivity.
  - simplify_eq. simpl.
    rewrite (concat_map_insert_same made _ _ _ _ Hth) by reflexivity.
    unfold ocr_store_done. now destruct (threads st !! slot).
Qed.

Lemma frame_gate_failures st p :
  failures (events (frame_gate opts st p).1) = failures (events st).
Proof.
  unfold vobsub2srt.frame_gate.
  destruct (timestamp p >=? 0); [|reflexivity].
  destruct (pk_start_pts p =? last_start_pts st); [reflexivity|].
  cbv zeta.
  destruct ((width p <? as_unsigned (min_width opts)) ||
            (height p <? as_unsigned (min_height opts))).
  { simpl. rewrite failures_app. simpl. now rewrite app_nil_r. }
  destruct (verb opts && negb (as_unsigned (timestamp p) =? pk_start_pts p)),
    (dump_images opts); simpl; rewrite ?failures_app; simpl; rewrite ?app_nil_r; reflexivity.
Qed.

Lemma main_step_reports c st c' st' :
  main_step c st = Some (c', st') -> c' <> Exited 0 -> reports_inv st -> reports_inv st'.
Proof.
  unfold reports_inv, settled. intros H Hc' Hinv.
  destruct c as [[|p input]|p image input|i|code|]; simpl in H.
  - now simplify_eq.
  - pose proof (frame_gate_frame opts st p) as K. cbv zeta in K.
    destruct K as (_ & K2 & _ & K4 & _).
    pose proof (frame_gate_failures st p) as F.
    destruct (frame_gate opts st p) as [st1 [img|]]; simpl in *; simplify_eq;
      now rewrite F, K2, K4.
  - destruct (acquire st) as [k st1|st1| |] eqn:Ha; simplify_eq.
    + apply acquire_slot_keeps in Ha as (A1 & _ & _ & A4 & A5 & _).
      destruct (threads st1 !! k) as [s|] eqn:Hk.
      2:{ unfold vobsub2srt.dispatch in H. rewrite Hk in H. simplify_eq.
          now rewrite A1, A4, A5. }
      destruct (decide (N = 1)) as [HN|HN].
      * destruct (dispatch_inline opts hardware_concurrency TesseractRect k p image st1 s HN Hk)
          as (st2 & Hd & _ & E2 & E3 & E4 & _).
        rewrite Hd in H. simplify_eq.
        rewrite E2, E3, E4, failures_app, A1, A4, A5, Hinv, ocr_recognize_report.
        rewrite !unread_app. rewrite <- !app_assoc.
        apply Permutation_app_head, Permutation_app_comm.
      * destruct (dispatch_spawn opts hardware_concurrency TesseractRect k p image st1 s HN Hk)
          as (st2 & Hd & _ & E2 & E3 & E4 & _).
        rewrite Hd in H. simplify_eq.
        rewrite E2, E3, E4, map_app, concat_app, A1, A4, A5. simpl. now rewrite !app_nil_r.
    + apply acquire_fatal in Ha. subst. simpl. rewrite failures_app. simpl.
      now rewrite app_nil_r.
    + exact Hinv.
  - repeat case_match; simplify_eq; try exact Hinv.
  - discriminate.
  - discriminate.
Qed.

Lemma reachable_reports opened packets cs :
  reachable opened packets cs -> cs.1 <> Exited 0 -> reports_inv cs.2.
Proof.
  unfold vobsub2srt.reachable. intros H.
  refine (rtc_ind_r (fun cs : control * state => cs.1 <> Exited 0 -> reports_inv cs.2)
            _ _ _ _ H).
  - intros _. unfold start. destruct opened; unfold reports_inv; simpl; constructor.
  - intros y z _ Hs IH Hz.
    inversion Hs as [c0 st0 c1 st1 Hm|c0 st0 tid st1 Hrun Ht]; subst; simpl in *.
    + eapply main_step_reports; eauto. apply IH. intros ->. discriminate Hm.
    + eapply thread_step_reports; eauto.
Qed.

Lemma reconcile_events st : events (reconcile st) = events st.
Proof.
  unfold vobsub2srt.reconcile.
  now destruct (write_srt (sort sort_fct (conv_subs st))) as [[v out] oob].
Qed.

(** Among results with different counters, the counters of those without a
    text tell which they are. *)
Lemma unread_counter (l : list sub_text_t) (x : sub_text_t) :
  NoDup (map counter l) -> x ∈ l ->
  (text x = None <-> counter x ∈ unread l).
Proof.
  intros Hnd Hx. unfold unread. split.
  - intros Ht. change (map counter ?l) with (counter <$> l).
    apply list_elem_of_fmap_2. apply list_elem_of_In, List.filter_In.
    split; [now apply list_elem_of_In|]. unfold no_text. now rewrite Ht.
  - intros Hc. change (map counter ?l) with (counter <$> l) in Hc.
    apply list_elem_of_fmap in Hc as (y & Hxy & Hy).
    apply list_elem_of_In, List.filter_In in Hy as [Hy Hn].
    apply list_elem_of_In in Hy.
    assert (E : x = y).
    { apply list_elem_of_lookup_1 in Hx as [a Ha], Hy as [b Hb].
      assert (a = b).
      { apply (NoDup_lookup (map counter l) a b (counter x) Hnd);
          change (map counter l) with (counter <$> l); rewrite list_lookup_fmap.
        - now rewrite Ha.
        - rewrite Hb. simpl. now rewrite Hxy. }
      congruence. }
    subst y. unfold no_text in Hn. now destruct (text x).
Qed.

(** X21.  What is reported is what is written without a text.  A return of 0
    (fewer than [UINT_MAX] packets) comes from a state [st0] of the joining
    loop, sorted and written by lines 447-460, which print nothing on [cerr].
    The counters reported with [ERROR: OCR failed for] up to then are, each
    as often as it occurs, the counters of the results in [conv_subs] that
    have no text: a result of that vector has no text exactly when its
    counter was reported.  There is one record for each of these results, the
    record number [k] being made of the result number [k] of the sorted
    vector.  If the engines read alike, the counters reported are those of
    the accepted frames that the engine does not read, whatever the
    schedule. *)
Theorem failures_reported_are_the_records_without_text
    (opened : bool) (packets : list packet) (st : state) :
  Z.of_nat (length packets) < UINT_MAX ->
  1 <= N <= UINT_MAX ->
  reachable opened packets (Exited 0, st) ->
  exists i st0,
    reachable opened packets (Joining i, st0) /\ threads st0 !! i = None /\
    st = reconcile st0 /\
    events st = events st0 /\
    failures (events st) ≡ₚ unread (conv_subs st0) /\
    (forall x, x ∈ conv_subs st0 ->
       (text x = None <-> counter x ∈ failures (events st))) /\
    length (srtout st) = length (conv_subs st0) /\
    (forall k x, sort sort_fct (conv_subs st0) !! k = Some x ->
       exists e, srtout st !! k = Some (srt_record null_text (set_end_pts e x))) /\
    ((forall a b image stride width height,
        TesseractRect a image stride width height =
        TesseractRect b image stride width height) ->
     failures (events st) ≡ₚ unread (results opts TesseractRect packets)).
Proof.
  intros Hfew HN H.
  destruct (exit0_after_join opts hardware_concurrency tess_Init TesseractRect null_text
              past_end _ _ _ H) as (i & st0 & Hr & Hi & ->).
  exists i, st0.
  pose proof (reachable_reports _ _ _ Hr ltac:(discriminate)) as R.
  pose proof (drained_at_join opts hardware_concurrency tess_Init TesseractRect null_text
                past_end HN _ _ _ _ Hr Hi) as Hall.
  unfold reports_inv, settled in R. simpl in R.
  rewrite (all_returned_hold_nothing made _ eq_refl Hall), app_nil_r in R.
  assert (Hnd : NoDup (map counter (conv_subs st0))).
  { destruct (reachable_counters opts hardware_concurrency tess_Init TesseractRect null_text
                past_end packets Hfew _ _ Hr) as (n & _ & _ & Hiss).
    assert (Hnd : NoDup (issued st0))
      by (simpl in Hiss; rewrite Hiss; apply first_counters_NoDup).
    unfold issued in Hnd. now apply NoDup_app in Hnd as (Hnd & _). }
  split; [exact Hr|]. split; [exact Hi|]. split; [reflexivity|].
  split; [apply reconcile_events|].
  rewrite reconcile_events. split; [exact R|]. split; [|split; [|split]].
  - intros x Hx. rewrite R. now apply unread_counter.
  - pose proof (write_srt_spec opts null_text past_end (sort sort_fct (conv_subs st0))) as W.
    rewrite (Permutation_length (sort_perm sort_fct (conv_subs st0))).
    unfold vobsub2srt.reconcile.
    destruct (write_srt (sort sort_fct (conv_subs st0))) as [[v out] oob].
    now destruct W as (W1 & _).
  - intros k x Hx.
    destruct (write_srt_one_record_each opts null_text past_end _ _ _ Hx) as [e He].
    exists e. unfold vobsub2srt.reconcile.
    destruct (write_srt (sort sort_fct (conv_subs st0))) as [[v out] oob]. exact He.
  - intros Hsame.
    pose proof (joined_results opts hardware_concurrency tess_Init TesseractRect null_text
                  past_end true (fun _ => Hsame) packets Hfew HN _ _ _ Hr Hi) as E.
    unfold blur in E. rewrite !map_id in E.
    rewrite R, <- E. apply unread_perm, sort_perm.
Qed.

End Reports.

(** *** The writing loop *)

Section Contiguous.

Variable opts : options.
Variable null_text : string.
Variable past_end : nat -> sub_text_t.

(** X22.  The writing loop changes ends and texts only: counters and starts
    stay, every text is freed and set to null, with [dumb] each result ends
    where the next one starts, and without [dumb] an end that is not
    [UINT_MAX] stays as it is. *)
Theorem write_loop_keeps_starts_and_closes_gaps (subs : list sub_text_t) :
  let v := (write_srt opts null_text past_end subs).1.1 in
  map counter v = map counter subs /\
  map start_pts v = map start_pts subs /\
  Forall (fun x => text x = None) v /\
  (forall i x y, v !! i = Some x -> v !! (i + 1)%nat = Some y ->
     dumb opts = true -> end_pts x = start_pts y) /\
  (forall i x x', subs !! i = Some x -> v !! i = Some x' ->
     dumb opts = false -> end_pts x <> UINT_MAX -> end_pts x' = end_pts x).
Proof.
  pose proof (write_srt_spec opts null_text past_end subs) as W.
  pose proof (write_loop_inv opts null_text past_end subs (length subs) ltac:(lia)) as L.
  unfold vobsub2srt.write_srt in *.
  destruct (for_loop (length subs) (write_body opts null_text past_end) (subs, [], []))
    as [[v out] oob].
  destruct W as (_ & _ & Wv & _). destruct L as (Lv & _). simpl.
  assert (K : forall i x', v !! i = Some x' ->
            exists x, subs !! i = Some x /\ x' = set_text None (fixed opts past_end subs i x)).
  { intros i x' Hx'.
    destruct (lookup_lt_is_Some_2 subs i) as [x Hx];
      [rewrite <- Lv; eapply lookup_lt_Some; eauto|].
    exists x. split; [exact Hx|]. rewrite (Wv _ _ Hx) in Hx'. congruence. }
  assert (F : forall i x, counter (fixed opts past_end subs i x) = counter x /\
                          start_pts (fixed opts past_end subs i x) = start_pts x).
  { intros i x. unfold fixed. now destruct (fixes_end opts subs i x). }
  split; [|split; [|split; [|split]]].
  - apply list_eq. intros i. change (map counter ?l) with (counter <$> l).
    rewrite !list_lookup_fmap.
    destruct (subs !! i) as [x|] eqn:Hx.
    + rewrite (Wv _ _ Hx). simpl. f_equal. apply F.
    + apply lookup_ge_None in Hx. rewrite (lookup_ge_None_2 v) by lia. reflexivity.
  - apply list_eq. intros i. change (map start_pts ?l) with (start_pts <$> l).
    rewrite !list_lookup_fmap.
    destruct (subs !! i) as [x|] eqn:Hx.
    + rewrite (Wv _ _ Hx). simpl. f_equal. apply F.
    + apply lookup_ge_None in Hx. rewrite (lookup_ge_None_2 v) by lia. reflexivity.
  - apply Forall_lookup. intros i x' Hx'. destruct (K _ _ Hx') as (x & _ & ->). reflexivity.
  - intros i x' y' Hx' Hy' Hd.
    destruct (K _ _ Hx') as (x & Hx & ->). destruct (K _ _ Hy') as (y & Hy & ->).
    simpl. rewrite (proj2 (F _ y)).
    unfold fixed at 1. unfold fixes_end. rewrite Hd, Hy. simpl.
    assert (Hlt : (i + 1 <? length subs)%nat = true).
    { apply Nat.ltb_lt. eapply lookup_lt_Some; eauto. }
    rewrite Hlt, orb_true_r. reflexivity.
  - intros i x x' Hx Hx' Hd Hne.
    rewrite (Wv _ _ Hx) in Hx'. injection Hx' as <-. simpl.
    unfold fixed, fixes_end. rewrite Hd. apply Z.eqb_neq in Hne. rewrite Hne. reflexivity.
Qed.

End Contiguous.

(** ** Concrete runs for the further properties *)

Lemma counters_never_repeat_witness :
  NoDup (map counter (conv_subs overtaken.2)) /\
  forall r, r ∈ conv_subs overtaken.2 -> 1 <= counter r < sub_counter overtaken.2.
Proof.
  apply (counters_never_repeat two_slots 4 engine_ok ocr "(null)"%string zeroed three_frames
           ltac:(vm_compute; reflexivity) true (overtaken.1, overtaken.2)).
  exact (run_schedule_steps two_slots 4 engine_ok ocr "(null)"%string zeroed
           (take 14 late_first) (Reading three_frames, initial)).
Defined.

(** In that state the results lie in [conv_subs] out of order. *)
Example overtaken_out_of_order :
  map counter (conv_subs overtaken.2) = [2; 3] /\ alive_tids overtaken.2 = [0%nat].
Proof. vm_compute. split; reflexivity. Qed.

Lemma sort_waits_for_every_thread_witness : alive_tids shuffled.2 = [].
Proof.
  assert (Hn : 1 <= pool_size two_slots 4 <= UINT_MAX) by (vm_compute; split; discriminate).
  assert (Hr : reachable two_slots 4 engine_ok ocr "(null)"%string zeroed true three_frames
                 (Exited 0, shuffled.2)).
  { exact (run_schedule_steps two_slots 4 engine_ok ocr "(null)"%string zeroed
             late_first (Reading three_frames, initial)). }
  exact (proj1 (proj2 (sort_waits_for_every_thread two_slots 4 engine_ok ocr "(null)"%string
                         zeroed Hn true three_frames shuffled.2 Hr))).
Defined.

Lemma records_are_numbered_from_one_witness :
  exists n,
    (n <= length three_frames)%nat /\
    sub_counter shuffled.2 = Z.of_nat n + 1 /\
    map counter (conv_subs shuffled.2) = first_counters n /\
    length (srtout shuffled.2) = n /\
    forall i, (i < n)%nat ->
      exists x, srtout shuffled.2 !! i = Some (srt_record "(null)" x) /\
                counter x = Z.of_nat i + 1.
Proof.
  assert (Hn : 1 <= pool_size two_slots 4 <= UINT_MAX) by (vm_compute; split; discriminate).
  apply (records_are_numbered_from_one two_slots 4 engine_ok ocr "(null)"%string zeroed Hn
           true three_frames shuffled.2).
  - vm_compute. reflexivity.
  - exact (run_schedule_steps two_slots 4 engine_ok ocr "(null)"%string zeroed
             late_first (Reading three_frames, initial)).
Defined.

Lemma one_thread_runs_in_program_order_witness :
  spawned halfway.2 = [] /\
  is_Some (main_step one_slot 4 engine_ok ocr "(null)"%string zeroed halfway.1 halfway.2).
Proof.
  assert (Hr : reachable one_slot 4 engine_ok ocr "(null)"%string zeroed true three_frames
                 (halfway.1, halfway.2)).
  { exact (run_main_steps one_slot 4 engine_ok ocr "(null)"%string zeroed 4
             (Reading three_frames) initial). }
  destruct (one_thread_runs_in_program_order one_slot 4 engine_ok ocr "(null)"%string zeroed
              eq_refl true three_frames _ Hr) as (H1 & _ & _ & H4).
  split; [exact H1 | apply H4; reflexivity].
Defined.

Lemma one_thread_results_arrive_sorted_witness :
  sort sort_fct (conv_subs halfway.2) = conv_subs halfway.2.
Proof.
  assert (Hr : reachable one_slot 4 engine_ok ocr "(null)"%string zeroed true three_frames
                 (halfway.1, halfway.2)).
  { exact (run_main_steps one_slot 4 engine_ok ocr "(null)"%string zeroed 4
             (Reading three_frames) initial). }
  assert (Hfew : Z.of_nat (length three_frames) < UINT_MAX) by (vm_compute; reflexivity).
  exact (proj2 (one_thread_results_arrive_sorted one_slot 4 engine_ok ocr "(null)"%string
                  zeroed eq_refl true three_frames _ Hfew Hr)).
Defined.

Lemma zero_threads_first_frame_waits_forever_witness :
  let st := with_last_start_pts 9000 initial in
  acquire no_slots 0 engine_ok st = Poll /\
  forall cs,
    ~ step no_slots 0 engine_ok ocr "(null)"%string zeroed
        (Acquiring (frame 0 20 9000 18000) [255; 0; 0] [], st) cs.
Proof.
  intros st.
  assert (Hr : reachable no_slots 0 engine_ok ocr "(null)"%string zeroed true
                 [frame 0 20 9000 18000]
                 (Acquiring (frame 0 20 9000 18000) [255; 0; 0] [], st)).
  { exact (run_main_steps no_slots 0 engine_ok ocr "(null)"%string zeroed 1
             (Reading [frame 0 20 9000 18000]) initial). }
  destruct (zero_threads_first_frame_waits_forever no_slots 0 engine_ok ocr "(null)"%string
              zeroed eq_refl true _ _ _ _ _ Hr) as (_ & _ & _ & H4 & H5).
  split; [exact H4 | exact H5].
Defined.

Lemma output_does_not_depend_on_schedule_witness :
  write_srt two_slots "(null)"%string zeroed (results two_slots ocr three_frames) =
    (conv_subs shuffled.2, srtout shuffled.2, stray_reads shuffled.2).
Proof.
  apply (output_does_not_depend_on_schedule two_slots 4 engine_ok ocr "(null)"%string zeroed
           true three_frames shuffled.2).
  - intros a b image stride width height. reflexivity.
  - vm_compute. reflexivity.
  - vm_compute. split; discriminate.
  - exact (run_schedule_steps two_slots 4 engine_ok ocr "(null)"%string zeroed
             late_first (Reading three_frames, initial)).
Defined.

Lemma numbers_and_times_do_not_depend_on_engines_witness :
  length (srtout shuffled.2) = length (frames two_slots initial three_frames) /\
  (stray_reads shuffled.2 = [] <->
   forall f, last (frames two_slots initial three_frames) = Some f ->
             pk_end_pts f.1 <> UINT_MAX).
Proof.
  assert (Hn : 1 <= pool_size two_slots 4 <= UINT_MAX) by (vm_compute; split; discriminate).
  assert (Hfew : Z.of_nat (length three_frames) < UINT_MAX) by (vm_compute; reflexivity).
  assert (Hr : reachable two_slots 4 engine_ok ocr "(null)"%string zeroed true three_frames
                 (Exited 0, shuffled.2)).
  { exact (run_schedule_steps two_slots 4 engine_ok ocr "(null)"%string zeroed
             late_first (Reading three_frames, initial)). }
  destruct (numbers_and_times_do_not_depend_on_engines two_slots 4 engine_ok ocr
              "(null)"%string zeroed true three_frames shuffled.2 Hfew Hn Hr)
    as (_ & _ & H3 & H4).
  split; [exact H3 | exact H4].
Defined.

Lemma dump_pgm_writes_the_picture_without_padding_witness :
  exists f,
    dump_pgm zeroed_bytes true 3 "movie" 7 2 2 3 [1; 2; 3; 4; 5; 6] = Some (Some f) /\
    pgm_header f = pgm_head 2 2 /\
    pgm_rows f = map (visible_row [1; 2; 3; 4; 5; 6] 2 3) (seq 0 (Z.to_nat 2)) /\
    length (pgm_rows f) = Z.to_nat 2 /\
    Forall (fun row => length row = Z.to_nat 2) (pgm_rows f).
Proof.
  apply (dump_pgm_writes_the_picture_without_padding zeroed_bytes 3 "movie" 7 2 2 3
           [1; 2; 3; 4; 5; 6]); simpl; try lia; try reflexivity.
  unfold UINT_MAX. lia.
Defined.

(** The file of that call. *)
Example dump_of_two_rows :
  dump_pgm zeroed_bytes true 3 "movie" 7 2 2 3 [1; 2; 3; 4; 5; 6] =
    Some (Some (mk_pgm "movie-0007.pgm" ("P5" ++ nl ++ "2 2 255" ++ nl) [[1; 2]; [4; 5]])).
Proof. vm_compute. reflexivity. Qed.

Lemma dump_pgm_with_stride_zero_never_returns_witness :
  dump_pgm zeroed_bytes true 1000 "movie" 7 2 2 0 [1; 2; 3; 4] = None /\
  dump_pgm zeroed_bytes false 1000 "movie" 7 2 2 0 [1; 2; 3; 4] = Some None.
Proof.
  apply (dump_pgm_with_stride_zero_never_returns zeroed_bytes 1000 "movie" 7 2 2 [1; 2; 3; 4]).
  discriminate.
Defined.

Lemma dump_file_names_witness :
  (pgm_filename "movie" 7 = pgm_filename "movie" 8 -> 7 = 8) /\
  pgm_filename (zeros 499) 7 = substring 0 499 (zeros 499).
Proof.
  split.
  - apply (proj1 (dump_file_names "movie")); [simpl; lia | | ];
      unfold is_unsigned, UINT_MAX; lia.
  - apply (proj2 (dump_file_names (zeros 499))). rewrite zeros_length. lia.
Defined.

Lemma language_choice_respects_the_user_witness :
  ("deu"%string <> EmptyString -> "deu"%string = "deu"%string) /\
  (Some 1 = Some 1 /\ 1 < 2).
Proof.
  destruct (language_choice_respects_the_user 2 (fun _ => 0) (fun _ => Some "en"%string)
              (fun _ => Some "eng"%string) EmptyString 1 "deu" (-1) "deu" (Some 1) []
              eq_refl) as (H1 & _ & _ & H4 & _).
  split; [exact H1|]. apply H4; [lia | unfold is_unsigned, UINT_MAX; lia].
Defined.

Lemma failures_reported_are_the_records_without_text_witness :
  failures (events shuffled.2) ≡ₚ unread (results two_slots ocr three_frames) /\
  length (srtout shuffled.2) = 3%nat.
Proof.
  destruct (failures_reported_are_the_records_without_text two_slots 4 engine_ok ocr
              "(null)"%string zeroed true three_frames shuffled.2)
    as (i & st0 & Hr & _ & E & _ & _ & _ & _ & _ & H).
  - vm_compute. reflexivity.
  - vm_compute. split; discriminate.
  - exact (run_schedule_steps two_slots 4 engine_ok ocr "(null)"%string zeroed
             late_first (Reading three_frames, initial)).
  - split; [|reflexivity]. apply H. intros a b image stride width height. reflexivity.
Defined.

(** In that run the second frame is the one reported and written as [(null)]. *)
Example shuffled_failure :
  failures (events shuffled.2) = [2] /\
  srtout shuffled.2 !! 1%nat =
    Some ("2" ++ nl ++ "00:00:00,200 --> 00:00:00,300" ++ nl ++ "(null)" ++ nl ++ nl)%string.
Proof. vm_compute. split; reflexivity. Qed.

(** * The pool in a run

    What the main thread does for a frame at line 390, what becomes of a
    frame that is not recognized, and that every run comes to an end. *)

Lemma moves_left_insert (l : list thread) (i : nat) (x y : thread) :
  l !! i = Some x ->
  (list_sum (map moves_left (<[i := y]> l)) + moves_left x =
   list_sum (map moves_left l) + moves_left y)%nat.
Proof.
  revert i. induction l as [|a l IH]; intros [|i] H; simpl in *; try discriminate.
  - simplify_eq. lia.
  - specialize (IH i H). lia.
Qed.

Lemma first_done_none k v :
  first_done k v = None <-> forall i s, v !! i = Some s -> done s = false.
Proof.
  revert k. induction v as [|s v IH]; intros k; simpl.
  - split; [intros _ i s' H; now rewrite lookup_nil in H | reflexivity].
  - destruct (done s) eqn:Hd.
    + split; [discriminate|]. intros H. specialize (H 0%nat s eq_refl). congruence.
    + rewrite IH. split.
      * intros H [|i] s' Hs'; simpl in Hs'; [congruence | eauto].
      * intros H i s' Hs'. apply (H (S i)). exact Hs'.
Qed.

Lemma first_done_least k v i :
  first_done k v = Some i ->
  forall m s, (m < i - k)%nat -> v !! m = Some s -> done s = false.
Proof.
  revert k. induction v as [|s0 v IH]; intros k H m s Hm Hs; simpl in H; [discriminate|].
  destruct (done s0) eqn:Hd.
  - simplify_eq. lia.
  - destruct m as [|m]; simpl in Hs; [congruence|].
    apply (IH _ H m s); [lia | exact Hs].
Qed.

Section Run.

Variable opts : options.
Variable hardware_concurrency : Z.
Variable tess_Init : nat -> bool.
Variable TesseractRect : nat -> list Z -> Z -> Z -> Z -> option string.
Variable null_text : string.
Variable past_end : nat -> sub_text_t.

Local Abbreviation N := (pool_size opts hardware_concurrency).
Local Abbreviation acquire := (acquire opts hardware_concurrency tess_Init).
Local Abbreviation dispatch := (dispatch opts hardware_concurrency TesseractRect).
Local Abbreviation do_ocr := (do_ocr TesseractRect).
Local Abbreviation thread_step := (thread_step TesseractRect).
Local Abbreviation reconcile := (reconcile opts null_text past_end).
Local Abbreviation main_step :=
  (main_step opts hardware_concurrency tess_Init TesseractRect null_text past_end).
Local Abbreviation step :=
  (step opts hardware_concurrency tess_Init TesseractRect null_text past_end).
Local Abbreviation reachable :=
  (reachable opts hardware_concurrency tess_Init TesseractRect null_text past_end).
Local Abbreviation pool_inv := (pool_inv opts hardware_concurrency).
Local Abbreviation new_job := (new_job opts).

(** A thread that has not returned can always move. *)
Lemma alive_can_step tid th st :
  spawned st !! tid = Some th -> alive th = true -> is_Some (thread_step tid st).
Proof.
  intros Hth Hal. unfold vobsub2srt.thread_step. rewrite Hth.
  destruct th as [j|slot r|slot|]; try discriminate; eauto.
  destruct (ocr_recognize TesseractRect j). eauto.
Qed.

Lemma thread_step_flags tid st st' :
  thread_step tid st = Some st' -> flags_inv st -> flags_inv st'.
Proof.
  unfold vobsub2srt.thread_step. intros H F.
  destruct (spawned st !! tid) as [[j|slot r|slot|]|] eqn:Hth; try discriminate.
  - destruct (ocr_recognize TesseractRect j) as [text evs]. simplify_eq.
    intros i s tid' Hs Ht Hd. simpl in *.
    destruct (F i s tid' Hs Ht Hd) as (th & Hth' & Hal & Hsl).
    destruct (decide (tid' = tid)) as [->|Hne].
    + rewrite Hth in Hth'. simplify_eq. exists (Appending (j_slot j) (ocr_result j text)).
      split; [|split; [reflexivity | exact Hsl]].
      apply list_lookup_insert_eq. eapply lookup_lt_Some; eauto.
    + exists th. rewrite list_lookup_insert_ne by congruence. auto.
  - simplify_eq. intros i s tid' Hs Ht Hd. simpl in *.
    destruct (F i s tid' Hs Ht Hd) as (th & Hth' & Hal & Hsl).
    destruct (decide (tid' = tid)) as [->|Hne].
    + rewrite Hth in Hth'. simplify_eq. exists (Finishing slot).
      split; [|split; [reflexivity | exact Hsl]].
      apply list_lookup_insert_eq. eapply lookup_lt_Some; eauto.
    + exists th. rewrite list_lookup_insert_ne by congruence. auto.
  - simplify_eq. intros i s tid' Hs Ht Hd. simpl in *.
    assert (K : exists s0, threads st !! i = Some s0 /\ t s0 = Some tid' /\ done s0 = false /\
                           i <> slot).
    { unfold ocr_store_done in Hs. destruct (threads st !! slot) as [s1|] eqn:Hs1; simpl in Hs.
      - destruct (decide (i = slot)) as [->|Hne].
        + rewrite list_lookup_insert_eq in Hs by (eapply lookup_lt_Some; eauto).
          simplify_eq.
        + rewrite list_lookup_insert_ne in Hs by congruence. eauto.
      - exists s. repeat split; auto. intros ->. congruence. }
    destruct K as (s0 & Hs0 & Ht0 & Hd0 & Hne).
    destruct (F i s0 tid' Hs0 Ht0 Hd0) as (th & Hth' & Hal & Hsl).
    exists th. split; [|auto].
    assert (Htid : tid <> tid').
    { intros ->. rewrite Hth in Hth'. simplify_eq. simpl in Hsl. congruence. }
    rewrite list_lookup_insert_ne by exact Htid.
    unfold ocr_store_done. now destruct (threads st !! slot).
Qed.

Lemma flags_inv_ext st st' :
  threads st' = threads st -> spawned st' = spawned st -> flags_inv st -> flags_inv st'.
Proof. unfold flags_inv. now intros -> ->. Qed.

Lemma main_step_flags c st c' st' :
  main_step c st = Some (c', st') -> flags_inv st -> flags_inv st'.
Proof.
  intros H F. destruct c as [[|p input]|p image input|i|code|]; simpl in H.
  - now simplify_eq.
  - pose proof (frame_gate_frame opts st p) as K. cbv zeta in K. destruct K as (K1 & K2 & _).
    destruct (frame_gate opts st p) as [st1 [img|]]; simplify_eq; simpl in *;
      now apply (flags_inv_ext st).
  - destruct (acquire st) as [k st1|st1| |] eqn:Ha; simplify_eq.
    + assert (F1 : flags_inv st1).
      { clear H. unfold vobsub2srt.acquire, init_tesseract in Ha.
        repeat case_match; simplify_eq; try exact F.
        intros i s tid Hs Ht Hd. simpl in *.
        apply lookup_app_Some in Hs as [Hs|[_ Hs]]; [now apply (F i s tid)|].
        apply list_lookup_singleton_Some in Hs as [_ <-]. discriminate Ht. }
      destruct (threads st1 !! k) as [s|] eqn:Hk.
      2:{ unfold vobsub2srt.dispatch in H. rewrite Hk in H. now simplify_eq. }
      destruct (decide (N = 1)) as [HN|HN].
      * destruct (dispatch_inline opts hardware_concurrency TesseractRect k p image st1 s HN Hk)
          as (st2 & Hd & E1 & E2 & _).
        rewrite Hd in H. simplify_eq.
        intros i s' tid Hs Ht Hdn. rewrite E1 in Hs. rewrite E2.
        destruct (decide (i = k)) as [->|Hne].
        -- rewrite list_lookup_insert_eq in Hs by (eapply lookup_lt_Some; eauto).
           simplify_eq.
        -- rewrite list_lookup_insert_ne in Hs by congruence. now apply (F1 i s' tid).
      * destruct (dispatch_spawn opts hardware_concurrency TesseractRect k p image st1 s HN Hk)
          as (st2 & Hd & E1 & E2 & _).
        rewrite Hd in H. simplify_eq.
        intros i s' tid Hs Ht Hdn. rewrite E1 in Hs. rewrite E2.
        destruct (decide (i = k)) as [->|Hne].
        -- rewrite list_lookup_insert_eq in Hs by (eapply lookup_lt_Some; eauto).
           simplify_eq. simpl in Ht. simplify_eq.
           eexists. split; [now apply list_lookup_middle|]. split; reflexivity.
        -- rewrite list_lookup_insert_ne in Hs by congruence.
           destruct (F1 i s' tid Hs Ht Hdn) as (th & Hth & Hal & Hsl).
           exists th. split; [|auto]. apply lookup_app_l_Some. exact Hth.
    + apply acquire_fatal in Ha. subst. exact F.
    + exact F.
  - destruct (reconcile_keeps opts null_text past_end st) as (_ & _ & R3 & R4).
    repeat case_match; simplify_eq; try exact F. now apply (flags_inv_ext st).
  - discriminate.
  - discriminate.
Qed.

Lemma reachable_flags opened packets cs : reachable opened packets cs -> flags_inv cs.2.
Proof.
  unfold vobsub2srt.reachable. intros H.
  refine (rtc_ind_r (fun cs : control * state => flags_inv cs.2) _ _ _ _ H).
  - unfold start. destruct opened; intros i s tid Hs; simpl in Hs;
      now rewrite lookup_nil in Hs.
  - intros y z _ Hs IH.
    inversion Hs as [c0 st0 c1 st1 Hm|c0 st0 tid st1 Hrun Ht]; subst; simpl in *.
    + eapply main_step_flags; eauto.
    + eapply thread_step_flags; eauto.
Qed.

(** *** Every move uses up a bound *)

Lemma ocr_store_done_length slot st :
  length (threads (ocr_store_done slot st)) = length (threads st).
Proof.
  unfold ocr_store_done. destruct (threads st !! slot); simpl; [apply length_insert|reflexivity].
Qed.

Lemma thread_step_uses_fuel tid st st' :
  thread_step tid st = Some st' ->
  length (threads st') = length (threads st) /\
  (S (list_sum (map moves_left (spawned st'))) = list_sum (map moves_left (spawned st)))%nat.
Proof.
  unfold vobsub2srt.thread_step. intros H.
  destruct (spawned st !! tid) as [[j|slot r|slot|]|] eqn:Hth; try discriminate.
  - destruct (ocr_recognize TesseractRect j) as [text evs]. simplify_eq. simpl.
    split; [reflexivity|].
    pose proof (moves_left_insert _ _ _ (Appending (j_slot j) (ocr_result j text)) Hth) as K.
    simpl in K. lia.
  - simplify_eq. simpl. split; [reflexivity|].
    pose proof (moves_left_insert _ _ _ (Finishing slot) Hth) as K. simpl in K. lia.
  - simplify_eq. simpl. split; [apply ocr_store_done_length|].
    pose proof (moves_left_insert _ _ _ Returned Hth) as K. simpl in K. lia.
Qed.

Lemma acquire_uses_fuel st i st1 :
  acquire st = Slot i st1 ->
  (length (threads st1) <= S (length (threads st)))%nat /\ spawned st1 = spawned st.
Proof.
  unfold vobsub2srt.acquire, init_tesseract. intros H.
  repeat case_match; simplify_eq; simpl; rewrite ?length_app; simpl; split; (lia || reflexivity).
Qed.

Lemma dispatch_uses_fuel i p image st st' :
  dispatch i p image st = Some st' ->
  length (threads st') = length (threads st) /\
  (list_sum (map moves_left (spawned st')) <= list_sum (map moves_left (spawned st)) + 3)%nat.
Proof.
  unfold vobsub2srt.dispatch. intros H.
  destruct (threads st !! i) as [s|]; [|discriminate].
  destruct (N =? 1); simplify_eq; simpl.
  - unfold vobsub2srt.do_ocr. destruct (ocr_recognize TesseractRect _) as [text evs].
    rewrite ocr_store_done_length. simpl. split; [reflexivity|].
    unfold ocr_store_done. simpl. case_match; simpl; lia.
  - rewrite length_insert, map_app, list_sum_app. simpl. split; [reflexivity|lia].
Qed.

(** Every move uses up some of the bound. *)
Lemma step_uses_fuel cs cs' : step cs cs' -> (fuel_left cs' < fuel_left cs)%nat.
Proof.
  intros Hs. inversion Hs as [c st c' st' Hm|c st tid st' Hrun Ht]; subst.
  - unfold fuel_left. simpl.
    destruct c as [[|p input]|p image input|i|code|]; simpl in Hm.
    + simplify_eq. simpl. lia.
    + pose proof (frame_gate_frame opts st p) as K. cbv zeta in K.
      destruct K as (K1 & K2 & _).
      destruct (frame_gate opts st p) as [st1 [img|]]; simpl in *; simplify_eq; simpl;
        rewrite K1, K2; lia.
    + destruct (acquire st) as [k st1|st1| |] eqn:Ha; simplify_eq.
      * apply acquire_uses_fuel in Ha as [A1 A2].
        destruct (dispatch k p image st1) as [st2|] eqn:Hd; simplify_eq; simpl; [|lia].
        apply dispatch_uses_fuel in Hd as [D1 D2]. rewrite A2 in D2. lia.
      * simpl. lia.
      * simpl. lia.
    + destruct (threads st !! i) as [s|] eqn:Hi.
      * apply lookup_lt_Some in Hi.
        repeat case_match; simplify_eq; simpl; lia.
      * simplify_eq. simpl. lia.
    + discriminate.
    + discriminate.
  - apply thread_step_uses_fuel in Ht as [T1 T2]. unfold fuel_left. simpl.
    rewrite T1. destruct c; simpl in *; try discriminate; lia.
Qed.


Section Sized.

Hypothesis N_range : 1 <= N <= UINT_MAX.

(** *** What the main thread does for a frame at line 390 *)

(** Below capacity: a slot with a new engine, and the frame goes to it at
    once; or the engine cannot be set up and [main] returns -1. *)
Lemma below_capacity p image input st :
  Z.of_nat (length (threads st)) < N ->
  let k := length (threads st) in
  let s := mk_ocr_thread None false k in
  let j := new_job s k p image st in
  if tess_Init k then
    exists st',
      main_step (Acquiring p image input) st = Some (Reading input, st') /\
      length (threads st') = S k /\
      sub_counter st' = wrap (sub_counter st + 1) /\
      if decide (N = 1) then
        threads st' = threads st ++ [set_done true s] /\
        spawned st' = spawned st /\
        conv_subs st' = conv_subs st ++ [ocr_result j (ocr_recognize TesseractRect j).1]
      else
        threads st' = threads st ++ [mk_ocr_thread (Some (length (spawned st))) false k] /\
        spawned st' = spawned st ++ [Recognizing j] /\
        conv_subs st' = conv_subs st
  else
    main_step (Acquiring p image input) st = Some (Exited (-1), log [ErrInitFailed] st).
Proof.
  intros Hlt k s j. destruct (tess_Init k) eqn:Hinit.
  - pose proof (acquire_new opts hardware_concurrency tess_Init N_range st Hlt Hinit) as Ha.
    fold k in Ha. fold s in Ha.
    set (st1 := with_threads (threads st ++ [s]) st) in *.
    assert (Hs : threads st1 !! k = Some s) by (simpl; now apply list_lookup_middle).
    assert (Hj : new_job s k p image st1 = j) by reflexivity.
    destruct (decide (N = 1)) as [HN|HN].
    + destruct (dispatch_inline opts hardware_concurrency TesseractRect k p image st1 s HN Hs)
        as (st2 & Hd & E1 & E2 & E3 & _ & E5).
      exists st2. simpl. rewrite Ha, Hd. split; [reflexivity|].
      rewrite E1, E2, E3, E5, Hj. simpl.
      assert (Hins : <[k := set_done true s]> (threads st ++ [s]) =
                     threads st ++ [set_done true s]).
      { unfold k. rewrite insert_app_r_alt by lia. now rewrite Nat.sub_diag. }
      rewrite Hins. rewrite length_app. simpl. repeat split; auto. lia.
    + destruct (dispatch_spawn opts hardware_concurrency TesseractRect k p image st1 s HN Hs)
        as (st2 & Hd & E1 & E2 & E3 & _ & E5).
      exists st2. simpl. rewrite Ha, Hd. split; [reflexivity|].
      rewrite E1, E2, E3, E5, Hj. simpl.
      assert (Hins : <[k := mk_ocr_thread (Some (length (spawned st))) false k]>
                       (threads st ++ [s]) =
                     threads st ++ [mk_ocr_thread (Some (length (spawned st))) false k]).
      { unfold k. rewrite insert_app_r_alt by lia. now rewrite Nat.sub_diag. }
      rewrite Hins. rewrite length_app. simpl. repeat split; auto. lia.
  - simpl. unfold vobsub2srt.acquire, init_tesseract.
    rewrite (as_unsigned_N opts hardware_concurrency N_range).
    apply Z.ltb_lt in Hlt. unfold k in Hinit. now rewrite Hlt, Hinit.
Qed.

(** One slot, and it is there: the main thread runs [do_ocr] itself. *)
Lemma single_slot_inline p image input st :
  pool_inv st -> N = 1 -> ~ Z.of_nat (length (threads st)) < N ->
  exists s st',
    threads st = [s] /\
    main_step (Acquiring p image input) st = Some (Reading input, st') /\
    threads st' = [set_done true s] /\
    spawned st' = spawned st /\
    sub_counter st' = wrap (sub_counter st + 1) /\
    conv_subs st' =
      conv_subs st ++ [ocr_result (new_job s 0 p image st)
                         (ocr_recognize TesseractRect (new_job s 0 p image st)).1].
Proof.
  intros Hinv HN Hge. pose proof Hinv as (Hle & _).
  destruct (threads st) as [|s [|s' v]] eqn:Hthr; simpl in *; try lia.
  assert (Hs : threads st !! 0%nat = Some s) by now rewrite Hthr.
  destruct (dispatch_inline opts hardware_concurrency TesseractRect 0 p image st s HN Hs)
    as (st2 & Hd & E1 & E2 & E3 & _ & E5).
  exists s, st2. split; [reflexivity|].
  rewrite (acquire_single opts hardware_concurrency tess_Init N_range st HN), Hd
    by (rewrite Hthr; simpl; lia).
  rewrite E1, E2, E3, E5, Hthr. auto.
Qed.

(** All slots there, more than one: the first slot whose flag is up is
    taken, its thread has returned, and a new thread is started on it. *)
Lemma saturated_takes_done_slot p image input st :
  pool_inv st -> N <> 1 -> ~ Z.of_nat (length (threads st)) < N ->
  (exists i s, threads st !! i = Some s /\ done s = true) ->
  exists i s tid st',
    threads st !! i = Some s /\ done s = true /\
    (forall m s', (m < i)%nat -> threads st !! m = Some s' -> done s' = false) /\
    t s = Some tid /\ spawned st !! tid = Some Returned /\
    main_step (Acquiring p image input) st = Some (Reading input, st') /\
    threads st' =
      <[i := mk_ocr_thread (Some (length (spawned st))) false (tess_base_api s)]> (threads st) /\
    spawned st' = spawned st ++ [Recognizing (new_job s i p image st)] /\
    conv_subs st' = conv_subs st /\
    sub_counter st' = wrap (sub_counter st + 1).
Proof.
  intros Hinv HN Hge (i0 & s0 & Hs0 & Hd0).
  pose proof (acquire_saturated opts hardware_concurrency tess_Init N_range st Hinv HN Hge) as Ha.
  destruct (first_done 0 (threads st)) as [i|] eqn:Hf.
  2:{ rewrite first_done_none in Hf. rewrite (Hf _ _ Hs0) in Hd0. discriminate. }
  destruct Ha as (s & tid & Hs & Hdone & Ht & Hret & Ha).
  destruct (dispatch_spawn opts hardware_concurrency TesseractRect i p image st s HN Hs)
    as (st2 & Hd & E1 & E2 & E3 & _ & E5).
  exists i, s, tid, st2. simpl. rewrite Ha, Hd.
  repeat (split; [assumption || reflexivity || idtac|]); [|assumption].
  intros m s' Hm Hs'. apply (first_done_least 0 _ _ Hf m s'); [lia | exact Hs'].
Qed.

(** All slots there, more than one, and no flag up: the main thread stays in
    the loop of lines 400-410, and the thread of every slot is on its way. *)
Lemma saturated_waits p image input st :
  pool_inv st -> flags_inv st -> N <> 1 -> ~ Z.of_nat (length (threads st)) < N ->
  (forall i s, threads st !! i = Some s -> done s = false) ->
  main_step (Acquiring p image input) st = None /\
  (0 < length (threads st))%nat /\
  forall i s, threads st !! i = Some s ->
    exists tid th, t s = Some tid /\ spawned st !! tid = Some th /\ alive th = true /\
                   is_Some (thread_step tid st).
Proof.
  intros Hinv F HN Hge Hall.
  pose proof (acquire_saturated opts hardware_concurrency tess_Init N_range st Hinv HN Hge) as Ha.
  destruct (first_done 0 (threads st)) as [i|] eqn:Hf.
  { destruct Ha as (s & tid & Hs & Hdone & _). rewrite (Hall _ _ Hs) in Hdone. discriminate. }
  split; [simpl; now rewrite Ha|]. split; [lia|].
  intros i s Hs. destruct Hinv as (_ & _ & _ & H4).
  destruct (H4 HN i s Hs) as (tid & Ht & _).
  destruct (F i s tid Hs Ht (Hall _ _ Hs)) as (th & Hth & Hal & _).
  exists tid, th. repeat split; auto. eapply alive_can_step; eauto.
Qed.

(** Where [main] has not returned, the main thread or a thread can move. *)
Lemma can_move opened packets c st :
  reachable opened packets (c, st) -> running c = true -> exists cs', step (c, st) cs'.
Proof.
  intros Hr Hrun.
  destruct (reachable_inv opts hardware_concurrency tess_Init TesseractRect null_text
              past_end N_range _ _ _ Hr) as [Hinv Hc]. simpl in Hinv, Hc.
  pose proof (reachable_flags _ _ _ Hr) as Hflags. simpl in Hflags.
  assert (Hmain : forall cs', main_step c st = Some cs' -> exists cs', step (c, st) cs').
  { intros [c' st'] Hm. exists (c', st'). now apply step_main. }
  destruct c as [[|p input]|p image input|i|code|]; try discriminate.
  - eapply Hmain. reflexivity.
  - simpl in *. destruct (frame_gate opts st p) as [st1 [img|]]; eauto.
  - destruct (decide (Z.of_nat (length (threads st)) < N)) as [Hlt|Hge].
    + pose proof (below_capacity p image input st Hlt) as B. cbv zeta in B.
      destruct (tess_Init (length (threads st))); [destruct B as (st' & Hm & _)|]; eauto.
    + destruct (decide (N = 1)) as [HN|HN].
      * destruct (single_slot_inline p image input st Hinv HN Hge)
          as (s & st' & _ & Hm & _). eauto.
      * destruct (first_done 0 (threads st)) as [k|] eqn:Hf.
        -- destruct (first_done_some _ _ _ Hf) as (s & _ & Hs & Hd).
           rewrite Nat.sub_0_r in Hs.
           destruct (saturated_takes_done_slot p image input st Hinv HN Hge
                       (ex_intro _ k (ex_intro _ s (conj Hs Hd))))
             as (i & s' & tid & st' & _ & _ & _ & _ & _ & Hm & _). eauto.
        -- rewrite first_done_none in Hf.
           destruct (saturated_waits p image input st Hinv Hflags HN Hge Hf)
             as (_ & Hpos & Hall).
           destruct (threads st) as [|s l] eqn:E; [simpl in Hpos; lia|].
           destruct (Hall 0%nat s eq_refl) as (tid & th & _ & _ & _ & [st' Hst']).
           exists (Acquiring p image input, st'). now apply step_thread with (tid := tid).
  - simpl in Hmain. destruct (threads st !! i) as [s|] eqn:Hi; [|eauto].
    destruct (t s) as [tid|] eqn:Ht; [|eauto].
    destruct (spawned st !! tid) as [th|] eqn:Hth; [|eauto].
    destruct (alive th) eqn:Hal.
    + destruct (alive_can_step tid th st Hth Hal) as [st' Hst'].
      exists (Joining i, st'). now apply step_thread with (tid := tid).
    + destruct th; try discriminate. eauto.
Qed.

(** A state from which nothing moves is a return of [main]. *)
Lemma stuck_is_exit opened packets c st :
  reachable opened packets (c, st) -> (forall cs, ~ step (c, st) cs) ->
  exists code, c = Exited code.
Proof.
  intros Hr Hno.
  destruct (reachable_inv opts hardware_concurrency tess_Init TesseractRect null_text
              past_end N_range _ _ _ Hr) as [_ Hc]. simpl in Hc.
  destruct (running c) eqn:Hrun.
  - destruct (can_move _ _ _ _ Hr Hrun) as [cs' Hs]. now destruct (Hno cs').
  - destruct c; try discriminate; [eauto | contradiction].
Qed.

Lemma acquire_fatal_init st st' :
  acquire st = Fatal st' ->
  st' = log [ErrInitFailed] st /\ Z.of_nat (length (threads st)) < N /\
  tess_Init (length (threads st)) = false.
Proof.
  unfold vobsub2srt.acquire, init_tesseract.
  rewrite (as_unsigned_N opts hardware_concurrency N_range). intros H.
  destruct (Z.ltb_spec (Z.of_nat (length (threads st))) N) as [Hlt|Hge].
  - destruct (tess_Init (length (threads st))); simplify_eq. auto.
  - repeat case_match; discriminate.
Qed.

(** The ways [main] returns: 0 after the writing loop, -1 when an engine
    could not be set up, 1 when the output file could not be opened. *)
Lemma exit_codes opened packets code st :
  reachable opened packets (Exited code, st) ->
  code = 0 \/
  (code = -1 /\ srtout st = [] /\
   exists st0, st = log [ErrInitFailed] st0 /\ Z.of_nat (length (threads st0)) < N /\
               tess_Init (length (threads st0)) = false) \/
  (code = 1 /\ opened = false /\ st = initial).
Proof.
  intros H. pose proof H as Hr. unfold vobsub2srt.reachable in H.
  apply rtc_inv_r in H as [E|((c0 & st0) & _ & Hs)].
  - unfold start in E. destruct opened; simplify_eq. auto.
  - inversion Hs as [c1 st1 c2 st2 Hm|c1 st1 tid st2 Hrun Ht]; subst; [|discriminate].
    destruct c0 as [[|p input]|p image input|i|code0|]; simpl in Hm.
    + discriminate.
    + destruct (frame_gate opts st0 p) as [st1 [img|]]; discriminate.
    + destruct (acquire st0) as [k st1|st1| |] eqn:Ha; try discriminate.
      * destruct (dispatch k p image st1); discriminate.
      * simplify_eq. right. left. split; [reflexivity|]. split.
        -- apply (nothing_written_before_end opts hardware_concurrency tess_Init TesseractRect
                    null_text past_end _ _ _ _ Hr). discriminate.
        -- apply acquire_fatal_init in Ha as (E & Hlt & Hinit). eauto.
    + destruct (threads st0 !! i) as [s|]; [repeat case_match; discriminate|].
      simplify_eq. now left.
    + discriminate.
    + discriminate.
Qed.

(** From every state of a run a return of [main] can be reached. *)
Lemma can_return opened packets cs :
  reachable opened packets cs -> exists code st', rtc step cs (Exited code, st').
Proof.
  remember (fuel_left cs) as m eqn:Hm. revert cs Hm.
  induction m as [m IH] using lt_wf_ind. intros [c st] -> Hr.
  destruct (running c) eqn:Hrun.
  - destruct (can_move _ _ _ _ Hr Hrun) as [cs' Hs].
    assert (Hr' : reachable opened packets cs').
    { unfold vobsub2srt.reachable in *. eapply rtc_r; eauto. }
    destruct (IH (fuel_left cs') (step_uses_fuel _ _ Hs) cs' eq_refl Hr')
      as (code & st' & Hp).
    exists code, st'. eapply rtc_l; eauto.
  - destruct (reachable_inv opts hardware_concurrency tess_Init TesseractRect null_text
                past_end N_range _ _ _ Hr) as [_ Hc]. simpl in Hc.
    destruct c; try discriminate; [|contradiction].
    exists code, st. apply rtc_refl.
Qed.

(** *** A frame that is not recognized *)

Lemma main_step_grows c st c' st' :
  main_step c st = Some (c', st') -> c' <> Exited 0 ->
  (exists l, conv_subs st' = conv_subs st ++ l) /\
  (exists l, spawned st' = spawned st ++ l).
Proof.
  intros H Hc'.
  assert (Same : forall x : state, conv_subs x = conv_subs st -> spawned x = spawned st ->
            (exists l, conv_subs x = conv_subs st ++ l) /\
            (exists l, spawned x = spawned st ++ l)).
  { intros x -> ->. split; exists []; now rewrite app_nil_r. }
  destruct c as [[|p input]|p image input|i|code|]; simpl in H.
  - simplify_eq. now apply Same.
  - pose proof (frame_gate_frame opts st p) as K. cbv zeta in K.
    destruct K as (_ & K2 & _ & K4 & _).
    destruct (frame_gate opts st p) as [st1 [img|]]; simplify_eq; simpl in *; now apply Same.
  - destruct (acquire st) as [k st1|st1| |] eqn:Ha; simplify_eq.
    + apply acquire_slot_keeps in Ha as (A1 & _ & _ & A4 & _).
      destruct (threads st1 !! k) as [s|] eqn:Hk.
      2:{ unfold vobsub2srt.dispatch in H. rewrite Hk in H. simplify_eq. now apply Same. }
      destruct (decide (N = 1)) as [HN|HN].
      * destruct (dispatch_inline opts hardware_concurrency TesseractRect k p image st1 s HN Hk)
          as (st2 & Hd & _ & E2 & E3 & _).
        rewrite Hd in H. simplify_eq. rewrite E2, E3, A1, A4.
        split; [eauto | exists []; now rewrite app_nil_r].
      * destruct (dispatch_spawn opts hardware_concurrency TesseractRect k p image st1 s HN Hk)
          as (st2 & Hd & _ & E2 & E3 & _).
        rewrite Hd in H. simplify_eq. rewrite E2, E3, A1, A4.
        split; [exists []; now rewrite app_nil_r | eauto].
    + apply acquire_fatal in Ha. subst. now apply Same.
    + now apply Same.
  - repeat case_match; simplify_eq; try (now apply Same).
  - discriminate.
  - discriminate.
Qed.

Lemma step_to_exit0 c0 st0 st :
  step (c0, st0) (Exited 0, st) -> c0 <> Exited 0 ->
  exists i, c0 = Joining i /\ threads st0 !! i = None /\ st = reconcile st0.
Proof.
  intros Hs Hc. inversion Hs as [c1 st1 c2 st2 Hm|c1 st1 tid st2 Hrun Ht]; subst.
  2:{ now destruct Hc. }
  destruct c0 as [[|p input]|p image input|i|code|]; simpl in Hm.
  - discriminate.
  - destruct (frame_gate opts st0 p) as [st1 [img|]]; discriminate.
  - destruct (acquire st0) as [k st1|st1| |]; try discriminate.
    destruct (dispatch k p image st1); discriminate.
  - destruct (threads st0 !! i) as [s|] eqn:Hs0.
    + repeat case_match; discriminate.
    + simplify_eq. eauto.
  - discriminate.
  - discriminate.
Qed.

Section Failure.

Variable j : job.
Hypothesis recognize_fails :
  TesseractRect (j_api j) (j_image_cpy j) (j_stride j) (j_width j) (j_height j) = None.

Lemma failed_recognize :
  ocr_recognize TesseractRect j = (None, [ErrOcrFailed (j_counter j)]).
Proof. unfold ocr_recognize. now rewrite recognize_fails. Qed.

(** The thread's three moves. *)
Lemma failed_thread_moves c st tid s :
  running c = true -> spawned st !! tid = Some (Recognizing j) ->
  threads st !! j_slot j = Some s ->
  let r := ocr_result j None in
  exists st1 st2 st3,
    step (c, st) (c, st1) /\ step (c, st1) (c, st2) /\ step (c, st2) (c, st3) /\
    events st1 = events st ++ [ErrOcrFailed (j_counter j)] /\
    conv_subs st2 = conv_subs st ++ [r] /\
    threads st3 = <[j_slot j := set_done true s]> (threads st) /\
    spawned st3 = <[tid := Returned]> (spawned st) /\
    conv_subs st3 = conv_subs st ++ [r] /\
    events st3 = events st ++ [ErrOcrFailed (j_counter j)] /\
    sub_counter st3 = sub_counter st /\ last_start_pts st3 = last_start_pts st.
Proof.
  intros Hrun Hth Hs r.
  assert (Hlt : (tid < length (spawned st))%nat) by (eapply lookup_lt_Some; eauto).
  set (st1 := with_spawned (<[tid := Appending (j_slot j) r]> (spawned st))
                (log [ErrOcrFailed (j_counter j)] st)).
  set (st2 := with_spawned (<[tid := Finishing (j_slot j)]> (spawned st1)) (ocr_push r st1)).
  set (st3 := with_spawned (<[tid := Returned]> (spawned st2))
                (ocr_store_done (j_slot j) st2)).
  exists st1, st2, st3.
  split; [|split; [|split]].
  - apply step_thread with (tid := tid); [exact Hrun|]. unfold vobsub2srt.thread_step.
    rewrite Hth, failed_recognize. reflexivity.
  - apply step_thread with (tid := tid); [exact Hrun|]. unfold vobsub2srt.thread_step.
    subst st1. simpl. rewrite list_lookup_insert_eq by exact Hlt. reflexivity.
  - apply step_thread with (tid := tid); [exact Hrun|]. unfold vobsub2srt.thread_step.
    subst st2 st1. simpl. rewrite list_lookup_insert_eq by (rewrite length_insert; exact Hlt).
    reflexivity.
  - subst st3 st2 st1. unfold ocr_store_done. simpl. rewrite Hs. simpl.
    rewrite !list_insert_insert_eq. repeat split; reflexivity.
Qed.

Local Abbreviation held := (held j).

Lemma held_step c st c' st' :
  step (c, st) (c', st') -> c' <> Exited 0 -> held st -> held st'.
Proof.
  intros Hs Hc' Hh.
  inversion Hs as [c0 st0 c1 st1 Hm|c0 st0 tid0 st1 Hrun Ht]; subst.
  - destruct (main_step_grows _ _ _ _ Hm Hc') as [[l1 E1] [l2 E2]].
    destruct Hh as [Hin|[tid Hh]].
    + left. rewrite E1. apply elem_of_app. now left.
    + right. exists tid. rewrite E2.
      destruct Hh as [Hh|Hh]; [left|right]; now apply lookup_app_l_Some.
  - unfold vobsub2srt.thread_step in Ht.
    destruct (spawned st !! tid0) as [[j0|slot r0|slot|]|] eqn:Hth; try discriminate.
    + destruct (ocr_recognize TesseractRect j0) as [text evs] eqn:Ho. simplify_eq. simpl.
      destruct Hh as [Hin|[tid Hh]]; [now left|]. right. exists tid. simpl.
      destruct (decide (tid = tid0)) as [->|Hne].
      * rewrite list_lookup_insert_eq by (eapply lookup_lt_Some; eauto).
        destruct Hh as [Hh|Hh]; rewrite Hth in Hh; simplify_eq.
        rewrite failed_recognize in Ho. simplify_eq. now right.
      * rewrite list_lookup_insert_ne by congruence. exact Hh.
    + simplify_eq. destruct Hh as [Hin|[tid Hh]].
      * left. simpl. apply elem_of_app. now left.
      * destruct (decide (tid = tid0)) as [->|Hne].
        -- left. simpl. destruct Hh as [Hh|Hh]; rewrite Hth in Hh; simplify_eq.
           apply elem_of_app. right. apply list_elem_of_here.
        -- right. exists tid. simpl. rewrite list_lookup_insert_ne by congruence. exact Hh.
    + simplify_eq. destruct Hh as [Hin|[tid Hh]].
      * left. simpl. unfold ocr_store_done. now destruct (threads st !! slot).
      * right. exists tid. simpl.
        destruct (decide (tid = tid0)) as [->|Hne].
        -- destruct Hh as [Hh|Hh]; rewrite Hth in Hh; discriminate.
        -- rewrite list_lookup_insert_ne by congruence.
           unfold ocr_store_done. now destruct (threads st !! slot).
Qed.

(** A result that is held when the run goes on to the end is written. *)
Lemma held_is_written opened packets c st st_end :
  reachable opened packets (c, st) -> c <> Exited 0 -> held st ->
  rtc step (c, st) (Exited 0, st_end) ->
  exists e, srt_record null_text (set_end_pts e (ocr_result j None)) ∈ srtout st_end.
Proof.
  intros Hr Hc Hh Hpath.
  apply rtc_inv_r in Hpath as [E|((c0 & st0) & Hp & Hs)]; [simplify_eq|].
  assert (Hc0 : c0 <> Exited 0).
  { intros ->. exact (exited_is_final opts hardware_concurrency tess_Init TesseractRect
                        null_text past_end _ _ _ Hs). }
  assert (Hh0 : held st0).
  { revert Hc0. clear Hs.
    refine (rtc_ind_r (fun cs : control * state => cs.1 <> Exited 0 -> held cs.2)
              _ _ _ _ Hp); [intros _; exact Hh|].
    intros [c1 st1] [c2 st2] _ Hs IH Hc2. simpl in *.
    eapply held_step; [exact Hs|exact Hc2|]. apply IH. intros ->.
    exact (exited_is_final opts hardware_concurrency tess_Init TesseractRect
             null_text past_end _ _ _ Hs). }
  destruct (step_to_exit0 _ _ _ Hs Hc0) as (i & -> & Hi & ->).
  assert (Hr0 : reachable opened packets (Joining i, st0)).
  { unfold vobsub2srt.reachable in *. etransitivity; eauto. }
  pose proof (drained_at_join opts hardware_concurrency tess_Init TesseractRect null_text
                past_end N_range _ _ _ _ Hr0 Hi) as Hall.
  assert (Hin : ocr_result j None ∈ conv_subs st0).
  { destruct Hh0 as [Hin|[tid [Ht|Ht]]]; [exact Hin| |];
      apply Hall in Ht; discriminate. }
  pose proof (sort_perm sort_fct (conv_subs st0)) as Hperm.
  rewrite Hperm in Hin. apply list_elem_of_lookup_1 in Hin as [k Hk].
  destruct (write_srt_one_record_each opts null_text past_end _ _ _ Hk) as [e He].
  exists e. unfold vobsub2srt.reconcile.
  destruct (write_srt opts null_text past_end (sort sort_fct (conv_subs st0)))
    as [[v out] oob]. simpl in *.
  eapply list_elem_of_lookup_2. exact He.
Qed.

End Failure.

(** C5.  When [TesseractRect] returns a null pointer for a frame.  In a
    thread, at any point of a run: the thread prints the error, appends a
    result for the frame, without a text, raises the flag of its slot and
    returns, the main thread standing where it stood; and if the main thread
    stood at line 390 with the next frame, it can go on now: the frame is
    given to a slot (unless a slot is still to be added and its engine
    cannot be set up, which ends the run with -1).  Called by the main
    thread itself ([N = 1]), [do_ocr] does the same and the loop goes on
    with the next packet.  And from any point of a run at which the result
    is in [conv_subs] or in the hands of its thread, the run can be brought
    to a return of [main]; however it goes on, when nothing moves any more
    either [main] has returned 0 and a record for the frame is written, with
    what [fprintf] makes of a null string as its text, or [main] has
    returned -1 because the engine of a slot still to be added could not be
    set up, and then nothing at all is written. *)
Theorem recognition_failure_not_fatal (j : job) :
  TesseractRect (j_api j) (j_image_cpy j) (j_stride j) (j_width j) (j_height j) = None ->
  let r := mk_sub_text (j_counter j) (j_start_pts j) (j_end_pts j) None in
  (forall opened packets c st tid,
     reachable opened packets (c, st) -> running c = true ->
     spawned st !! tid = Some (Recognizing j) ->
     exists s st1 st2 st3,
       threads st !! j_slot j = Some s /\
       step (c, st) (c, st1) /\ step (c, st1) (c, st2) /\ step (c, st2) (c, st3) /\
       events st1 = events st ++ [ErrOcrFailed (j_counter j)] /\
       conv_subs st2 = conv_subs st ++ [r] /\
       threads st3 = <[j_slot j := set_done true s]> (threads st) /\
       spawned st3 = <[tid := Returned]> (spawned st) /\
       conv_subs st3 = conv_subs st ++ [r] /\
       events st3 = events st ++ [ErrOcrFailed (j_counter j)] /\
       forall p image input, c = Acquiring p image input ->
         exists c' st',
           main_step c st3 = Some (c', st') /\
           (c' = Reading input \/
            (c' = Exited (-1) /\ Z.of_nat (length (threads st)) < N /\
             tess_Init (length (threads st)) = false))) /\
  (forall i p image input st st1 s,
     N = 1 -> acquire st = Slot i st1 ->
     threads st1 !! i = Some s -> new_job s i p image st1 = j ->
     exists st',
       main_step (Acquiring p image input) st = Some (Reading input, st') /\
       events st' = events st ++ [ErrOcrFailed (j_counter j)] /\
       conv_subs st' = conv_subs st ++ [r] /\
       threads st' = <[i := set_done true s]> (threads st1) /\
       forall input', is_Some (main_step (Reading input') st')) /\
  (forall opened packets c st,
     reachable opened packets (c, st) -> running c = true ->
     r ∈ conv_subs st \/
       (exists tid, spawned st !! tid = Some (Recognizing j) \/
                    spawned st !! tid = Some (Appending (j_slot j) r)) ->
     (exists code st_end, rtc step (c, st) (Exited code, st_end)) /\
     forall c' st_end,
       rtc step (c, st) (c', st_end) -> (forall cs, ~ step (c', st_end) cs) ->
       (c' = Exited 0 /\
        exists e,
          (fmt_u (j_counter j) ++ nl ++ pts2srt (j_start_pts j) ++ " --> " ++ pts2srt e ++ nl ++
           null_text ++ nl ++ nl)%string ∈ srtout st_end) \/
       (c' = Exited (-1) /\ srtout st_end = [] /\
        exists st0, st_end = log [ErrInitFailed] st0 /\
                    Z.of_nat (length (threads st0)) < N /\
                    tess_Init (length (threads st0)) = false)).
Proof.
  intros Hfail r. split; [|split].
  - intros opened packets c st tid Hr Hrun Hth.
    destruct (reachable_inv opts hardware_concurrency tess_Init TesseractRect null_text
                past_end N_range _ _ _ Hr) as [Hinv _]. simpl in Hinv.
    pose proof Hinv as (_ & H2 & H3 & _).
    destruct (H3 _ _ Hth eq_refl) as (i & s & Hi & Hs & _). simpl in Hi. injection Hi as <-.
    destruct (failed_thread_moves j Hfail c st tid s Hrun Hth Hs)
      as (st1 & st2 & st3 & S1 & S2 & S3 & E1 & E2 & E3 & E4 & E5 & E6 & _).
    exists s, st1, st2, st3.
    repeat (split; [assumption|]).
    intros p image input ->.
    assert (Hr3 : reachable opened packets (Acquiring p image input, st3)).
    { unfold vobsub2srt.reachable in *.
      eapply rtc_r; [eapply rtc_r; [eapply rtc_r; [exact Hr|exact S1]|exact S2]|exact S3]. }
    destruct (reachable_inv opts hardware_concurrency tess_Init TesseractRect null_text
                past_end N_range _ _ _ Hr3) as [Hinv3 _]. simpl in Hinv3.
    assert (Hlen : length (threads st3) = length (threads st))
      by (rewrite E3; apply length_insert).
    assert (HN : N <> 1).
    { intros HN. destruct (H2 HN) as [Hnil _]. rewrite Hnil, lookup_nil in Hth. discriminate. }
    destruct (decide (Z.of_nat (length (threads st3)) < N)) as [Hlt|Hge].
    + pose proof (below_capacity p image input st3 Hlt) as B. cbv zeta in B.
      rewrite Hlen in B. rewrite Hlen in Hlt.
      destruct (tess_Init (length (threads st))) eqn:Hinit.
      * destruct B as (st' & Hm & _). eauto.
      * eauto 10.
    + destruct (saturated_takes_done_slot p image input st3 Hinv3 HN Hge)
        as (i & s' & tid' & st' & _ & _ & _ & _ & _ & Hm & _).
      * exists (j_slot j), (set_done true s). split; [|reflexivity].
        rewrite E3. apply list_lookup_insert_eq. eapply lookup_lt_Some; eauto.
      * eauto.
  - intros i p image input st st1 s HN Ha Hs Hj.
    destruct (dispatch_inline opts hardware_concurrency TesseractRect i p image st1 s HN Hs)
      as (st' & Hd & E1 & _ & E3 & E4 & _).
    exists st'. simpl. rewrite Ha, Hd. split; [reflexivity|].
    apply acquire_slot_keeps in Ha as (_ & _ & _ & Hcs & Hev & _).
    rewrite Hj, (failed_recognize j Hfail), Hcs in E3.
    rewrite Hj, (failed_recognize j Hfail), Hev in E4.
    split; [exact E4|]. split; [exact E3|]. split; [exact E1|].
    intros [|p' input']; simpl; [eauto|].
    destruct (frame_gate opts st' p') as [st2 [img|]]; eauto.
  - intros opened packets c st Hr Hrun Hh.
    split; [exact (can_return _ _ _ Hr)|].
    intros c' st_end Hpath Hstuck.
    assert (Hr' : reachable opened packets (c', st_end)).
    { unfold vobsub2srt.reachable in *. etransitivity; eauto. }
    destruct (stuck_is_exit _ _ _ _ Hr' Hstuck) as [code ->].
    destruct (exit_codes _ _ _ _ Hr') as [->|[(-> & Hout & Hinit)|(-> & -> & _)]].
    + left. split; [reflexivity|].
      apply (held_is_written j Hfail opened packets c st st_end Hr); [|exact Hh|exact Hpath].
      intros ->. discriminate Hrun.
    + right. auto.
    + unfold vobsub2srt.reachable, start in Hr.
      apply rtc_inv in Hr as [E|(cs & Hs & _)]; [simplify_eq; discriminate Hrun|].
      destruct (exited_is_final opts hardware_concurrency tess_Init TesseractRect null_text
                  past_end _ _ _ Hs).
Qed.

(** C8.  With a pool size [N] of at least 1, in every state a run can
    reach: there are at most [N] slots, the threads that have not returned
    are no more than the slots, and those inside [TesseractRect] no more
    than these; no null or dangling pointer is used; a slot is added only
    for a frame at line 390 while there are fewer than [N]; with [N = 1] no
    thread exists.  And for a frame at line 390:
    - with fewer than [N] slots, a slot with a new engine is added and the
      frame is given to it at once: to a new thread, or, with [N = 1], to
      [do_ocr] called by the main thread, whose result is in [conv_subs]
      when the main thread goes on; if the engine cannot be set up, [main]
      returns -1;
    - with the one slot of [N = 1] there, the main thread calls [do_ocr]
      again, and there is still no thread;
    - with all [N > 1] slots there and a flag up, the first slot whose flag
      is up is taken; its thread has returned, so that the [join] does not
      block; a new thread is started on it;
    - with all [N > 1] slots there and no flag up, the main thread stays in
      the loop of lines 400-410, and the thread of every slot has not
      returned and can move. *)
Theorem pool_capacity (opened : bool) (packets : list packet) (c : control) (st : state) :
  reachable opened packets (c, st) ->
  c <> Undefined /\
  Z.of_nat (length (threads st)) <= N /\
  (length (recognizing_tids st) <= length (alive_tids st))%nat /\
  (length (alive_tids st) <= length (threads st))%nat /\
  (forall cs', step (c, st) cs' ->
     length (threads cs'.2) = length (threads st) \/
     (length (threads cs'.2) = S (length (threads st)) /\
      Z.of_nat (length (threads st)) < N /\
      exists p image input, c = Acquiring p image input)) /\
  (N = 1 -> spawned st = []) /\
  (forall p image input, c = Acquiring p image input ->
     let k := length (threads st) in
     (Z.of_nat k < N ->
        let s := mk_ocr_thread None false k in
        let j := new_job s k p image st in
        if tess_Init k then
          exists st',
            main_step c st = Some (Reading input, st') /\
            length (threads st') = S k /\
            sub_counter st' = wrap (sub_counter st + 1) /\
            if decide (N = 1) then
              threads st' = threads st ++ [set_done true s] /\
              spawned st' = [] /\
              conv_subs st' =
                conv_subs st ++ [ocr_result j (ocr_recognize TesseractRect j).1]
            else
              threads st' =
                threads st ++ [mk_ocr_thread (Some (length (spawned st))) false k] /\
              spawned st' = spawned st ++ [Recognizing j] /\
              conv_subs st' = conv_subs st
        else main_step c st = Some (Exited (-1), log [ErrInitFailed] st)) /\
     (Z.of_nat k = N -> N = 1 ->
        exists s st',
          threads st = [s] /\
          main_step c st = Some (Reading input, st') /\
          threads st' = [set_done true s] /\
          spawned st' = [] /\
          sub_counter st' = wrap (sub_counter st + 1) /\
          conv_subs st' =
            conv_subs st ++ [ocr_result (new_job s 0 p image st)
                               (ocr_recognize TesseractRect (new_job s 0 p image st)).1]) /\
     (Z.of_nat k = N -> N <> 1 ->
        ((exists i s, threads st !! i = Some s /\ done s = true) ->
           exists i s tid st',
             threads st !! i = Some s /\ done s = true /\
             (forall m s', (m < i)%nat -> threads st !! m = Some s' -> done s' = false) /\
             t s = Some tid /\ spawned st !! tid = Some Returned /\
             main_step c st = Some (Reading input, st') /\
             threads st' =
               <[i := mk_ocr_thread (Some (length (spawned st))) false (tess_base_api s)]>
                 (threads st) /\
             spawned st' = spawned st ++ [Recognizing (new_job s i p image st)] /\
             conv_subs st' = conv_subs st /\
             sub_counter st' = wrap (sub_counter st + 1)) /\
        ((forall i s, threads st !! i = Some s -> done s = false) ->
           main_step c st = None /\
           (0 < length (threads st))%nat /\
           forall i s, threads st !! i = Some s ->
             exists tid th,
               t s = Some tid /\ spawned st !! tid = Some th /\ alive th = true /\
               is_Some (thread_step tid st)))).
Proof.
  intros Hr.
  destruct (reachable_inv opts hardware_concurrency tess_Init TesseractRect null_text
              past_end N_range _ _ _ Hr) as [Hinv Hc]. simpl in Hinv, Hc.
  pose proof (reachable_flags _ _ _ Hr) as Hflags. simpl in Hflags.
  split; [exact Hc|]. split; [apply Hinv|].
  split; [apply recognizing_le_alive|].
  split; [now apply (alive_le_slots opts hardware_concurrency)|].
  split; [intros cs'; now apply (slots_grow_lazily opts hardware_concurrency tess_Init
                                   TesseractRect null_text past_end N_range)|].
  split; [intros HN; now apply Hinv|].
  intros p image input -> k. split; [|split].
  - intros Hlt s j. pose proof (below_capacity p image input st Hlt) as B. cbv zeta in B.
    fold k in B. fold s in B. fold j in B.
    destruct (tess_Init k); [|exact B].
    destruct B as (st' & Hm & E1 & E2 & E3). exists st'.
    repeat (split; [assumption|]).
    destruct (decide (N = 1)) as [HN|HN]; [|exact E3].
    destruct E3 as (E3 & E4 & E5). repeat (split; [assumption|]).
    split; [|exact E5]. rewrite E4. now apply Hinv.
  - intros Hk HN.
    destruct (single_slot_inline p image input st Hinv HN ltac:(fold k; lia))
      as (s & st' & E1 & Hm & E2 & E3 & E4 & E5).
    exists s, st'. repeat (split; [assumption|]). split; [|split; assumption].
    rewrite E3. now apply Hinv.
  - intros Hk HN. split.
    + intros Hex. apply (saturated_takes_done_slot p image input st Hinv HN); [fold k; lia|exact Hex].
    + intros Hall. apply (saturated_waits p image input st Hinv Hflags HN); [fold k; lia|exact Hall].
Qed.


End Sized.

(** *** One thread: the run ends *)

Section One.

Hypothesis one : N = 1.


End One.

End Run.

(** ** Concrete runs of the pool *)

Lemma pool_capacity_witness :
  saturated.1 <> Undefined /\
  Z.of_nat (length (threads saturated.2)) <= pool_size two_slots 4 /\
  (length (alive_tids saturated.2) <= length (threads saturated.2))%nat /\
  main_step two_slots 4 engine_ok ocr "(null)"%string zeroed saturated.1 saturated.2 = None /\
  forall i s, threads saturated.2 !! i = Some s ->
    exists tid th,
      t s = Some tid /\ spawned saturated.2 !! tid = Some th /\ alive th = true /\
      is_Some (thread_step ocr tid saturated.2).
Proof.
  assert (Hn : 1 <= pool_size two_slots 4 <= UINT_MAX) by (vm_compute; split; discriminate).
  assert (Hr : reachable two_slots 4 engine_ok ocr "(null)"%string zeroed true
                 [frame 0 20 9000 18000; frame 1 20 18000 27000; frame 2 20 27000 36000]
                 (saturated.1, saturated.2)).
  { exact (run_main_steps two_slots 4 engine_ok ocr "(null)"%string zeroed 5
             (Reading [frame 0 20 9000 18000; frame 1 20 18000 27000; frame 2 20 27000 36000])
             initial). }
  destruct (pool_capacity two_slots 4 engine_ok ocr "(null)"%string zeroed Hn true _ _ _ Hr)
    as (H1 & H2 & _ & H4 & _ & _ & H7).
  split; [exact H1|]. split; [exact H2|]. split; [exact H4|].
  pose proof (H7 (frame 2 20 27000 36000) [255; 0; 0] [] eq_refl) as H.
  cbv zeta in H. destruct H as (_ & _ & H).
  destruct H as [_ Hw]; [reflexivity | vm_compute; discriminate|].
  destruct Hw as (W1 & _ & W3).
  - intros [|[|i]] s Hs; vm_compute in Hs; [| |discriminate Hs];
      injection Hs as <-; reflexivity.
  - split; [exact W1 | exact W3].
Defined.

Lemma recognition_failure_not_fatal_witness :
  (exists s st3 st',
     threads both_busy.2 !! 1%nat = Some s /\
     threads st3 = <[1%nat := set_done true s]> (threads both_busy.2) /\
     events st3 = events both_busy.2 ++ [ErrOcrFailed 2] /\
     conv_subs st3 = conv_subs both_busy.2 ++ [mk_sub_text 2 18000 UINT_MAX None] /\
     main_step two_slots 4 engine_ok ocr "(null)"%string zeroed both_busy.1 st3 =
       Some (Reading [], st')) /\
  exists e,
    ("2" ++ nl ++ "00:00:00,200 --> " ++ pts2srt e ++ nl ++ "(null)" ++ nl ++ nl)%string
      ∈ srtout shuffled.2.
Proof.
  assert (Hn : 1 <= pool_size two_slots 4 <= UINT_MAX) by (vm_compute; split; discriminate).
  assert (Hr : reachable two_slots 4 engine_ok ocr "(null)"%string zeroed true three_frames
                 (both_busy.1, both_busy.2)).
  { exact (run_schedule_steps two_slots 4 engine_ok ocr "(null)"%string zeroed
             (take 5 late_first) (Reading three_frames, initial)). }
  destruct (recognition_failure_not_fatal two_slots 4 engine_ok ocr "(null)"%string zeroed
              Hn second_job eq_refl) as (H1 & _ & H3).
  split.
  - destruct (H1 true three_frames both_busy.1 both_busy.2 1%nat Hr eq_refl eq_refl)
      as (s & st1 & st2 & st3 & Hs & _ & _ & _ & _ & _ & E3 & _ & E5 & E6 & Hgo).
    destruct (Hgo (frame 2 20 27000 36000) [255; 0; 0] [] eq_refl)
      as (c' & st' & Hm & [->|[_ [Hlt _]]]).
    + exists s, st3, st'. repeat split; assumption.
    + vm_compute in Hlt. discriminate Hlt.
  - destruct (H3 true three_frames both_busy.1 both_busy.2 Hr eq_refl) as [_ Hend].
    + right. exists 1%nat. left. reflexivity.
    + destruct (Hend (Exited 0) shuffled.2) as [[_ Hrec]|[Hc _]].
      * exact (run_schedule_steps two_slots 4 engine_ok ocr "(null)"%string zeroed
                 (drop 5 late_first) both_busy).
      * intros cs.
        exact (exited_is_final two_slots 4 engine_ok ocr "(null)"%string zeroed 0
                 shuffled.2 cs).
      * exact Hrec.
      * discriminate Hc.
Defined.


(** No more than fifteen moves can follow [saturated]; under this schedule
    the run takes twelve and returns 0. *)
Example saturated_ends :
  fuel_left saturated = 15%nat /\
  (run_schedule two_slots 4 engine_ok ocr "(null)"%string zeroed
     [Some 0%nat; Some 0%nat; Some 0%nat; None; None; None;
      Some 1%nat; Some 1%nat; Some 1%nat; Some 2%nat; Some 2%nat; Some 2%nat;
      None; None; None] saturated).1 = Exited 0.
Proof. vm_compute. split; reflexivity. Qed.

